(* ===== verification/_CoqProject ===== *)
-Q . S2P
Prelude.v
Msgpack.v
Types.v
Frame.v
Registry.v
Codec.v
PacketTest.v
Float32.v
Utils.v
Scene.v
Agent.v
AgentSpec.v
AgentWriter.v
