(* ===== verification/Prelude.v ===== *)
(** * A verification development for ouster's wire protocol, scene and agent

    ouster is the server of a small networked game written in Go.  Its core
    is the [packet] package: a codec that turns typed values into
    length-framed, id-tagged MessagePack frames on a byte stream and back,
    with a registry from packet ids to the Go types they carry.  Around it
    sit the connection agent (src/player/agent.go: a reader goroutine, a
    writer goroutine and the player's event loop), the scene
    (src/scene/map.go: the players of a map and their heartbeat movement),
    and the geometry and error helpers of src/utils.go.  The package's
    tests (src/packet/packet_test.go) exercise the codec.  The codec's
    source is not under src/: it is modelled from the specification
    (spec.md) and its tests; everything else is translated from the Go
    source.

    ** Files, in dependency order

    - [Prelude] (this file): the codec's error taxonomy, a result monad
      with [let*] (scope [codec_scope]), bytes and big-endian integers,
      association lists, the [codec] hint and rewrite databases, and the
      tactics [zlia], [zcases], [inv_rbind], [rsimpl].
    - [Msgpack], module [Msgpack]: the value encoding (spec 4.1) on an
      inductive [obj] of wire values: [encode] and the decoder [decode] with
      fuel and [decode_value], its entry point, which gives it
      [S (length bs)] units of fuel.  Every nested value consumes at least
      one byte, so that fuel is enough: [decode_fuel_enough] shows any
      larger fuel computes the same result, so [decode_value] is total.
    - [Types], module [Types]: Go's typed values [gval] and type
      descriptors [gtype] (named types, structs, arrays, slices, maps,
      [interface{}]); [to_obj] is the encoder's reflection walk, [of_obj]
      the decoder's binding into the registered type (structs by field
      name, interfaces by [decode_dyn]), [conforms] the shape check,
      [deep_equal] [reflect.DeepEqual] (floats compared with Go's [==]:
      NaN equals nothing, +0 equals -0), [zero] [reflect.Zero].
    - [Frame], module [Frame]: frames [LEN(4, big-endian) | ID | PAYLOAD]
      (spec 4.3): [write_frame], [read_frame], and the [coder] interface
      (a record of encoder, decoder and round-trip law) with the
      [frame_coder] combinator.
    - [Registry], module [Registry]: [PacketMap] and [PacketNameById] as
      [gmap]s (spec 4.2), the packet ids, the application's packet types
      and the startup registrations, with the invariant [wf_registry].
    - [Codec], module [Codec]: [Encoder.Encode], [Decoder.Decode] and the
      one-shot [Write] and [Read] (spec 4.4), with streams of packets.
    - [PacketTest], module [PacketTest]: the five tests of
      packet_test.go as boolean functions of the registry, and [go_test].
    - [Float32], module [Float32]: Go's float32 as IEEE-754 binary32
      through [SpecFloat] (every operation rounded, as Go does on amd64),
      with exact lemmas on the sign: rounding commutes with it, [b - a]
      is [-(a - b)] or the same [+0], squares and their sums are never
      below +0 ([nonneg]).
    - [Utils], module [Utils]: the structs of utils.go, [Distance],
      [Error], [Error()], [NewError] with the result of [runtime.Caller]
      as an input.
    - [Scene], module [Scene]: the map of map.go over a heap of player
      records ([gmap positive Player]), since players are shared
      pointers: [New], [Map_Player] ([m.Player]), [HeartBeat] (a Section
      over [math.Atan2], [math.Cos], [math.Sin]), [Login], and the life of
      a scene as the step relation [scene_step] (a player is allocated, a
      new player logs in while its [Id] fits a uint32, the heartbeat
      ticks) with [scene_reachable] from [New d].
    - [Agent], module [Agent]: [player.Go()] and [player.loop()] as an
      interleaving step relation on the connection, the two channels of
      capacity one, the goroutines' program counters and logs.
    - [AgentSpec], module [AgentSpec]: the receiving side's contract, an
      order-preserving delivery service [fifo], the abstraction [abs] of
      an agent state, and the simulation of [Agent.step] by [fifo_step].
    - [AgentWriter], module [AgentWriter]: the sending side's no-loss
      invariant and the writer's ability to flush.

    ** What the theorems show

    - Codec round trips: a value that conforms to the type registered for
      its id is written as one frame and read back deeply equal, with the
      stream positioned after the frame ([Codec.Encode_Decode]), through
      the value layer ([Msgpack.decode_encode_value]) and the typed layer
      ([Types.of_obj_roundtrip]); a sequence of packets comes back in order
      ([Codec.Encode_all_Decode_n]); a decoded value has the registered
      type ([Codec.Decode_type]).
    - Frames and errors: frame lengths, [Truncated] on every proper prefix,
      [UnknownPacketId] without losing the frame boundary, [ShapeMismatch]
      on the encoder side.
    - Registry: last write wins, [all] is the entries but [PMax].
    - Tests: an iteration of [TestPrimitive]'s loop passes on every
      conforming value without NaN and fails on every one holding a NaN
      ([reflect.DeepEqual] compares floats with [==]); [TestType] passes
      on every well-formed registry of non-interface types.  The tests'
      fixed inputs are computed, not claimed.
    - Agent: an invariant proved by rule induction over [step] (what
      [loop] handled, what sits in the channel, the reader's
      value in flight and what is left on the connection make up exactly
      the values [packet.Read] delivers; the writer's output is the frames
      of sent packets, in order), from which: [loop] returns only after
      handling every delivered value, a schedule to that return always
      exists, end to end the objects of the frames the peer sent are
      handled in order; and the error paths (an unknown id ends the
      connection; after close nothing reaches the connection, and the
      writer drops each packet with a log line and never returns).
      Refinement: every run of the agent is a run of the delivery service
      [AgentSpec.fifo] ([AgentSpec.agent_refines_fifo]), and the handled
      values are the objects of the decoded packets, each of the type
      registered for its own frame's id.  The writer loses
      nothing while the connection is open and can always flush
      ([AgentWriter]).
    - Scene: [HeartBeat] and [Login] keep the scene well formed (distinct
      players, each knowing its slot and scene), so by rule induction every
      reachable scene is well formed, its [HeartBeat] never meets nil, and
      [m.Player] at a player's [Id] returns that player
      ([Scene.scene_Player_Id]), with distinct [Id]s; and what the code
      gets wrong: [New] drops its argument so every scene is untitled;
      [Login] of a player already in the scene gives it a second slot and
      breaks the invariant; a doubled slot moves its player twice; [m.Player]
      wraps at 2^32 players, and [Login] gives the player at slot 2^32 the
      [Id] 0 of the first one ([Scene.Login_Id_wrap]); a moving player
      whose speed is not above +0 is never stopped, in any run, even on
      its target ([Scene.scene_stalled_mover], from a Section of lemmas
      on the player properties every scene event keeps).
    - Utils: [Error()] determines the error when the message has no
      newline ([Utils.Error_Error_inj]: the message ends at the first
      newline, the line follows the last colon, and [strconv.Itoa] prints
      no colon and reads back), and for all strings a message holding
      ["\nat "] makes two different errors print alike; [Distance] is
      exactly symmetric on every float32 input ([Utils.Distance_comm]).

    ** Not modelled

    The aoi and data packages and the player package's handlers are not
    under src/ and only called here: their calls are events or inputs.
    Logging output, [runtime.Caller] (an input of [NewError]), [time.Tick]
    and the channels [Map] creates and never uses are left out.  The
    codec's [InvalidEncoding] (invalid UTF-8) is not produced: strings are
    byte lists.  Nil slices and maps are modelled as empty ones.  Go's
    permission to fuse float multiply-adds is not modelled: each float32
    operation rounds.  The math library's [Atan2], [Cos] and [Sin] are
    parameters.  The agent's environment is fixed: the peer's bytes are
    given at the start, and a write fails only in the codec or once the
    reader has closed the connection; the reader's log line, [Close] and
    [close(read)] are one step.  The codec's source is not available, so
    how [Decode] treats bytes after the value in a payload (it ignores
    them) is a modelling choice, and no theorem rests on it. *)

From stdpp Require Import base list gmap strings.
From Stdlib Require Import ZArith Lia Strings.Byte.

Declare Scope codec_scope.
Delimit Scope codec_scope with codec.

(** ** Errors and results *)

(** The error taxonomy of the codec (spec section 7).  [EmptyFrame] is the
    protocol error of a frame whose length prefix is 0 (spec section 3). *)
Inductive codec_error : Type :=
| Truncated
| UnknownTag (tag : Z)
| Overflow
| InvalidEncoding
| MissingField (field : string)
| UnknownPacketId (id : Z)
| ShapeMismatch
| EmptyFrame.

(** Fallible computations of the codec return a value or an error. *)
Inductive result (A : Type) : Type :=
| Ok (a : A)
| Err (e : codec_error).
Arguments Ok {A} a.
Arguments Err {A} e.

Definition rbind {A B : Type} (r : result A) (k : A -> result B) : result B :=
  match r with
  | Ok a => k a
  | Err e => Err e
  end.

Definition rmap {A B : Type} (f : A -> B) (r : result A) : result B :=
  rbind r (fun a => Ok (f a)).

Notation "'let*' x ':=' c 'in' k" := (rbind c (fun x => k))
  (at level 10, x name, c at level 100, k at level 200) : codec_scope.
Notation "'let*' ' p ':=' c 'in' k" := (rbind c (fun x => match x with p => k end))
  (at level 10, p pattern, c at level 100, k at level 200) : codec_scope.

Local Open Scope codec_scope.

Definition is_ok {A : Type} (r : result A) : bool :=
  match r with Ok _ => true | Err _ => false end.

(** ** Bytes *)

(** The unsigned value of a byte. *)
Definition byte_val (b : byte) : Z := Z.of_N (Byte.to_N b).

(** The low 8 bits of an integer, as Go's [byte(z)] conversion. *)
Definition byte_of (z : Z) : byte :=
  match Byte.of_N (Z.to_N (z mod 256)) with
  | Some b => b
  | None => Byte.x00
  end.

(** [n] bytes of [z], most significant first: the low [8 n] bits of [z]. *)
Fixpoint be_bytes (n : nat) (z : Z) : list byte :=
  match n with
  | O => []
  | S n' => be_bytes n' (z / 256) ++ [byte_of z]
  end.

(** The big-endian unsigned value of a byte list. *)
Definition be_val (bs : list byte) : Z :=
  fold_left (fun acc b => acc * 256 + byte_val b)%Z bs 0%Z.

(** Read [n] bytes off the front of a stream: the bytes and the rest, or
    [Truncated] when fewer than [n] bytes are there.  The count is compared
    before it is converted, so that a huge length header costs nothing. *)
Definition take_bytes (n : Z) (bs : list byte) : result (list byte * list byte) :=
  if (Z.of_nat (length bs) <? n)%Z then Err Truncated
  else Ok (take (Z.to_nat n) bs, drop (Z.to_nat n) bs).

(** Two's-complement reading of a [w]-bit unsigned value. *)
Definition sign_ext (w : Z) (v : Z) : Z :=
  if (v <? 2 ^ (w - 1))%Z then v else (v - 2 ^ w)%Z.

(** ** Association lists with string keys

    Go maps keyed by strings, and the fields of a decoded record, as lists
    in insertion order: assigning an existing key replaces its value in
    place (the last write wins), a new key goes at the end. *)
Fixpoint assoc_insert {V : Type} (k : string) (v : V) (l : list (string * V)) : list (string * V) :=
  match l with
  | [] => [(k, v)]
  | (k', v') :: l' => if String.eqb k k' then (k, v) :: l' else (k', v') :: assoc_insert k v l'
  end.

Fixpoint assoc_lookup {V : Type} (k : string) (l : list (string * V)) : option V :=
  match l with
  | [] => None
  | (k', v') :: l' => if String.eqb k k' then Some v' else assoc_lookup k l'
  end.

(** Pointwise boolean relation of two lists of the same length. *)
Fixpoint forall2b {A : Type} (f : A -> A -> bool) (l l' : list A) : bool :=
  match l, l' with
  | [], [] => true
  | x :: l, y :: l' => f x y && forall2b f l l'
  | _, _ => false
  end.

(** Apply a fallible function to every element, stopping at the first
    error. *)
Fixpoint mapM {A B : Type} (f : A -> result B) (l : list A) : result (list B) :=
  match l with
  | [] => Ok []
  | x :: l' => let* y := f x in let* ys := mapM f l' in Ok (y :: ys)
  end.

(** ** Lemmas *)

Create HintDb codec discriminated.
Create Rewrite HintDb codec.

Section ResultLemmas.
Context {A B : Type}.

Lemma rbind_Ok (a : A) (k : A -> result B) : rbind (Ok a) k = k a.
Proof. reflexivity. Qed.

Lemma rbind_Err (e : codec_error) (k : A -> result B) : rbind (Err e) k = Err e.
Proof. reflexivity. Qed.

Lemma rbind_inv_Ok (r : result A) (k : A -> result B) (b : B) :
  rbind r k = Ok b -> exists a, r = Ok a /\ k a = Ok b.
Proof. destruct r; simpl; [eauto | discriminate]. Qed.

Lemma rbind_inv_Err (r : result A) (k : A -> result B) (e : codec_error) :
  rbind r k = Err e -> r = Err e \/ exists a, r = Ok a /\ k a = Err e.
Proof. destruct r; simpl; [eauto | intros [= ->]; auto]. Qed.
End ResultLemmas.

#[export] Hint Rewrite @rbind_Ok @rbind_Err : codec.

Lemma byte_val_range (b : byte) : (0 <= byte_val b < 256)%Z.
Proof.
  unfold byte_val. pose proof (Byte.to_N_bounded b). lia.
Qed.

Lemma byte_val_of (z : Z) : byte_val (byte_of z) = (z mod 256)%Z.
Proof.
  unfold byte_val, byte_of.
  pose proof (Z.mod_pos_bound z 256 ltac:(lia)).
  destruct (Byte.of_N (Z.to_N (z mod 256))) eqn:E.
  - apply Byte.to_of_N in E. rewrite E. lia.
  - apply Byte.of_N_None_iff in E. lia.
Qed.

Lemma byte_of_val (b : byte) : byte_of (byte_val b) = b.
Proof.
  unfold byte_val, byte_of.
  pose proof (Byte.to_N_bounded b).
  rewrite Z.mod_small by lia. rewrite N2Z.id, Byte.of_to_N. reflexivity.
Qed.

Lemma byte_val_inj (b1 b2 : byte) : byte_val b1 = byte_val b2 -> b1 = b2.
Proof. intros H. rewrite <- (byte_of_val b1), <- (byte_of_val b2), H. reflexivity. Qed.

Lemma byte_val_of_small (z : Z) : (0 <= z < 256)%Z -> byte_val (byte_of z) = z.
Proof. intros. rewrite byte_val_of. apply Z.mod_small. lia. Qed.

#[export] Hint Rewrite byte_val_of byte_of_val : codec.

Lemma length_be_bytes (n : nat) (z : Z) : length (be_bytes n z) = n.
Proof.
  revert z; induction n as [|n IH]; intros z; simpl; [done|].
  rewrite length_app, IH. simpl. lia.
Qed.

Lemma be_val_snoc (bs : list byte) (b : byte) :
  be_val (bs ++ [b]) = (be_val bs * 256 + byte_val b)%Z.
Proof. unfold be_val. rewrite fold_left_app. reflexivity. Qed.

Lemma be_val_bytes (n : nat) (z : Z) :
  be_val (be_bytes n z) = (z mod 256 ^ Z.of_nat n)%Z.
Proof.
  revert z; induction n as [|n IH]; intros z; cbn [be_bytes].
  - rewrite Z.mod_1_r. reflexivity.
  - rewrite be_val_snoc, IH, byte_val_of.
    rewrite Nat2Z.inj_succ, Z.pow_succ_r by lia.
    rewrite Z.rem_mul_r by (try apply Z.pow_pos_nonneg; lia).
    ring.
Qed.

Lemma be_val_bytes_small (n : nat) (z : Z) :
  (0 <= z < 256 ^ Z.of_nat n)%Z -> be_val (be_bytes n z) = z.
Proof. intros. rewrite be_val_bytes. apply Z.mod_small. lia. Qed.

#[export] Hint Rewrite length_be_bytes be_val_bytes : codec.

Lemma take_bytes_app (n : Z) (l rest : list byte) :
  n = Z.of_nat (length l) -> take_bytes n (l ++ rest) = Ok (l, rest).
Proof.
  intros ->. unfold take_bytes. rewrite length_app.
  destruct (Z.ltb_spec (Z.of_nat (length l + length rest)) (Z.of_nat (length l))); [lia|].
  rewrite Nat2Z.id, take_app_length, drop_app_length. reflexivity.
Qed.

Lemma take_bytes_short (n : Z) (bs : list byte) :
  (Z.of_nat (length bs) < n)%Z -> take_bytes n bs = Err Truncated.
Proof.
  intros H. unfold take_bytes. destruct (Z.ltb_spec (Z.of_nat (length bs)) n); [done|lia].
Qed.

Lemma take_bytes_Ok (n : Z) (bs l rest : list byte) :
  take_bytes n bs = Ok (l, rest) ->
  bs = l ++ rest /\ length l = Z.to_nat n /\ (0 <= n -> Z.of_nat (length l) = n)%Z.
Proof.
  unfold take_bytes. destruct (Z.ltb_spec (Z.of_nat (length bs)) n); [discriminate|].
  intros [= <- <-]. rewrite take_drop, length_take. split; [done|]. split; lia.
Qed.

Lemma take_bytes_be (n : nat) (z : Z) (rest : list byte) :
  take_bytes (Z.of_nat n) (be_bytes n z ++ rest) = Ok (be_bytes n z, rest).
Proof. apply take_bytes_app. by rewrite length_be_bytes. Qed.

#[export] Hint Rewrite take_bytes_be : codec.

Lemma sign_ext_small (w v : Z) : (v < 2 ^ (w - 1))%Z -> sign_ext w v = v.
Proof. intros H. unfold sign_ext. destruct (Z.ltb_spec v (2 ^ (w - 1))); lia. Qed.

Lemma mapM_map_Ok {A B : Type} (f : A -> result B) (g : B -> A) (l : list B) :
  Forall (fun y => f (g y) = Ok y) l -> mapM f (map g l) = Ok l.
Proof. induction 1 as [|y l Hy _ IH]; [done|]. cbn [map mapM]. by rewrite Hy, rbind_Ok, IH. Qed.

Lemma forallb_Forall {A : Type} (f : A -> bool) (l : list A) :
  forallb f l = true <-> Forall (fun x => f x = true) l.
Proof.
  induction l as [|x l IH]; cbn [forallb]; [split; constructor|].
  rewrite andb_true_iff, Forall_cons, IH. done.
Qed.

(** Combine an induction hypothesis over the elements with a boolean
    check of each element. *)
Lemma Forall_forallb_impl {A : Type} (Q : A -> bool) (R : A -> Prop) (l : list A) :
  Forall (fun x => Q x = true -> R x) l -> forallb Q l = true -> Forall R l.
Proof. rewrite forallb_Forall. intros H1 H2. eapply Forall_impl; [apply Forall_and; split; [exact H1|exact H2]|]. naive_solver. Qed.

Lemma Forall_forallb_impl2 {A : Type} (Q1 Q2 : A -> bool) (R : A -> Prop) (l : list A) :
  Forall (fun x => Q1 x = true -> Q2 x = true -> R x) l -> forallb Q1 l = true -> forallb Q2 l = true ->
  Forall R l.
Proof. intros H H1 H2. eapply Forall_forallb_impl; [eapply Forall_forallb_impl; [exact H|exact H1]|exact H2]. Qed.

(** One element whose test fails against everything fails the pairwise test. *)
Lemma forall2b_false {A : Type} (Q : A -> bool) (f : A -> A -> bool) (l : list A) :
  Forall (fun x => Q x = false -> forall y, f x y = false) l -> forallb Q l = false ->
  forall l', forall2b f l l' = false.
Proof.
  induction 1 as [|x l Hx _ IH]; [done|]. cbn [forallb]. intros Hq [|y l']; [done|]. cbn.
  destruct (Q x) eqn:Ex; cbn in Hq; [by rewrite IH, andb_false_r | by rewrite Hx].
Qed.

Lemma forall2b_diag {A : Type} (f : A -> A -> bool) (l : list A) :
  Forall (fun x => f x x = true) l -> forall2b f l l = true.
Proof. induction 1 as [|x l Hx _ IH]; [done|]. cbn. by rewrite Hx, IH. Qed.

Section Assoc.
Context {V : Type}.

Lemma assoc_insert_fresh (k : string) (v : V) (l : list (string * V)) :
  k ∉ l.*1 -> assoc_insert k v l = l ++ [(k, v)].
Proof.
  induction l as [|[k' v'] l IH]; intros Hk; [done|]. cbn [assoc_insert].
  rewrite fmap_cons, elem_of_cons in Hk.
  destruct (String.eqb_spec k k'); [naive_solver|]. rewrite IH; naive_solver.
Qed.

(** Inserting distinct keys one after the other rebuilds the list. *)
Lemma fold_assoc_insert (acc l : list (string * V)) :
  NoDup (acc.*1 ++ l.*1) ->
  fold_left (fun m kv => assoc_insert kv.1 kv.2 m) l acc = acc ++ l.
Proof.
  revert acc; induction l as [|[k v] l IH]; intros acc Hnd; [by rewrite app_nil_r|].
  cbn [fold_left]. rewrite fmap_cons in Hnd.
  rewrite assoc_insert_fresh.
  - rewrite IH, <- app_assoc; [done|]. by rewrite fmap_app, <- app_assoc.
  - apply NoDup_app in Hnd as (_ & Hdis & _). intros Hin. apply (Hdis k Hin). set_solver.
Qed.

Lemma assoc_lookup_app_fresh (k : string) (l1 l2 : list (string * V)) :
  k ∉ l1.*1 -> assoc_lookup k (l1 ++ l2) = assoc_lookup k l2.
Proof.
  induction l1 as [|[k' v'] l1 IH]; intros Hk; [done|]. cbn [assoc_lookup app].
  rewrite fmap_cons, elem_of_cons in Hk.
  destruct (String.eqb_spec k k'); [naive_solver|]. apply IH. naive_solver.
Qed.
Lemma assoc_lookup_nodup (k : string) (x : V) (l : list (string * V)) :
  NoDup l.*1 -> (k, x) ∈ l -> assoc_lookup k l = Some x.
Proof.
  induction l as [|[k' x'] l IH]; intros Hnd Hin; [by apply not_elem_of_nil in Hin|].
  rewrite fmap_cons, NoDup_cons in Hnd. destruct Hnd as [Hk Hnd]. cbn [assoc_lookup].
  apply elem_of_cons in Hin as [[= -> ->] | Hin]; [by rewrite String.eqb_refl|].
  destruct (String.eqb_spec k k') as [->|]; [|by apply IH].
  exfalso. apply Hk. apply (list_elem_of_fmap_2 fst _ _ Hin).
Qed.
End Assoc.

(** ** Tactics *)

(** [lia] after turning [mod] and [/] into their defining equations. *)
Ltac zlia := Z.to_euclidean_division_equations; lia.

(** Decide every integer comparison of the goal, closing contradictory
    branches with [lia]. *)
Ltac zcases :=
  repeat match goal with
  | |- context [Z.leb ?a ?b] => destruct (Z.leb_spec a b); try lia
  | |- context [Z.ltb ?a ?b] => destruct (Z.ltb_spec a b); try lia
  | |- context [Z.eqb ?a ?b] => destruct (Z.eqb_spec a b); try lia
  end.

(** Split hypotheses [rbind r k = Ok b] into the step and its continuation. *)
Ltac inv_rbind :=
  repeat match goal with
  | H : rbind ?r _ = Ok _ |- _ =>
      let a := fresh "a" in let Ha := fresh "Hr" in
      apply rbind_inv_Ok in H as (a & Ha & H)
  | H : Ok _ = Ok _ |- _ => injection H as H
  | H : (_, _) = (_, _) |- _ => injection H as H
  | H : Err _ = Ok _ |- _ => discriminate H
  end.

(** Close a goal [rbind (Ok a) k = ...] by stepping through the binds. *)
Ltac rsimpl := repeat (simpl; autorewrite with codec).
