(* ===== verification/Msgpack.v ===== *)
(** * Binary Value Encoding (spec sections 4.1 and 6)

    The MessagePack-style tagged encoding of one value.  The Go package that
    implements it is not part of the sources (only its test,
    src/packet/packet_test.go, is), so this file is modelled from the spec:
    [obj] is the untyped data model of the wire, [encode] picks the smallest
    tag for every value (fixint, negfixint, fixstr, fixarray, fixmap and the
    wider uint/int/str/array/map tags), and [decode] is driven by the tag
    byte alone, with fuel.  Floats travel as their IEEE-754 bit patterns. *)

From stdpp Require Import base list.
From Stdlib Require Import ZArith Lia Strings.Byte.
From S2P Require Import Prelude.

Local Open Scope Z_scope.
Local Open Scope codec_scope.

Module Msgpack.

(** ** Wire values *)

(** The value kinds of spec section 3 without record binding: integers of
    every width share [OInt] (the value, in the int64 or uint64 range),
    floats are bit patterns, strings are byte strings and mapping keys are
    strings. *)
Inductive obj : Type :=
| ONil
| OBool (b : bool)
| OInt (z : Z)
| OFloat32 (bits : Z)
| OFloat64 (bits : Z)
| OStr (s : list byte)
| OArr (xs : list obj)
| OMap (kvs : list (list byte * obj)).

(** Induction on [obj] with hypotheses for the elements of containers. *)
Section ObjInd.
Variable P : obj -> Prop.
Hypothesis HNil : P ONil.
Hypothesis HBool : forall b, P (OBool b).
Hypothesis HInt : forall z, P (OInt z).
Hypothesis HF32 : forall b, P (OFloat32 b).
Hypothesis HF64 : forall b, P (OFloat64 b).
Hypothesis HStr : forall s, P (OStr s).
Hypothesis HArr : forall xs, Forall P xs -> P (OArr xs).
Hypothesis HMap : forall kvs, Forall (fun kv => P kv.2) kvs -> P (OMap kvs).

Fixpoint obj_ind' (o : obj) : P o :=
  match o with
  | ONil => HNil
  | OBool b => HBool b
  | OInt z => HInt z
  | OFloat32 b => HF32 b
  | OFloat64 b => HF64 b
  | OStr s => HStr s
  | OArr xs =>
      HArr xs ((fix go (l : list obj) : Forall P l :=
                  match l with
                  | [] => Forall_nil_2 P
                  | x :: l' => Forall_cons_2 P x l' (obj_ind' x) (go l')
                  end) xs)
  | OMap kvs =>
      HMap kvs ((fix go (l : list (list byte * obj)) : Forall (fun kv => P kv.2) l :=
                   match l with
                   | [] => Forall_nil_2 _
                   | (k, v) :: l' => Forall_cons_2 (fun kv => P kv.2) (k, v) l' (obj_ind' v) (go l')
                   end) kvs)
  end.
End ObjInd.

(** ** Well-formed values

    What a Go value can hold: integers in the int64 or uint64 range, float
    bit patterns of their width, strings, sequences and mappings with fewer
    than 2^32 elements (the widest length field). *)
Definition int_ok (z : Z) : bool := (- 2 ^ 63 <=? z) && (z <? 2 ^ 64).
Definition len_ok {A : Type} (l : list A) : bool := Z.of_nat (length l) <? 2 ^ 32.

Fixpoint wf_obj (o : obj) : bool :=
  match o with
  | ONil | OBool _ => true
  | OInt z => int_ok z
  | OFloat32 b => (0 <=? b) && (b <? 2 ^ 32)
  | OFloat64 b => (0 <=? b) && (b <? 2 ^ 64)
  | OStr s => len_ok s
  | OArr xs => len_ok xs && forallb wf_obj xs
  | OMap kvs => len_ok kvs && forallb (fun kv => match kv with (k, v) => len_ok k && wf_obj v end) kvs
  end.

(** ** Encoder *)

(** Non-negative integers: positive fixint, then uint8/16/32/64. *)
Definition enc_uint (z : Z) : list byte :=
  if z <=? 0x7f then [byte_of z]
  else if z <=? 0xff then byte_of 0xcc :: be_bytes 1 z
  else if z <=? 0xffff then byte_of 0xcd :: be_bytes 2 z
  else if z <=? 0xffffffff then byte_of 0xce :: be_bytes 4 z
  else byte_of 0xcf :: be_bytes 8 z.

(** Negative integers: negative fixint, then int8/16/32/64 in two's
    complement. *)
Definition enc_nint (z : Z) : list byte :=
  if -32 <=? z then [byte_of z]
  else if -128 <=? z then byte_of 0xd0 :: be_bytes 1 z
  else if -32768 <=? z then byte_of 0xd1 :: be_bytes 2 z
  else if - 2 ^ 31 <=? z then byte_of 0xd2 :: be_bytes 4 z
  else byte_of 0xd3 :: be_bytes 8 z.

Definition enc_int (z : Z) : list byte := if 0 <=? z then enc_uint z else enc_nint z.

(** String header: fixstr, str8, str16, str32. *)
Definition str_header (n : Z) : list byte :=
  if n <=? 31 then [byte_of (0xa0 + n)]
  else if n <=? 0xff then byte_of 0xd9 :: be_bytes 1 n
  else if n <=? 0xffff then byte_of 0xda :: be_bytes 2 n
  else byte_of 0xdb :: be_bytes 4 n.

Definition enc_str (s : list byte) : list byte := str_header (Z.of_nat (length s)) ++ s.

(** Container header: a range of 16 tags from [fixbase], then the 16- and
    32-bit count tags [t16] and [t32]. *)
Definition count_header (fixbase t16 t32 : Z) (n : Z) : list byte :=
  if n <=? 15 then [byte_of (fixbase + n)]
  else if n <=? 0xffff then byte_of t16 :: be_bytes 2 n
  else byte_of t32 :: be_bytes 4 n.

Definition arr_header (n : Z) : list byte := count_header 0x90 0xdc 0xdd n.
Definition map_header (n : Z) : list byte := count_header 0x80 0xde 0xdf n.

Fixpoint encode (o : obj) : list byte :=
  match o with
  | ONil => [byte_of 0xc0]
  | OBool false => [byte_of 0xc2]
  | OBool true => [byte_of 0xc3]
  | OInt z => enc_int z
  | OFloat32 b => byte_of 0xca :: be_bytes 4 b
  | OFloat64 b => byte_of 0xcb :: be_bytes 8 b
  | OStr s => enc_str s
  | OArr xs => arr_header (Z.of_nat (length xs)) ++ concat (map encode xs)
  | OMap kvs =>
      map_header (Z.of_nat (length kvs))
        ++ concat (map (fun kv => match kv with (k, v) => enc_str k ++ encode v end) kvs)
  end.

(** ** Decoder *)

Abbreviation decoder := (list byte -> result (obj * list byte)).

(** [n] consecutive values. *)
Fixpoint decode_items (dec : decoder) (n : nat) (bs : list byte)
  : result (list obj * list byte) :=
  match n with
  | O => Ok ([], bs)
  | S n' =>
      let* '(o, r) := dec bs in
      let* '(os, r') := decode_items dec n' r in
      Ok (o :: os, r')
  end.

(** [n] consecutive key/value pairs; a key must be a string. *)
Fixpoint decode_pairs (dec : decoder) (n : nat) (bs : list byte)
  : result (list (list byte * obj) * list byte) :=
  match n with
  | O => Ok ([], bs)
  | S n' =>
      let* '(k, r) := dec bs in
      match k with
      | OStr s =>
          let* '(v, r') := dec r in
          let* '(kvs, r'') := decode_pairs dec n' r' in
          Ok ((s, v) :: kvs, r'')
      | _ => Err ShapeMismatch
      end
  end.

(** A sequence or mapping of [n] elements; each element takes at least one
    byte, so a count above the bytes left is [Truncated] at once. *)
Definition decode_arr (dec : decoder) (n : Z) (bs : list byte) : result (obj * list byte) :=
  if Z.of_nat (length bs) <? n then Err Truncated
  else let* '(os, r) := decode_items dec (Z.to_nat n) bs in Ok (OArr os, r).

Definition decode_map (dec : decoder) (n : Z) (bs : list byte) : result (obj * list byte) :=
  if Z.of_nat (length bs) <? n then Err Truncated
  else let* '(kvs, r) := decode_pairs dec (Z.to_nat n) bs in Ok (OMap kvs, r).

Definition decode_str (n : Z) (bs : list byte) : result (obj * list byte) :=
  let* '(s, r) := take_bytes n bs in Ok (OStr s, r).

(** A big-endian field of [n] bytes. *)
Definition decode_be (n : Z) (bs : list byte) : result (Z * list byte) :=
  let* '(l, r) := take_bytes n bs in Ok (be_val l, r).

Definition decode_with_len (n : Z) (k : Z -> list byte -> result (obj * list byte))
  (bs : list byte) : result (obj * list byte) :=
  let* '(len, r) := decode_be n bs in k len r.

(** One value whose tag byte is [t], followed by [bs]; [dec] decodes the
    elements of containers. *)
Definition decode_tag (dec : decoder) (t : Z) (bs : list byte) : result (obj * list byte) :=
  if t <=? 0x7f then Ok (OInt t, bs)
  else if t <=? 0x8f then decode_map dec (t - 0x80) bs
  else if t <=? 0x9f then decode_arr dec (t - 0x90) bs
  else if t <=? 0xbf then decode_str (t - 0xa0) bs
  else if 0xe0 <=? t then Ok (OInt (t - 256), bs)
  else if t =? 0xc0 then Ok (ONil, bs)
  else if t =? 0xc2 then Ok (OBool false, bs)
  else if t =? 0xc3 then Ok (OBool true, bs)
  else if t =? 0xca then let* '(v, r) := decode_be 4 bs in Ok (OFloat32 v, r)
  else if t =? 0xcb then let* '(v, r) := decode_be 8 bs in Ok (OFloat64 v, r)
  else if t =? 0xcc then let* '(v, r) := decode_be 1 bs in Ok (OInt v, r)
  else if t =? 0xcd then let* '(v, r) := decode_be 2 bs in Ok (OInt v, r)
  else if t =? 0xce then let* '(v, r) := decode_be 4 bs in Ok (OInt v, r)
  else if t =? 0xcf then let* '(v, r) := decode_be 8 bs in Ok (OInt v, r)
  else if t =? 0xd0 then let* '(v, r) := decode_be 1 bs in Ok (OInt (sign_ext 8 v), r)
  else if t =? 0xd1 then let* '(v, r) := decode_be 2 bs in Ok (OInt (sign_ext 16 v), r)
  else if t =? 0xd2 then let* '(v, r) := decode_be 4 bs in Ok (OInt (sign_ext 32 v), r)
  else if t =? 0xd3 then let* '(v, r) := decode_be 8 bs in Ok (OInt (sign_ext 64 v), r)
  else if t =? 0xd9 then decode_with_len 1 decode_str bs
  else if t =? 0xda then decode_with_len 2 decode_str bs
  else if t =? 0xdb then decode_with_len 4 decode_str bs
  else if t =? 0xdc then decode_with_len 2 (decode_arr dec) bs
  else if t =? 0xdd then decode_with_len 4 (decode_arr dec) bs
  else if t =? 0xde then decode_with_len 2 (decode_map dec) bs
  else if t =? 0xdf then decode_with_len 4 (decode_map dec) bs
  else Err (UnknownTag t).

(** Read the tag byte, then the value it announces. *)
Definition decode_first (dec : decoder) (bs : list byte) : result (obj * list byte) :=
  match bs with
  | [] => Err Truncated
  | t :: rest => decode_tag dec (byte_val t) rest
  end.

(** The decoder, with [fuel] bounding the nesting depth. *)
Fixpoint decode (fuel : nat) (bs : list byte) : result (obj * list byte) :=
  match fuel with
  | O => Err Truncated
  | S fuel' => decode_first (decode fuel') bs
  end.

(** [decode_value bs]: one value off the front of [bs] and the bytes after
    it; one unit of fuel per byte is enough (lemma [decode_fuel_enough]). *)
Definition decode_value (bs : list byte) : result (obj * list byte) :=
  decode (S (length bs)) bs.

(** ** Auxiliary definitions of the proofs *)

(** The encoding of one map entry. *)
Definition enc_pair (kv : list byte * obj) : list byte :=
  match kv with (k, v) => enc_str k ++ encode v end.

(** A decoder that never returns more bytes than it was given. *)
Definition nogrow (dec : decoder) : Prop :=
  forall bs o r, dec bs = Ok (o, r) -> (length r <= length bs)%nat.

(** Two decoders that agree on every input of at most [m] bytes. *)
Definition agree (m : nat) (dec1 dec2 : decoder) : Prop :=
  forall bs, (length bs <= m)%nat -> dec1 bs = dec2 bs.

(** ** Round trip of scalars and strings *)

#[local] Arguments be_bytes : simpl never.
#[local] Arguments byte_of : simpl never.
#[local] Arguments take_bytes : simpl never.

(** Step [decode_first] over a header byte [byte_of k] with a constant [k]:
    the tag's branch of [decode_tag] is selected by computation. *)
Ltac step_tag :=
  cbn [decode_first app]; rewrite byte_val_of_small by lia;
  cbn -[decode_be decode_str decode_arr decode_map decode_with_len be_bytes].

Lemma sign_ext_mod (w z : Z) :
  0 < w -> - 2 ^ (w - 1) <= z < 0 -> sign_ext w (z mod 2 ^ w) = z.
Proof.
  intros Hw Hz. assert (Hp : 2 ^ w = 2 * 2 ^ (w - 1)).
  { rewrite <- Z.pow_succ_r by lia. f_equal. lia. }
  assert (Hm : z mod 2 ^ w = z + 2 ^ w).
  { rewrite Z.mod_eq by lia.
    assert (z / 2 ^ w = -1) as -> by (symmetry; apply Z.div_unique with (z + 2 ^ w); lia). lia. }
  rewrite Hm. unfold sign_ext. zcases.
Qed.

Lemma decode_be_be (n : nat) (k m z : Z) (rest : list byte) :
  k = Z.of_nat n -> m = 256 ^ k -> decode_be k (be_bytes n z ++ rest) = Ok (z mod m, rest).
Proof. intros -> ->. unfold decode_be. rewrite take_bytes_be. simpl. by rewrite be_val_bytes. Qed.

(** The fix ranges of [decode_tag]. *)
Lemma decode_tag_fixint (dec : decoder) (t : Z) (bs : list byte) :
  0 <= t <= 0x7f -> decode_tag dec t bs = Ok (OInt t, bs).
Proof. intros. unfold decode_tag. destruct (Z.leb_spec t 0x7f); [done | lia]. Qed.

Lemma decode_tag_negfixint (dec : decoder) (t : Z) (bs : list byte) :
  0xe0 <= t -> decode_tag dec t bs = Ok (OInt (t - 256), bs).
Proof.
  intros. unfold decode_tag.
  destruct (Z.leb_spec t 0x7f), (Z.leb_spec t 0x8f), (Z.leb_spec t 0x9f), (Z.leb_spec t 0xbf),
    (Z.leb_spec 0xe0 t); try lia. done.
Qed.

Lemma decode_tag_fixstr (dec : decoder) (t : Z) (bs : list byte) :
  0xa0 <= t <= 0xbf -> decode_tag dec t bs = decode_str (t - 0xa0) bs.
Proof.
  intros. unfold decode_tag.
  destruct (Z.leb_spec t 0x7f), (Z.leb_spec t 0x8f), (Z.leb_spec t 0x9f), (Z.leb_spec t 0xbf); try lia. done.
Qed.

Lemma decode_tag_fixarr (dec : decoder) (t : Z) (bs : list byte) :
  0x90 <= t <= 0x9f -> decode_tag dec t bs = decode_arr dec (t - 0x90) bs.
Proof.
  intros. unfold decode_tag. destruct (Z.leb_spec t 0x7f), (Z.leb_spec t 0x8f), (Z.leb_spec t 0x9f); try lia. done.
Qed.

Lemma decode_tag_fixmap (dec : decoder) (t : Z) (bs : list byte) :
  0x80 <= t <= 0x8f -> decode_tag dec t bs = decode_map dec (t - 0x80) bs.
Proof.
  intros. unfold decode_tag. destruct (Z.leb_spec t 0x7f), (Z.leb_spec t 0x8f); try lia. done.
Qed.

(** Read the big-endian field after a tag and reduce the continuation. *)
Ltac read_be :=
  rewrite ?(decode_be_be 1 1 256), ?(decode_be_be 2 2 65536), ?(decode_be_be 4 4 4294967296),
          ?(decode_be_be 8 8 18446744073709551616) by done;
  cbn [rbind].

Lemma decode_first_uint (dec : decoder) (z : Z) (rest : list byte) :
  0 <= z < 2 ^ 64 -> decode_first dec (enc_uint z ++ rest) = Ok (OInt z, rest).
Proof.
  intros Hz. unfold enc_uint.
  zcases; step_tag; [apply decode_tag_fixint; lia | ..];
    read_be; rewrite Z.mod_small by lia; done.
Qed.

Lemma decode_first_nint (dec : decoder) (z : Z) (rest : list byte) :
  - 2 ^ 63 <= z < 0 -> decode_first dec (enc_nint z ++ rest) = Ok (OInt z, rest).
Proof.
  intros Hz. unfold enc_nint. zcases.
  - cbn [decode_first app]. rewrite byte_val_of.
    rewrite decode_tag_negfixint by zlia. do 3 f_equal. zlia.
  - step_tag; read_be. change 256 with (2 ^ 8). by rewrite sign_ext_mod by lia.
  - step_tag; read_be. change 65536 with (2 ^ 16). by rewrite sign_ext_mod by lia.
  - step_tag; read_be. change 4294967296 with (2 ^ 32). by rewrite sign_ext_mod by lia.
  - step_tag; read_be. change 18446744073709551616 with (2 ^ 64). by rewrite sign_ext_mod by lia.
Qed.

Lemma decode_first_int (dec : decoder) (z : Z) (rest : list byte) :
  int_ok z = true -> decode_first dec (enc_int z ++ rest) = Ok (OInt z, rest).
Proof.
  unfold int_ok, enc_int. intros Hz.
  apply andb_prop in Hz as [Hlo Hhi]. apply Z.leb_le in Hlo. apply Z.ltb_lt in Hhi.
  destruct (Z.leb_spec 0 z).
  - apply decode_first_uint. lia.
  - apply decode_first_nint. lia.
Qed.

Lemma decode_str_app (n : Z) (s rest : list byte) :
  n = Z.of_nat (length s) -> decode_str n (s ++ rest) = Ok (OStr s, rest).
Proof. intros ->. unfold decode_str. by rewrite take_bytes_app. Qed.

Lemma decode_with_len_be (n : nat) (k m z : Z) (cont : Z -> list byte -> result (obj * list byte))
  (bs : list byte) :
  k = Z.of_nat n -> m = 256 ^ k -> decode_with_len k cont (be_bytes n z ++ bs) = cont (z mod m) bs.
Proof. intros -> ->. unfold decode_with_len. by rewrite (decode_be_be n _ (256 ^ Z.of_nat n)). Qed.

Ltac read_len :=
  first [ rewrite (decode_with_len_be 1 1 256) by done
        | rewrite (decode_with_len_be 2 2 65536) by done
        | rewrite (decode_with_len_be 4 4 4294967296) by done ];
  rewrite Z.mod_small by lia.

Lemma decode_first_str (dec : decoder) (s rest : list byte) :
  len_ok s = true -> decode_first dec (enc_str s ++ rest) = Ok (OStr s, rest).
Proof.
  unfold len_ok, enc_str, str_header. intros Hs%Z.ltb_lt. rewrite <- app_assoc.
  zcases; step_tag;
    [rewrite decode_tag_fixstr by lia; apply decode_str_app; lia | ..];
    read_len; by apply decode_str_app.
Qed.

(** A container header announces the decoder of its elements. *)
Lemma decode_first_count (dec : decoder) (fixbase t16 t32 : Z) (n : Z) (bs : list byte)
  (cont : Z -> list byte -> result (obj * list byte)) :
  0 <= n < 2 ^ 32 ->
  (forall k, 0 <= k <= 15 -> decode_tag dec (fixbase + k) bs = cont k bs) ->
  (forall bs', decode_tag dec t16 bs' = decode_with_len 2 cont bs') ->
  (forall bs', decode_tag dec t32 bs' = decode_with_len 4 cont bs') ->
  0 <= fixbase /\ fixbase + 15 < 256 -> 0 <= t16 < 256 -> 0 <= t32 < 256 ->
  decode_first dec (count_header fixbase t16 t32 n ++ bs) = cont n bs.
Proof.
  intros Hn Hfix H16 H32 Hb1 Hb2 Hb3. unfold count_header. zcases.
  all: cbn [decode_first app]; rewrite byte_val_of_small by lia.
  - apply Hfix; lia.
  - rewrite H16. by read_len.
  - rewrite H32. by read_len.
Qed.

Lemma decode_first_arr_header (dec : decoder) (n : Z) (bs : list byte) :
  0 <= n < 2 ^ 32 -> decode_first dec (arr_header n ++ bs) = decode_arr dec n bs.
Proof.
  intros Hn. apply decode_first_count; try done; try lia.
  intros k Hk. rewrite decode_tag_fixarr by lia. do 2 f_equal. lia.
Qed.

Lemma decode_first_map_header (dec : decoder) (n : Z) (bs : list byte) :
  0 <= n < 2 ^ 32 -> decode_first dec (map_header n ++ bs) = decode_map dec n bs.
Proof.
  intros Hn. apply decode_first_count; try done; try lia.
  intros k Hk. rewrite decode_tag_fixmap by lia. do 2 f_equal. lia.
Qed.

(** ** Round trip of containers *)

Lemma length_encode (o : obj) : (1 <= length (encode o))%nat.
Proof.
  destruct o as [| [] | | | | | |]; cbn [encode];
    unfold enc_int, enc_uint, enc_nint, enc_str, str_header, arr_header, map_header, count_header;
    repeat case_match; cbn [length app]; rewrite ?length_app; cbn [length]; lia.
Qed.

Lemma length_concat_map_in {A : Type} (f : A -> list byte) (x : A) (l : list A) :
  In x l -> (length (f x) <= length (concat (map f l)))%nat.
Proof.
  induction l as [|y l IH]; simpl; [done|]. rewrite length_app.
  intros [-> | Hin]; [lia|]. specialize (IH Hin). lia.
Qed.

Lemma length_concat_map_ge {A : Type} (f : A -> list byte) (l : list A) :
  (forall x, (1 <= length (f x))%nat) -> (length l <= length (concat (map f l)))%nat.
Proof.
  intros Hf. induction l as [|y l IH]; simpl; [lia|]. rewrite length_app. specialize (Hf y). lia.
Qed.

Lemma decode_items_concat (dec : decoder) (xs : list obj) (rest : list byte) :
  Forall (fun x => forall r, dec (encode x ++ r) = Ok (x, r)) xs ->
  decode_items dec (length xs) (concat (map encode xs) ++ rest) = Ok (xs, rest).
Proof.
  induction 1 as [|x xs Hx _ IH]; [done|]. cbn [length map concat decode_items].
  rewrite <- app_assoc, Hx. cbn [rbind]. by rewrite IH.
Qed.

Lemma decode_pairs_concat (dec : decoder) (kvs : list (list byte * obj)) (rest : list byte) :
  Forall (fun kv => (forall r, dec (enc_str kv.1 ++ r) = Ok (OStr kv.1, r))
                    /\ forall r, dec (encode kv.2 ++ r) = Ok (kv.2, r)) kvs ->
  decode_pairs dec (length kvs) (concat (map enc_pair kvs) ++ rest) = Ok (kvs, rest).
Proof.
  induction 1 as [|[k v] kvs [Hk Hv] _ IH]; [done|]. cbn [length map concat decode_pairs enc_pair].
  rewrite <- !app_assoc, Hk. cbn [rbind]. rewrite Hv. cbn [rbind]. by rewrite IH.
Qed.

Lemma length_count_header (a b c n : Z) : (1 <= length (count_header a b c n))%nat.
Proof. unfold count_header. repeat case_match; cbn [length]; lia. Qed.

Lemma decode_arr_items (dec : decoder) (xs : list obj) (rest : list byte) :
  Forall (fun x => forall r, dec (encode x ++ r) = Ok (x, r)) xs ->
  decode_arr dec (Z.of_nat (length xs)) (concat (map encode xs) ++ rest) = Ok (OArr xs, rest).
Proof.
  intros Hxs. unfold decode_arr. rewrite length_app.
  pose proof (length_concat_map_ge encode xs length_encode).
  destruct (Z.ltb_spec (Z.of_nat (length (concat (map encode xs)) + length rest)) (Z.of_nat (length xs)));
    [lia|].
  rewrite Nat2Z.id, decode_items_concat by done. done.
Qed.

Lemma length_enc_pair (kv : list byte * obj) : (1 <= length (enc_pair kv))%nat.
Proof. destruct kv as [k v]. cbn [enc_pair]. rewrite length_app. pose proof (length_encode v). lia. Qed.

Lemma decode_map_pairs (dec : decoder) (kvs : list (list byte * obj)) (rest : list byte) :
  Forall (fun kv => (forall r, dec (enc_str kv.1 ++ r) = Ok (OStr kv.1, r))
                    /\ forall r, dec (encode kv.2 ++ r) = Ok (kv.2, r)) kvs ->
  decode_map dec (Z.of_nat (length kvs)) (concat (map enc_pair kvs) ++ rest) = Ok (OMap kvs, rest).
Proof.
  intros Hkvs. unfold decode_map. rewrite length_app.
  pose proof (length_concat_map_ge enc_pair kvs length_enc_pair).
  destruct (Z.ltb_spec (Z.of_nat (length (concat (map enc_pair kvs)) + length rest))
              (Z.of_nat (length kvs))); [lia|].
  rewrite Nat2Z.id, decode_pairs_concat by done. done.
Qed.

(** Bounds of the elements of a well-formed container, as [Forall]. *)
Lemma wf_arr_elems (xs : list obj) :
  wf_obj (OArr xs) = true -> len_ok xs = true /\ Forall (fun x => wf_obj x = true) xs.
Proof.
  simpl. intros [Hl Hxs]%andb_prop. split; [done|].
  apply Forall_forall. intros x Hx%list_elem_of_In. by apply (proj1 (forallb_forall _ _) Hxs).
Qed.

Lemma wf_map_elems (kvs : list (list byte * obj)) :
  wf_obj (OMap kvs) = true ->
  len_ok kvs = true /\ Forall (fun kv => len_ok kv.1 = true /\ wf_obj kv.2 = true) kvs.
Proof.
  simpl. intros [Hl Hkvs]%andb_prop. split; [done|].
  apply Forall_forall. intros [k v] Hx%list_elem_of_In. apply (proj1 (forallb_forall _ _) Hkvs) in Hx.
  by apply andb_prop in Hx.
Qed.

(** Decoding the encoding of a well-formed value gives the value back and
    leaves the bytes after it, when the fuel covers the encoding. *)
Lemma decode_encode_fuel (o : obj) :
  wf_obj o = true -> forall fuel rest, (length (encode o) <= fuel)%nat ->
  decode fuel (encode o ++ rest) = Ok (o, rest).
Proof.
  induction o as [| b | z | b | b | s | xs IH | kvs IH] using obj_ind';
    intros Hwf fuel rest Hfuel;
    (destruct fuel as [|fuel];
     [match goal with |- decode _ (encode ?o ++ _) = _ => pose proof (length_encode o) end; lia|]);
    cbn [decode].
  - cbn [encode]. step_tag. done.
  - destruct b; cbn [encode]; step_tag; done.
  - by apply decode_first_int.
  - cbn [wf_obj] in Hwf. apply andb_prop in Hwf as [?%Z.leb_le ?%Z.ltb_lt].
    cbn [encode]. step_tag. read_be. by rewrite Z.mod_small by lia.
  - cbn [wf_obj] in Hwf. apply andb_prop in Hwf as [?%Z.leb_le ?%Z.ltb_lt].
    cbn [encode]. step_tag. read_be. by rewrite Z.mod_small by lia.
  - by apply decode_first_str.
  - apply wf_arr_elems in Hwf as [Hl Hxs]. unfold len_ok in Hl. apply Z.ltb_lt in Hl.
    cbn [encode] in *. rewrite length_app in Hfuel.
    pose proof (length_count_header 0x90 0xdc 0xdd (Z.of_nat (length xs))).
    rewrite <- app_assoc, decode_first_arr_header by lia. apply decode_arr_items.
    rewrite Forall_forall in IH, Hxs |- *. intros x Hx r. apply IH; [done | by apply Hxs |].
    pose proof (length_concat_map_in encode x xs (proj1 (list_elem_of_In _ _) Hx)).
    unfold arr_header in *. lia.
  - apply wf_map_elems in Hwf as [Hl Hkvs]. unfold len_ok in Hl. apply Z.ltb_lt in Hl.
    cbn [encode] in *. change (fun kv => match kv with (k, v) => enc_str k ++ encode v end) with enc_pair in *.
    rewrite length_app in Hfuel.
    pose proof (length_count_header 0x80 0xde 0xdf (Z.of_nat (length kvs))).
    rewrite <- app_assoc, decode_first_map_header by lia. apply decode_map_pairs.
    rewrite Forall_forall in IH, Hkvs |- *. intros [k v] Hx.
    pose proof (length_concat_map_in enc_pair (k, v) kvs (proj1 (list_elem_of_In _ _) Hx)) as Hlen.
    cbn [enc_pair] in Hlen. rewrite length_app in Hlen. pose proof (length_encode v).
    destruct (Hkvs _ Hx) as [Hk Hv]. cbn in Hk, Hv |- *. split.
    + intros r. destruct fuel as [|fuel]; [unfold map_header in *; lia|].
      cbn [decode]. by apply decode_first_str.
    + intros r. apply (IH _ Hx); [done|]. cbn. unfold map_header in *. lia.
Qed.

(** ** Fuel: one unit per input byte is enough *)

Lemma take_bytes_len (n : Z) (bs l r : list byte) :
  take_bytes n bs = Ok (l, r) -> (length r <= length bs)%nat.
Proof. intros (-> & _)%take_bytes_Ok. rewrite length_app. lia. Qed.

Lemma decode_be_len (n : Z) (bs r : list byte) (v : Z) :
  decode_be n bs = Ok (v, r) -> (length r <= length bs)%nat.
Proof.
  unfold decode_be. intros H. inv_rbind. destruct a as [l r']. cbn in H. inv_rbind. subst.
  by eapply take_bytes_len.
Qed.

Section Agree.
Variables (m : nat) (dec1 dec2 : decoder).
Hypothesis Hagree : agree m dec1 dec2.
Hypothesis Hng : nogrow dec1.

Lemma decode_items_agree (n : nat) (bs : list byte) :
  (length bs <= m)%nat -> decode_items dec1 n bs = decode_items dec2 n bs.
Proof.
  revert bs; induction n as [|n IH]; intros bs Hbs; [done|]. cbn [decode_items].
  rewrite <- (Hagree bs Hbs). destruct (dec1 bs) as [[o r]|e] eqn:E; [|done]. cbn [rbind].
  rewrite IH; [done|]. apply Hng in E. lia.
Qed.

Lemma decode_pairs_agree (n : nat) (bs : list byte) :
  (length bs <= m)%nat -> decode_pairs dec1 n bs = decode_pairs dec2 n bs.
Proof.
  revert bs; induction n as [|n IH]; intros bs Hbs; [done|]. cbn [decode_pairs].
  rewrite <- (Hagree bs Hbs). destruct (dec1 bs) as [[o r]|e] eqn:E; [|done]. cbn [rbind].
  apply Hng in E. destruct o; try done.
  rewrite <- (Hagree r) by lia. destruct (dec1 r) as [[v r']|e] eqn:E'; [|done]. cbn [rbind].
  apply Hng in E'. rewrite IH; [done|lia].
Qed.

Lemma decode_tag_agree (t : Z) (bs : list byte) :
  (length bs <= m)%nat -> decode_tag dec1 t bs = decode_tag dec2 t bs.
Proof.
  intros Hbs.
  assert (Harr : forall n bs', (length bs' <= m)%nat -> decode_arr dec1 n bs' = decode_arr dec2 n bs').
  { intros n bs' H. unfold decode_arr. by rewrite decode_items_agree. }
  assert (Hmap : forall n bs', (length bs' <= m)%nat -> decode_map dec1 n bs' = decode_map dec2 n bs').
  { intros n bs' H. unfold decode_map. by rewrite decode_pairs_agree. }
  assert (Hlen : forall k (c1 c2 : Z -> list byte -> result (obj * list byte)),
             (forall n bs', (length bs' <= m)%nat -> c1 n bs' = c2 n bs') ->
             decode_with_len k c1 bs = decode_with_len k c2 bs).
  { intros k c1 c2 Hc. unfold decode_with_len.
    destruct (decode_be k bs) as [[v r]|e] eqn:E; [|done]. cbn [rbind].
    apply decode_be_len in E. apply Hc. lia. }
  unfold decode_tag. repeat case_match; auto.
Qed.
End Agree.

Lemma decode_tag_nogrow (dec : decoder) (t : Z) (bs r : list byte) (o : obj) :
  nogrow dec -> decode_tag dec t bs = Ok (o, r) -> (length r <= length bs)%nat.
Proof.
  intros Hng.
  assert (Hitems : forall n bs' os r', decode_items dec n bs' = Ok (os, r') -> (length r' <= length bs')%nat).
  { induction n as [|n IH]; intros bs' os r' H; cbn [decode_items] in H; [by inv_rbind; subst|].
    inv_rbind. destruct a as [o1 r1]. cbn in H. inv_rbind. destruct a as [os1 r2]. cbn in H. inv_rbind.
    subst. apply Hng in Hr. apply IH in Hr0. lia. }
  assert (Hpairs : forall n bs' kvs r', decode_pairs dec n bs' = Ok (kvs, r') -> (length r' <= length bs')%nat).
  { induction n as [|n IH]; intros bs' kvs r' H; cbn [decode_pairs] in H; [by inv_rbind; subst|].
    inv_rbind. destruct a as [k r1]. cbn in H. destruct k; try discriminate. inv_rbind.
    destruct a as [v r2]. cbn in H. inv_rbind. destruct a as [kvs1 r3]. cbn in H. inv_rbind.
    subst. apply Hng in Hr, Hr0. apply IH in Hr1. lia. }
  assert (Hstr : forall n bs' o' r', decode_str n bs' = Ok (o', r') -> (length r' <= length bs')%nat).
  { unfold decode_str. intros n bs' o' r' H. inv_rbind. destruct a as [l r1]. cbn in H. inv_rbind.
    subst. by eapply take_bytes_len. }
  assert (Harr : forall n bs' o' r', decode_arr dec n bs' = Ok (o', r') -> (length r' <= length bs')%nat).
  { unfold decode_arr. intros n bs' o' r' H. case_match; [discriminate|].
    inv_rbind. destruct a as [os r1]. cbn in H. inv_rbind. subst. by eapply Hitems. }
  assert (Hmap : forall n bs' o' r', decode_map dec n bs' = Ok (o', r') -> (length r' <= length bs')%nat).
  { unfold decode_map. intros n bs' o' r' H. case_match; [discriminate|].
    inv_rbind. destruct a as [kvs r1]. cbn in H. inv_rbind. subst. by eapply Hpairs. }
  assert (Hlen : forall k (c : Z -> list byte -> result (obj * list byte)),
             (forall n bs' o' r', c n bs' = Ok (o', r') -> (length r' <= length bs')%nat) ->
             decode_with_len k c bs = Ok (o, r) -> (length r <= length bs)%nat).
  { unfold decode_with_len. intros k c Hc H. inv_rbind. destruct a as [v r1]. cbn in H.
    apply decode_be_len in Hr. apply Hc in H. lia. }
  unfold decode_tag. intros Hd. repeat case_match; inv_rbind; subst;
    try (destruct a as [v r1]; cbn in Hd; inv_rbind; subst; by eapply decode_be_len); eauto.
Qed.

Lemma decode_nogrow (fuel : nat) : nogrow (decode fuel).
Proof.
  induction fuel as [|fuel IH]; intros bs o r H; cbn [decode] in H; [discriminate|].
  destruct bs as [|t bs]; [discriminate|]. cbn [decode_first] in H.
  apply decode_tag_nogrow in H; [cbn [length]; lia | done].
Qed.

(** Termination of the decoder: any fuel above the input length gives the
    result of [decode_value]; the decoder never stops for lack of fuel. *)
Lemma decode_fuel_agree (n : nat) :
  forall f1 f2, (n < f1)%nat -> (n < f2)%nat -> agree n (decode f1) (decode f2).
Proof.
  induction n as [|n IH]; intros f1 f2 H1 H2 bs Hbs;
    (destruct f1 as [|f1]; [lia|]); (destruct f2 as [|f2]; [lia|]); cbn [decode].
  - by destruct bs; [|cbn in Hbs; lia].
  - destruct bs as [|t bs]; [done|]. cbn [decode_first length] in *.
    apply (decode_tag_agree n); [apply IH; lia | apply decode_nogrow | lia].
Qed.

(** ** Main theorems of the value encoding *)

(** The value decoder terminates: every fuel above the input length
    gives the result of [decode_value], which is therefore a total function
    of the input and never fails for lack of fuel. *)
Lemma decode_fuel_enough (fuel : nat) (bs : list byte) :
  (length bs < fuel)%nat -> decode fuel bs = decode_value bs.
Proof.
  intros H. unfold decode_value. apply (decode_fuel_agree (length bs)); lia.
Qed.

(** Round trip of the value encoding: decoding the encoding of a
    well-formed value, followed by any bytes, gives the value back and
    stops exactly at the end of its encoding. *)
Lemma decode_encode_value (o : obj) (rest : list byte) :
  wf_obj o = true -> decode_value (encode o ++ rest) = Ok (o, rest).
Proof. intros Hwf. apply decode_encode_fuel; [done|]. rewrite length_app. lia. Qed.



(** ** Witnesses *)

Lemma decode_fuel_enough_witness :
  (length (encode (OInt 300)) < 4)%nat /\ decode 4 (encode (OInt 300)) = decode_value (encode (OInt 300)).
Proof.
  assert (H : (length (encode (OInt 300)) < 4)%nat) by (apply Nat.ltb_lt; vm_compute; reflexivity).
  split; [exact H|]. exact (decode_fuel_enough 4 (encode (OInt 300)) H).
Defined.



End Msgpack.
