(* ===== verification/Types.v ===== *)
(** * Typed values and shape descriptors (spec sections 3, 4.1, 4.4, 9)

    The Go side of the codec: the types a packet id can be registered with
    ([gtype], the shape descriptors of the spec: primitives, fixed-size
    arrays, slices, string-keyed maps, records and the empty interface, with
    named types), the values the application hands to the encoder
    ([gval], each composite value carrying its full type as Go's reflection
    does), the conversion of a value to the wire model ([to_obj]) and the
    typed decoding of a wire value against a registered type ([of_obj]),
    which binds records by field name.  Modelled from the spec: the packet
    package itself is not among the sources. *)

From stdpp Require Import base list strings sets.
From Stdlib Require Import ZArith Lia Strings.Byte.
From S2P Require Import Prelude Msgpack.

Local Open Scope Z_scope.
Local Open Scope codec_scope.
Import Msgpack.

Module Types.

(** ** Types *)

(** Go's integer kinds; [int] and [uint] are 64 bits wide. *)
Inductive ikind : Type :=
| KInt | KInt8 | KInt16 | KInt32 | KInt64
| KUint | KUint8 | KUint16 | KUint32 | KUint64.

#[export] Instance ikind_eq_dec : EqDecision ikind.
Proof. solve_decision. Defined.

(** The range of a kind, as its least value and its bound (excluded). *)
Definition ikind_range (k : ikind) : Z * Z :=
  match k with
  | KInt | KInt64 => (- 2 ^ 63, 2 ^ 63)
  | KInt8 => (-128, 128)
  | KInt16 => (-32768, 32768)
  | KInt32 => (- 2 ^ 31, 2 ^ 31)
  | KUint | KUint64 => (0, 2 ^ 64)
  | KUint8 => (0, 256)
  | KUint16 => (0, 65536)
  | KUint32 => (0, 2 ^ 32)
  end.

Definition in_range (k : ikind) (z : Z) : bool :=
  (fst (ikind_range k) <=? z) && (z <? snd (ikind_range k)).

(** Shape descriptors: the Go types a packet can have. *)
Inductive gtype : Type :=
| TBool
| TInt (k : ikind)
| TFloat32
| TFloat64
| TString
| TArray (n : nat) (t : gtype)
| TSlice (t : gtype)
| TMap (t : gtype)
| TStruct (fields : list (string * gtype))
| TNamed (name : string) (t : gtype)
| TIface.

(** The structure under the names. *)
Fixpoint underlying (t : gtype) : gtype :=
  match t with
  | TNamed _ u => underlying u
  | _ => t
  end.

(** ** Values *)

(** A Go value.  [GNil] is the nil interface; composite values carry their
    full (possibly named) type, the way [reflect.TypeOf] sees them. *)
Inductive gval : Type :=
| GNil
| GBool (b : bool)
| GInt (k : ikind) (z : Z)
| GFloat32 (bits : Z)
| GFloat64 (bits : Z)
| GString (s : string)
| GArray (ty : gtype) (vs : list gval)
| GMap (ty : gtype) (kvs : list (string * gval))
| GStruct (ty : gtype) (vs : list gval).

Section GvalInd.
Variable P : gval -> Prop.
Hypothesis HNil : P GNil.
Hypothesis HBool : forall b, P (GBool b).
Hypothesis HInt : forall k z, P (GInt k z).
Hypothesis HF32 : forall b, P (GFloat32 b).
Hypothesis HF64 : forall b, P (GFloat64 b).
Hypothesis HString : forall s, P (GString s).
Hypothesis HArray : forall ty vs, Forall P vs -> P (GArray ty vs).
Hypothesis HMap : forall ty kvs, Forall (fun kv => P kv.2) kvs -> P (GMap ty kvs).
Hypothesis HStruct : forall ty vs, Forall P vs -> P (GStruct ty vs).

Fixpoint gval_ind' (v : gval) : P v :=
  let fix go (l : list gval) : Forall P l :=
    match l with
    | [] => Forall_nil_2 P
    | x :: l' => Forall_cons_2 P x l' (gval_ind' x) (go l')
    end in
  match v with
  | GNil => HNil
  | GBool b => HBool b
  | GInt k z => HInt k z
  | GFloat32 b => HF32 b
  | GFloat64 b => HF64 b
  | GString s => HString s
  | GArray ty vs => HArray ty vs (go vs)
  | GMap ty kvs =>
      HMap ty kvs ((fix gom (l : list (string * gval)) : Forall (fun kv => P kv.2) l :=
                      match l with
                      | [] => Forall_nil_2 _
                      | (k, x) :: l' => Forall_cons_2 (fun kv => P kv.2) (k, x) l' (gval_ind' x) (gom l')
                      end) kvs)
  | GStruct ty vs => HStruct ty vs (go vs)
  end.
End GvalInd.

(** The dynamic type of a value ([reflect.TypeOf]); the nil interface
    has none. *)
Definition type_of (v : gval) : option gtype :=
  match v with
  | GNil => None
  | GBool _ => Some TBool
  | GInt k _ => Some (TInt k)
  | GFloat32 _ => Some TFloat32
  | GFloat64 _ => Some TFloat64
  | GString _ => Some TString
  | GArray ty _ | GMap ty _ | GStruct ty _ => Some ty
  end.

(** Field names of a record type. *)
Definition struct_fields (ty : gtype) : list (string * gtype) :=
  match underlying ty with
  | TStruct fs => fs
  | _ => []
  end.

(** ** To the wire *)

Definition str_bytes (s : string) : list byte := String.list_byte_of_string s.

(** The wire value of a Go value: records travel as maps from field names
    to field values, in declaration order. *)
Fixpoint to_obj (v : gval) : obj :=
  match v with
  | GNil => ONil
  | GBool b => OBool b
  | GInt _ z => OInt z
  | GFloat32 b => OFloat32 b
  | GFloat64 b => OFloat64 b
  | GString s => OStr (str_bytes s)
  | GArray _ vs => OArr (map to_obj vs)
  | GMap _ kvs => OMap (map (fun kv => match kv with (k, x) => (str_bytes k, to_obj x) end) kvs)
  | GStruct ty vs => OMap (zip (map (fun f => str_bytes f.1) (struct_fields ty)) (map to_obj vs))
  end.

(** ** Type equality *)

Section GtypeInd.
Variable P : gtype -> Prop.
Hypothesis HBool : P TBool.
Hypothesis HInt : forall k, P (TInt k).
Hypothesis HF32 : P TFloat32.
Hypothesis HF64 : P TFloat64.
Hypothesis HString : P TString.
Hypothesis HArray : forall n t, P t -> P (TArray n t).
Hypothesis HSlice : forall t, P t -> P (TSlice t).
Hypothesis HMap : forall t, P t -> P (TMap t).
Hypothesis HStruct : forall fs, Forall (fun f => P f.2) fs -> P (TStruct fs).
Hypothesis HNamed : forall n t, P t -> P (TNamed n t).
Hypothesis HIface : P TIface.

Fixpoint gtype_ind' (t : gtype) : P t :=
  match t with
  | TBool => HBool
  | TInt k => HInt k
  | TFloat32 => HF32
  | TFloat64 => HF64
  | TString => HString
  | TArray n u => HArray n u (gtype_ind' u)
  | TSlice u => HSlice u (gtype_ind' u)
  | TMap u => HMap u (gtype_ind' u)
  | TStruct fs =>
      HStruct fs ((fix go (l : list (string * gtype)) : Forall (fun f => P f.2) l :=
                     match l with
                     | [] => Forall_nil_2 _
                     | (n, u) :: l' => Forall_cons_2 (fun f => P f.2) (n, u) l' (gtype_ind' u) (go l')
                     end) fs)
  | TNamed n u => HNamed n u (gtype_ind' u)
  | TIface => HIface
  end.
End GtypeInd.

Fixpoint gtype_eqb (a b : gtype) : bool :=
  match a, b with
  | TBool, TBool | TFloat32, TFloat32 | TFloat64, TFloat64 | TString, TString
  | TIface, TIface => true
  | TInt k, TInt k' => bool_decide (k = k')
  | TArray n t, TArray n' t' => Nat.eqb n n' && gtype_eqb t t'
  | TSlice t, TSlice t' | TMap t, TMap t' => gtype_eqb t t'
  | TStruct fs, TStruct fs' =>
      (fix go (l l' : list (string * gtype)) : bool :=
         match l, l' with
         | [], [] => true
         | (f, t) :: l, (f', t') :: l' => String.eqb f f' && gtype_eqb t t' && go l l'
         | _, _ => false
         end) fs fs'
  | TNamed n t, TNamed n' t' => String.eqb n n' && gtype_eqb t t'
  | _, _ => false
  end.

Lemma gtype_eqb_eq (a b : gtype) : gtype_eqb a b = true <-> a = b.
Proof.
  revert b. induction a as [| k | | | | n t IH | t IH | t IH | fs IH | n t IH |] using gtype_ind';
    intros []; cbn [gtype_eqb]; split; intros H; try done; simplify_eq;
    repeat match goal with
    | H : _ && _ = true |- _ => apply andb_prop in H as [? ?]
    | H : Nat.eqb _ _ = true |- _ => apply Nat.eqb_eq in H
    | H : String.eqb _ _ = true |- _ => apply String.eqb_eq in H
    | H : bool_decide _ = true |- _ => apply bool_decide_eq_true in H
    end; subst;
    rewrite ?andb_true_iff, ?Nat.eqb_eq, ?String.eqb_eq, ?bool_decide_eq_true; try naive_solver.
  - (* records *)
    match goal with |- TStruct _ = TStruct ?l' => revert l' H end. induction IH as [|[f t] fs Ht _ IHfs]; intros [|[f' t'] fs'] H; try done.
    cbn in H. apply andb_prop in H as [[Hf Htt]%andb_prop Hrest]. apply String.eqb_eq in Hf.
    apply Ht in Htt. injection (IHfs fs' Hrest) as <-. by subst.
  - match goal with |- _ ?l ?l = true => revert IH; induction l as [|[f t] fs IHfs] end;
      intros IH; [done|]. inversion IH as [|? ? Ht Hfs]; subst.
    cbn in Ht. rewrite String.eqb_refl, (proj2 (Ht t) eq_refl). cbn. by apply IHfs.
Qed.

#[export] Instance gtype_eq_dec : EqDecision gtype.
Proof.
  intros a b. destruct (gtype_eqb a b) eqn:E.
  - left. by apply gtype_eqb_eq.
  - right. intros H%gtype_eqb_eq. congruence.
Defined.

(** ** Deep equality *)

(** A float given by its IEEE-754 bits, [ew] exponent and [mw] mantissa
    bits wide, is a NaN: all exponent bits set, a non-zero mantissa. *)
Definition float_is_nan (ew mw b : Z) : bool :=
  Z.eqb (Z.land (Z.shiftr b mw) (Z.ones ew)) (Z.ones ew) && negb (Z.eqb (Z.land b (Z.ones mw)) 0).

(** It is +0 or -0: every bit but the sign is clear. *)
Definition float_is_zero (ew mw b : Z) : bool := Z.eqb (Z.land b (Z.ones (ew + mw))) 0.

(** Go's [==] on two floats given by their bits: a NaN equals nothing, not
    even itself, and +0 equals -0; otherwise the bits are equal. *)
Definition float_eqb (ew mw x y : Z) : bool :=
  negb (float_is_nan ew mw x) && negb (float_is_nan ew mw y)
  && (Z.eqb x y || float_is_zero ew mw x && float_is_zero ew mw y).

(** [reflect.DeepEqual]: same types, and equal elements, floats compared
    with [==]; maps are equal
    when they have as many entries and every key of the first maps to a
    deeply equal value in the second, whatever the order. *)
Fixpoint deep_equal (a b : gval) {struct a} : bool :=
  match a, b with
  | GNil, GNil => true
  | GBool x, GBool y => Bool.eqb x y
  | GInt k x, GInt k' y => bool_decide (k = k') && Z.eqb x y
  | GFloat32 x, GFloat32 y => float_eqb 8 23 x y
  | GFloat64 x, GFloat64 y => float_eqb 11 52 x y
  | GString x, GString y => String.eqb x y
  | GArray ty xs, GArray ty' ys | GStruct ty xs, GStruct ty' ys =>
      gtype_eqb ty ty' && forall2b deep_equal xs ys
  | GMap ty kvs, GMap ty' kvs' =>
      gtype_eqb ty ty' && Nat.eqb (length kvs) (length kvs')
      && forallb (fun kv => match kv with
                            | (k, x) => match assoc_lookup k kvs' with
                                        | Some y => deep_equal x y
                                        | None => false
                                        end
                            end) kvs
  | _, _ => false
  end.

(** No float inside the value is a NaN. *)
Fixpoint nan_free (v : gval) : bool :=
  match v with
  | GFloat32 b => negb (float_is_nan 8 23 b)
  | GFloat64 b => negb (float_is_nan 11 52 b)
  | GArray _ vs | GStruct _ vs => forallb nan_free vs
  | GMap _ kvs => forallb (fun kv => match kv with (_, x) => nan_free x end) kvs
  | _ => true
  end.

(** The field [f] of a record value ([v.F] in Go). *)
Definition field (v : gval) (f : string) : option gval :=
  match v with
  | GStruct ty vs => assoc_lookup f (zip (struct_fields ty).*1 vs)
  | _ => None
  end.

(** ** From the wire *)

Definition bytes_str (bs : list byte) : string := String.string_of_list_byte bs.

(** Assign the entries of a wire map in order: a repeated key keeps the
    last value, as assignment into a Go map does. *)
Definition assign_all {V : Type} (kvs : list (string * V)) : list (string * V) :=
  fold_left (fun m kv => assoc_insert kv.1 kv.2 m) kvs [].

(** A wire value decoded into an empty interface: integers become int64
    (uint64 above its range), sequences [[]interface{}], mappings
    [map[string]interface{}]. *)
Fixpoint decode_dyn (o : obj) : gval :=
  match o with
  | ONil => GNil
  | OBool b => GBool b
  | OInt z => if z <? 2 ^ 63 then GInt KInt64 z else GInt KUint64 z
  | OFloat32 b => GFloat32 b
  | OFloat64 b => GFloat64 b
  | OStr s => GString (bytes_str s)
  | OArr xs => GArray (TSlice TIface) (map decode_dyn xs)
  | OMap kvs =>
      GMap (TMap TIface)
        (assign_all (map (fun kv => match kv with (k, x) => (bytes_str k, decode_dyn x) end) kvs))
  end.

(** Bind the fields [l] of a record, in declaration order, from the
    decoded mapping [m]; [dec] decodes a field's wire value at its type. *)
Fixpoint bind_fields (dec : gtype -> obj -> result gval) (m : list (string * obj))
  (l : list (string * gtype)) : result (list gval) :=
  match l with
  | [] => Ok []
  | (f, t) :: l' =>
      match assoc_lookup f m with
      | None => Err (MissingField f)
      | Some x => let* v := dec t x in let* vs := bind_fields dec m l' in Ok (v :: vs)
      end
  end.

(** The typed decoder: [of_obj_u full u o] decodes [o] as a value of type
    [full], whose structure below the names is [u].  Records are bound by
    field name from the decoded mapping; a field absent from it is
    [MissingField]; an integer outside its kind is [Overflow]; a wire value
    of another kind is [ShapeMismatch]. *)
Fixpoint of_obj_u (full u : gtype) (o : obj) {struct u} : result gval :=
  match u, o with
  | TIface, _ => Ok (decode_dyn o)
  | TBool, OBool b => Ok (GBool b)
  | TInt k, OInt z => if in_range k z then Ok (GInt k z) else Err Overflow
  | TFloat32, OFloat32 b => Ok (GFloat32 b)
  | TFloat64, OFloat64 b => Ok (GFloat64 b)
  | TString, OStr s => Ok (GString (bytes_str s))
  | TArray n t, OArr xs =>
      if Nat.eqb (length xs) n then let* vs := mapM (of_obj_u t t) xs in Ok (GArray full vs)
      else Err ShapeMismatch
  | TSlice t, OArr xs => let* vs := mapM (of_obj_u t t) xs in Ok (GArray full vs)
  | TMap t, OMap kvs =>
      let* kvs' := mapM (fun kv => match kv with
                                   | (k, x) => let* v := of_obj_u t t x in Ok (bytes_str k, v)
                                   end) kvs in
      Ok (GMap full (assign_all kvs'))
  | TStruct fs, OMap kvs =>
      let m := assign_all (map (fun kv => match kv with (k, x) => (bytes_str k, x) end) kvs) in
      let* vs := bind_fields (fun t => of_obj_u t t) m fs in
      Ok (GStruct full vs)
  | TNamed _ u', _ => of_obj_u full u' o
  | _, _ => Err ShapeMismatch
  end.

Definition of_obj (ty : gtype) (o : obj) : result gval := of_obj_u ty ty o.

(** ** Shapes *)

Definition bits_ok (w b : Z) : bool := (0 <=? b) && (b <? 2 ^ w).

Definition keys_nodup {V : Type} (kvs : list (string * V)) : bool := bool_decide (NoDup kvs.*1).

(** The values an interface can hold and give back unchanged: the forms
    [decode_dyn] produces. *)
Fixpoint dyn_ok (v : gval) : bool :=
  match v with
  | GNil | GBool _ => true
  | GInt KInt64 z => (- 2 ^ 63 <=? z) && (z <? 2 ^ 63)
  | GInt KUint64 z => (2 ^ 63 <=? z) && (z <? 2 ^ 64)
  | GInt _ _ => false
  | GFloat32 b => bits_ok 32 b
  | GFloat64 b => bits_ok 64 b
  | GString s => len_ok (str_bytes s)
  | GArray ty vs => bool_decide (ty = TSlice TIface) && len_ok vs && forallb dyn_ok vs
  | GMap ty kvs =>
      bool_decide (ty = TMap TIface) && len_ok kvs && keys_nodup kvs
      && forallb (fun kv => match kv with (k, x) => len_ok (str_bytes k) && dyn_ok x end) kvs
  | GStruct _ _ => false
  end.

Definition is_iface (ty : gtype) : bool := bool_decide (underlying ty = TIface).

(** Each field value conforms to its field's type, field names fit a
    string header. *)
Fixpoint fields_conform (c : gval -> gtype -> bool) (vs : list gval) (fs : list (string * gtype)) : bool :=
  match vs, fs with
  | [], [] => true
  | x :: vs', (f, t) :: fs' => len_ok (str_bytes f) && c x t && fields_conform c vs' fs'
  | _, _ => false
  end.

(** [conforms v ty]: the runtime shape of [v] matches the shape
    descriptor [ty] (spec 4.4: field names and count for records, element
    shape for arrays), and [v] fits the wire format's bounds. *)
Fixpoint conforms (v : gval) (ty : gtype) {struct v} : bool :=
  if is_iface ty then dyn_ok v else
  match v, underlying ty with
  | GBool _, TBool => true
  | GInt k z, TInt k' => bool_decide (k = k') && in_range k z
  | GFloat32 b, TFloat32 => bits_ok 32 b
  | GFloat64 b, TFloat64 => bits_ok 64 b
  | GString s, TString => len_ok (str_bytes s)
  | GArray ty' vs, TArray n t =>
      bool_decide (ty' = ty) && Nat.eqb (length vs) n && len_ok vs && forallb (fun x => conforms x t) vs
  | GArray ty' vs, TSlice t =>
      bool_decide (ty' = ty) && len_ok vs && forallb (fun x => conforms x t) vs
  | GMap ty' kvs, TMap t =>
      bool_decide (ty' = ty) && len_ok kvs && keys_nodup kvs
      && forallb (fun kv => match kv with (k, x) => len_ok (str_bytes k) && conforms x t end) kvs
  | GStruct ty' vs, TStruct fs =>
      bool_decide (ty' = ty) && len_ok fs && keys_nodup fs
      && fields_conform conforms vs fs
  | _, _ => false
  end.

(** ** Zero values and well-formed types *)

(** The zero value of a type ([reflect.Zero]).  Nil slices and maps are
    modelled as empty ones. *)
Fixpoint zero_u (full u : gtype) : gval :=
  match u with
  | TBool => GBool false
  | TInt k => GInt k 0
  | TFloat32 => GFloat32 0
  | TFloat64 => GFloat64 0
  | TString => GString ""
  | TArray n t => GArray full (replicate n (zero_u t t))
  | TSlice _ => GArray full []
  | TMap _ => GMap full []
  | TStruct fs => GStruct full (map (fun f => match f with (_, t) => zero_u t t end) fs)
  | TNamed _ u' => zero_u full u'
  | TIface => GNil
  end.

Definition zero (ty : gtype) : gval := zero_u ty ty.

Definition composite (t : gtype) : bool :=
  match t with
  | TArray _ _ | TSlice _ | TMap _ | TStruct _ => true
  | _ => false
  end.

(** Types the registry can hold: names only over composite types, record
    field names distinct, sizes within the wire's 32-bit length fields. *)
Fixpoint wf_type (t : gtype) : bool :=
  match t with
  | TArray n u => (Z.of_nat n <? 2 ^ 32) && wf_type u
  | TSlice u | TMap u => wf_type u
  | TStruct fs =>
      len_ok fs && keys_nodup fs
      && forallb (fun f => match f with (n, u) => len_ok (str_bytes n) && wf_type u end) fs
  | TNamed _ u => composite (underlying u) && wf_type u
  | _ => true
  end.

(** ** Round trip of typed values *)

Lemma bytes_str_bytes (s : string) : bytes_str (str_bytes s) = s.
Proof. apply String.string_of_list_byte_of_string. Qed.

Lemma assign_all_nodup {V : Type} (kvs : list (string * V)) : NoDup kvs.*1 -> assign_all kvs = kvs.
Proof. intros H. unfold assign_all. by rewrite fold_assoc_insert. Qed.

Lemma keys_nodup_NoDup {V : Type} (kvs : list (string * V)) : keys_nodup kvs = true -> NoDup kvs.*1.
Proof. unfold keys_nodup. by rewrite bool_decide_eq_true. Qed.

(** The wire keys of a map, read back as strings. *)
Lemma map_keys_roundtrip {V W : Type} (f : V -> W) (g : W -> V) (kvs : list (string * V)) :
  Forall (fun kv => g (f kv.2) = kv.2) kvs ->
  map (fun kv => match kv with (k, x) => (bytes_str k, g x) end)
      (map (fun kv => match kv with (k, x) => (str_bytes k, f x) end) kvs) = kvs.
Proof.
  induction 1 as [|[k x] kvs Hx _ IH]; [done|]. cbn in *. by rewrite bytes_str_bytes, Hx, IH.
Qed.

Lemma decode_dyn_to_obj (v : gval) : dyn_ok v = true -> decode_dyn (to_obj v) = v.
Proof.
  induction v as [| b | k z | b | b | s | ty vs IH | ty kvs IH | ty vs IH] using gval_ind';
    cbn [dyn_ok]; intros Hv; cbn [to_obj decode_dyn]; try done.
  - destruct k; try discriminate; apply andb_prop in Hv as [?%Z.leb_le ?%Z.ltb_lt]; zcases; done.
  - by rewrite bytes_str_bytes.
  - apply andb_prop in Hv as [[->%bool_decide_eq_true _]%andb_prop Hvs].
    f_equal. rewrite map_map. rewrite <- (map_id vs) at 2. apply map_ext_Forall.
    by eapply Forall_forallb_impl.
  - apply andb_prop in Hv as [[[->%bool_decide_eq_true _]%andb_prop Hnd%keys_nodup_NoDup]%andb_prop Hkvs].
    f_equal. rewrite map_keys_roundtrip; [by apply assign_all_nodup|].
    eapply Forall_forallb_impl; [|exact Hkvs]. eapply Forall_impl; [exact IH|].
    intros [k x] Hx Hb. apply andb_prop in Hb as [_ Hb]. by apply Hx.
Qed.

Lemma of_obj_u_underlying (full u : gtype) (o : obj) :
  of_obj_u full u o = of_obj_u full (underlying u) o.
Proof. induction u using gtype_ind'; cbn [underlying of_obj_u]; done. Qed.

Lemma zip_keys_roundtrip (fs : list (string * gtype)) (os : list obj) :
  map (fun kv => match kv with (k, x) => (bytes_str k, x) end)
      (zip (map (fun f => str_bytes f.1) fs) os) = zip fs.*1 os.
Proof.
  revert os; induction fs as [|[f t] fs IH]; intros [|o os]; try done. cbn [map zip fst snd fmap list_fmap]. by rewrite bytes_str_bytes, IH.
Qed.

Lemma bind_fields_zip (dec : gtype -> obj -> result gval) (pre : list (string * obj))
  (vs : list gval) (fs : list (string * gtype)) :
  Forall2 (fun v ft => dec ft.2 (to_obj v) = Ok v) vs fs ->
  NoDup (pre.*1 ++ fs.*1) ->
  bind_fields dec (pre ++ zip fs.*1 (map to_obj vs)) fs = Ok vs.
Proof.
  intros H. revert pre. induction H as [|v [f t] vs fs Hv _ IH]; intros pre Hnd; [done|].
  cbn [bind_fields fmap list_fmap map zip fst snd] in *.
  rewrite assoc_lookup_app_fresh.
  - cbn [assoc_lookup]. rewrite String.eqb_refl, Hv, rbind_Ok.
    replace (pre ++ (f, to_obj v) :: zip fs.*1 (map to_obj vs))
      with ((pre ++ [(f, to_obj v)]) ++ zip fs.*1 (map to_obj vs)) by by rewrite <- app_assoc.
    rewrite IH; [done|]. by rewrite fmap_app, <- app_assoc.
  - apply NoDup_app in Hnd as (_ & Hdis & _). intros Hin. apply (Hdis f Hin). set_solver.
Qed.

Lemma bind_fields_zip_nil (dec : gtype -> obj -> result gval) (vs : list gval) (fs : list (string * gtype)) :
  Forall2 (fun v ft => dec ft.2 (to_obj v) = Ok v) vs fs -> NoDup fs.*1 ->
  bind_fields dec (zip fs.*1 (map to_obj vs)) fs = Ok vs.
Proof. intros. by apply (bind_fields_zip dec []). Qed.

Lemma fields_conform_Forall2 (vs : list gval) (fs : list (string * gtype)) :
  Forall (fun v => forall ty, conforms v ty = true -> of_obj ty (to_obj v) = Ok v) vs ->
  fields_conform conforms vs fs = true ->
  Forall2 (fun v ft => of_obj_u ft.2 ft.2 (to_obj v) = Ok v) vs fs.
Proof.
  revert fs. induction vs as [|v vs IHvs]; intros [|[f t] fs] IH H; try done.
  cbn [fields_conform] in H. apply andb_prop in H as [[_ Hv]%andb_prop Hrest].
  inversion IH as [|? ? Hv' Hvs']; subst. constructor; [by apply Hv'|]. by apply IHvs.
Qed.

Lemma fst_zip_eq {A B : Type} (l1 : list A) (l2 : list B) :
  length l1 = length l2 -> (zip l1 l2).*1 = l1.
Proof. revert l2; induction l1 as [|x l1 IH]; intros [|y l2] H; try done. cbn in *. rewrite IH; [done|lia]. Qed.

Lemma fields_conform_length (c : gval -> gtype -> bool) (vs : list gval) (fs : list (string * gtype)) :
  fields_conform c vs fs = true -> length vs = length fs.
Proof.
  revert fs; induction vs as [|v vs IH]; intros [|[f t] fs] H; try done.
  cbn in *. apply andb_prop in H as [_ H]. by rewrite (IH fs H).
Qed.

(** Typed round trip: a value that conforms to the registered shape
    descriptor is decoded from its wire form back to itself, records bound
    by field name, maps entry by entry, arrays element by element. *)
Lemma of_obj_roundtrip (v : gval) (ty : gtype) :
  conforms v ty = true -> of_obj ty (to_obj v) = Ok v.
Proof.
  revert ty.
  induction v as [| b | k z | b | b | s | ty' vs IH | ty' kvs IH | ty' vs IH] using gval_ind';
    intros ty Hc; unfold of_obj; rewrite of_obj_u_underlying; cbn [conforms] in Hc;
    (destruct (is_iface ty) eqn:Hi;
     [ unfold is_iface in Hi; apply bool_decide_eq_true in Hi; rewrite Hi; cbn [of_obj_u];
       f_equal; by apply decode_dyn_to_obj
     | destruct (underlying ty) eqn:Hu; try discriminate; cbn [to_obj of_obj_u] ]).
  - done.
  - apply andb_prop in Hc as [->%bool_decide_eq_true Hr]. by rewrite Hr.
  - done.
  - done.
  - by rewrite bytes_str_bytes.
  - apply andb_prop in Hc as [[[->%bool_decide_eq_true Hn]%andb_prop _]%andb_prop Hvs].
    rewrite length_map, Hn, mapM_map_Ok; [done|].
    eapply Forall_forallb_impl; [|exact Hvs]. eapply Forall_impl; [exact IH|]. naive_solver.
  - apply andb_prop in Hc as [[->%bool_decide_eq_true _]%andb_prop Hvs].
    rewrite mapM_map_Ok; [done|].
    eapply Forall_forallb_impl; [|exact Hvs]. eapply Forall_impl; [exact IH|]. naive_solver.
  - apply andb_prop in Hc as [[[->%bool_decide_eq_true _]%andb_prop Hnd%keys_nodup_NoDup]%andb_prop Hkvs].
    rewrite mapM_map_Ok; [cbn [rbind]; by rewrite assign_all_nodup|].
    eapply Forall_forallb_impl; [|exact Hkvs]. eapply Forall_impl; [exact IH|].
    intros [k x] Hx Hb. apply andb_prop in Hb as [_ Hb]. cbn in *.
    match goal with Hb : conforms x ?t = true |- _ => pose proof (Hx t Hb) as E end.
    unfold of_obj in E. by rewrite E, rbind_Ok, bytes_str_bytes.
  - apply andb_prop in Hc as [[[->%bool_decide_eq_true _]%andb_prop Hnd%keys_nodup_NoDup]%andb_prop Hfs].
    unfold struct_fields. rewrite Hu, zip_keys_roundtrip, assign_all_nodup.
    + rewrite bind_fields_zip_nil; [done| |done]. by apply fields_conform_Forall2.
    + rewrite fst_zip_eq; [done|]. rewrite length_fmap, List.length_map. symmetry. by eapply fields_conform_length.
Qed.

Lemma in_range_int_ok (k : ikind) (z : Z) : in_range k z = true -> int_ok z = true.
Proof.
  unfold in_range, int_ok. intros [H1%Z.leb_le H2%Z.ltb_lt]%andb_prop.
  apply andb_true_iff; split; [apply Z.leb_le | apply Z.ltb_lt]; destruct k; cbn in *; lia.
Qed.

Lemma len_ok_map {A B : Type} (f : A -> B) (l : list A) : len_ok (map f l) = len_ok l.
Proof. unfold len_ok. by rewrite List.length_map. Qed.

Lemma forallb_map_impl {A B : Type} (P : A -> bool) (Q : B -> bool) (f : A -> B) (l : list A) :
  Forall (fun x => P x = true -> Q (f x) = true) l -> forallb P l = true -> forallb Q (map f l) = true.
Proof.
  intros H1 H2. apply forallb_Forall, Forall_map. eapply Forall_forallb_impl; [exact H1|exact H2].
Qed.

Lemma dyn_ok_wf (v : gval) : dyn_ok v = true -> wf_obj (to_obj v) = true.
Proof.
  induction v as [| b | k z | b | b | s | ty vs IH | ty kvs IH | ty vs IH] using gval_ind';
    cbn [dyn_ok to_obj wf_obj]; intros Hv; try done.
  - unfold int_ok. destruct k; try discriminate; apply andb_prop in Hv as [?%Z.leb_le ?%Z.ltb_lt];
      apply andb_true_iff; (split; [apply Z.leb_le | apply Z.ltb_lt]); lia.
  - apply andb_prop in Hv as [[_ Hl]%andb_prop Hvs]. rewrite len_ok_map, Hl.
    by apply (forallb_map_impl dyn_ok).
  - apply andb_prop in Hv as [[[_ Hl]%andb_prop _]%andb_prop Hkvs]. rewrite len_ok_map, Hl.
    eapply forallb_map_impl; [|exact Hkvs]. eapply Forall_impl; [exact IH|].
    intros [k x] Hx Hb. apply andb_prop in Hb as [Hk Hb]. cbn in *. by rewrite Hk, Hx.
Qed.

(** A conforming value has a well-formed wire form: integers within the
    int64/uint64 range, lengths within the 32-bit length fields. *)
Lemma conforms_wf (v : gval) (ty : gtype) : conforms v ty = true -> wf_obj (to_obj v) = true.
Proof.
  revert ty.
  induction v as [| b | k z | b | b | s | ty' vs IH | ty' kvs IH | ty' vs IH] using gval_ind';
    intros ty Hc; cbn [conforms] in Hc;
    (destruct (is_iface ty); [by apply dyn_ok_wf|]); destruct (underlying ty) eqn:Hu; try discriminate;
    cbn [to_obj wf_obj]; try done.
  - apply andb_prop in Hc as [_ Hr]. by eapply in_range_int_ok.
  - apply andb_prop in Hc as [[_ Hl]%andb_prop Hvs]. rewrite len_ok_map, Hl.
    eapply forallb_map_impl; [|exact Hvs]. eapply Forall_impl; [exact IH|]. naive_solver.
  - apply andb_prop in Hc as [[_ Hl]%andb_prop Hvs]. rewrite len_ok_map, Hl.
    eapply forallb_map_impl; [|exact Hvs]. eapply Forall_impl; [exact IH|]. naive_solver.
  - apply andb_prop in Hc as [[[_ Hl]%andb_prop _]%andb_prop Hkvs]. rewrite len_ok_map, Hl.
    eapply forallb_map_impl; [|exact Hkvs]. eapply Forall_impl; [exact IH|].
    intros [k x] Hx Hb. apply andb_prop in Hb as [Hk Hb]. cbn in *. rewrite Hk. by eapply Hx.
  - apply andb_prop in Hc as [[[->%bool_decide_eq_true Hl]%andb_prop _]%andb_prop Hfs].
    unfold struct_fields. rewrite Hu. apply andb_true_iff. split.
    + unfold len_ok in *. apply Z.ltb_lt in Hl. apply Z.ltb_lt.
      rewrite length_zip, !List.length_map. lia.
    + clear Hl Hu. match goal with Hfs : fields_conform _ _ ?fs = true |- _ => revert fs Hfs end.
      induction IH as [|v vs Hv _ IHvs]; intros [|[f t] fs] Hfs; try done.
      cbn [fields_conform] in Hfs. apply andb_prop in Hfs as [[Hk Hc]%andb_prop Hrest].
      cbn [map zip forallb fst]. rewrite Hk, (Hv _ Hc). cbn. by apply IHvs.
Qed.

Lemma underlying_idem (t : gtype) : underlying (underlying t) = underlying t.
Proof. induction t using gtype_ind'; done. Qed.

Lemma zero_u_conforms (u full : gtype) :
  underlying full = underlying u -> wf_type u = true -> conforms (zero_u full u) full = true.
Proof.
  revert full. induction u as [| k | | | | n t IH | t IH | t IH | fs IH | n t IH |] using gtype_ind';
    intros full Hf Hwf; cbn [zero_u];
    try (cbn [conforms]; unfold is_iface; rewrite Hf; cbn [underlying]; rewrite ?bool_decide_eq_false_2 by done;
         rewrite ?(bool_decide_eq_true_2 (full = full)) by done; try done).
  - rewrite ?bool_decide_eq_true_2 by done. by destruct k.
  - cbn [wf_type] in Hwf. apply andb_prop in Hwf as [Hn Hwf].
    rewrite length_replicate, Nat.eqb_refl. cbn.
    unfold len_ok. rewrite length_replicate, Hn. cbn.
    apply forallb_Forall, Forall_forall. intros x ->%elem_of_replicate_inv. by apply IH.
  - cbn [wf_type] in Hwf. apply andb_prop in Hwf as [[Hl Hnd]%andb_prop Hfs].
    rewrite Hl, Hnd. cbn [andb].
    clear Hl Hnd Hf. revert Hfs. induction IH as [|[f t] fs Ht _ IHfs]; intros Hfs; [done|].
    cbn in Hfs, Ht |- *. apply andb_prop in Hfs as [[Hk Ht']%andb_prop Hfs].
    rewrite Hk, Ht, IHfs; done.
  - cbn [wf_type] in Hwf. apply andb_prop in Hwf as [_ Hwf]. apply IH; [|done]. by rewrite Hf.
Qed.

(** The zero value of a well-formed type conforms to it. *)
Lemma zero_conforms (ty : gtype) : wf_type ty = true -> conforms (zero ty) ty = true.
Proof. intros. by apply zero_u_conforms. Qed.

Lemma of_obj_u_type (u full : gtype) (o : obj) (v : gval) :
  of_obj_u full u o = Ok v -> underlying u <> TIface ->
  type_of v = Some (if composite (underlying u) then full else underlying u).
Proof.
  revert o v. induction u as [| k | | | | n t IH | t IH | t IH | fs IH | n t IH |] using gtype_ind';
    intros o v Hd Hu; cbn [underlying composite] in *; try congruence;
    (destruct o; cbn [of_obj_u] in Hd; try discriminate);
    repeat case_match; inv_rbind; subst; try discriminate; try done.
  all: by apply IH in Hd.
Qed.

(** A value decoded against a registered, well-formed, non-interface type
    has exactly that type (what [TestType] checks with [reflect.TypeOf]). *)
Lemma of_obj_type (ty : gtype) (o : obj) (v : gval) :
  wf_type ty = true -> is_iface ty = false -> of_obj ty o = Ok v -> type_of v = Some ty.
Proof.
  intros Hwf Hi Hd. unfold is_iface in Hi. apply bool_decide_eq_false in Hi.
  apply of_obj_u_type in Hd; [|done]. rewrite Hd.
  destruct ty; cbn [wf_type underlying composite] in *; try done.
  apply andb_prop in Hwf as [-> _]. done.
Qed.

Lemma gtype_eqb_refl (t : gtype) : gtype_eqb t t = true.
Proof. by apply gtype_eqb_eq. Qed.

Lemma float_eqb_refl (ew mw x : Z) : float_is_nan ew mw x = false -> float_eqb ew mw x x = true.
Proof. intros H. unfold float_eqb. by rewrite H, Z.eqb_refl. Qed.

Lemma float_eqb_nan (ew mw x y : Z) : float_is_nan ew mw x = true -> float_eqb ew mw x y = false.
Proof. intros H. unfold float_eqb. by rewrite H. Qed.

(** The value bound to a key of a map without NaN has no NaN. *)
Lemma nan_free_kv (kvs : list (string * gval)) (k : string) (x : gval) :
  forallb (fun kv => match kv with (_, x) => nan_free x end) kvs = true -> (k, x) ∈ kvs -> nan_free x = true.
Proof. intros Hn Hin. apply forallb_Forall in Hn. rewrite Forall_forall in Hn. exact (Hn _ Hin). Qed.

Lemma deep_equal_refl_dyn (v : gval) : dyn_ok v = true -> nan_free v = true -> deep_equal v v = true.
Proof.
  induction v as [| b | k z | b | b | s | ty vs IH | ty kvs IH | ty vs IH] using gval_ind';
    cbn [dyn_ok deep_equal nan_free]; intros Hv Hn; try done.
  - by destruct b.
  - by rewrite bool_decide_eq_true_2, Z.eqb_refl.
  - by apply float_eqb_refl, negb_true_iff.
  - by apply float_eqb_refl, negb_true_iff.
  - apply String.eqb_refl.
  - apply andb_prop in Hv as [_ Hvs]. rewrite gtype_eqb_refl. apply forall2b_diag.
    by eapply Forall_forallb_impl2.
  - apply andb_prop in Hv as [[[_ _]%andb_prop Hnd%keys_nodup_NoDup]%andb_prop Hkvs].
    rewrite gtype_eqb_refl, Nat.eqb_refl. apply forallb_Forall, Forall_forall.
    intros [k x] Hin. rewrite (assoc_lookup_nodup k x) by done.
    apply forallb_Forall in Hkvs. rewrite Forall_forall in IH, Hkvs.
    specialize (Hkvs _ Hin). apply andb_prop in Hkvs as [_ Hx]. exact (IH _ Hin Hx (nan_free_kv _ _ _ Hn Hin)).
Qed.

(** A value holding a NaN is deeply equal to nothing, itself included. *)
Lemma deep_equal_nan (v w : gval) : nan_free v = false -> deep_equal v w = false.
Proof.
  revert w.
  induction v as [| b | k z | b | b | s | ty vs IH | ty kvs IH | ty vs IH] using gval_ind';
    intros w Hn; cbn [nan_free] in Hn; try discriminate; destruct w; cbn [deep_equal]; try done.
  - by apply float_eqb_nan, negb_false_iff.
  - by apply float_eqb_nan, negb_false_iff.
  - rewrite (forall2b_false nan_free deep_equal vs); [apply andb_false_r| |exact Hn].
    eapply Forall_impl; [exact IH|]. intros x Hx Hnx y. exact (Hx y Hnx).
  - apply andb_false_intro2. apply not_true_iff_false. intros Hall.
    apply not_true_iff_false in Hn. apply Hn. apply forallb_Forall, Forall_forall. intros [k x] Hin.
    apply forallb_Forall in Hall. rewrite Forall_forall in Hall, IH. specialize (Hall _ Hin). cbn in Hall.
    destruct (nan_free x) eqn:Hx; [done|]. destruct (assoc_lookup k _); [|done].
    by rewrite (IH _ Hin _ Hx) in Hall.
  - rewrite (forall2b_false nan_free deep_equal vs); [apply andb_false_r| |exact Hn].
    eapply Forall_impl; [exact IH|]. intros x Hx Hnx y. exact (Hx y Hnx).
Qed.

(** [reflect.DeepEqual] is reflexive on conforming values without NaN. *)
Lemma deep_equal_refl (v : gval) (ty : gtype) :
  conforms v ty = true -> nan_free v = true -> deep_equal v v = true.
Proof.
  revert ty.
  induction v as [| b | k z | b | b | s | ty' vs IH | ty' kvs IH | ty' vs IH] using gval_ind';
    intros ty Hc Hn; cbn [conforms] in Hc;
    (destruct (is_iface ty); [by apply deep_equal_refl_dyn|]); destruct (underlying ty) eqn:Hu;
    try discriminate; cbn [deep_equal]; cbn [nan_free] in Hn.
  - by destruct b.
  - by rewrite bool_decide_eq_true_2, Z.eqb_refl.
  - by apply float_eqb_refl, negb_true_iff.
  - by apply float_eqb_refl, negb_true_iff.
  - apply String.eqb_refl.
  - apply andb_prop in Hc as [_ Hvs]. rewrite gtype_eqb_refl. apply forall2b_diag.
    eapply Forall_forallb_impl2; [|exact Hvs|exact Hn]. eapply Forall_impl; [exact IH|]. naive_solver.
  - apply andb_prop in Hc as [_ Hvs]. rewrite gtype_eqb_refl. apply forall2b_diag.
    eapply Forall_forallb_impl2; [|exact Hvs|exact Hn]. eapply Forall_impl; [exact IH|]. naive_solver.
  - apply andb_prop in Hc as [[[_ _]%andb_prop Hnd%keys_nodup_NoDup]%andb_prop Hkvs].
    rewrite gtype_eqb_refl, Nat.eqb_refl. apply forallb_Forall, Forall_forall.
    intros [k x] Hin. rewrite (assoc_lookup_nodup k x) by done.
    apply forallb_Forall in Hkvs. rewrite Forall_forall in IH, Hkvs.
    specialize (Hkvs _ Hin). apply andb_prop in Hkvs as [_ Hx]. exact (IH _ Hin _ Hx (nan_free_kv _ _ _ Hn Hin)).
  - apply andb_prop in Hc as [_ Hfs]. rewrite gtype_eqb_refl. apply forall2b_diag. clear Hu.
    match goal with Hfs : fields_conform _ _ ?fs = true |- _ => revert fs Hfs end.
    induction IH as [|v vs Hv _ IHvs]; intros [|[f t] fs] Hfs; try done.
    cbn [fields_conform] in Hfs. apply andb_prop in Hfs as [[_ Hc]%andb_prop Hrest].
    cbn [forallb] in Hn. apply andb_prop in Hn as [Hn1 Hn2].
    constructor; [by apply (Hv t)|]. by apply (IHvs Hn2 fs).
Qed.



End Types.
