(* ===== verification/Frame.v ===== *)
(** * Frame codec (spec sections 3, 4.3 and 6)

    One frame is [LEN (4 bytes, big-endian) | ID (1 byte) | PAYLOAD], where
    LEN counts the id byte and the payload.  [write_frame] builds it,
    [read_frame] reads one off the front of a stream in two phases (the
    length, then exactly that many bytes).  A [coder] packages an encoder
    and a decoder with their round-trip law; the value encoding of
    [Msgpack] is one, and [frame_coder] turns a payload coder into a coder
    of framed packets.  Modelled from the spec. *)

From stdpp Require Import base list.
From Stdlib Require Import ZArith Lia Strings.Byte.
From S2P Require Import Prelude Msgpack.

Local Open Scope Z_scope.
Local Open Scope codec_scope.

Module Frame.

(** ** Coders *)

(** What a byte codec of [T] promises: on its domain [c_valid], decoding
    an encoding followed by anything gives the value back and the bytes
    after it. *)
Record coder (T : Type) := {
  c_encode : T -> list byte;
  c_decode : list byte -> result (T * list byte);
  c_valid : T -> Prop;
  c_roundtrip : forall t rest, c_valid t -> c_decode (c_encode t ++ rest) = Ok (t, rest)
}.
Arguments c_encode {T} _ _.
Arguments c_decode {T} _ _.
Arguments c_valid {T} _ _.
Arguments c_roundtrip {T} _ _ _ _.

(** The value encoding is a coder of well-formed wire values. *)
Definition value_coder : coder Msgpack.obj := {|
  c_encode := Msgpack.encode;
  c_decode := Msgpack.decode_value;
  c_valid := fun o => Msgpack.wf_obj o = true;
  c_roundtrip := fun o rest H => Msgpack.decode_encode_value o rest H
|}.

(** ** Frames *)

(** The largest LEN a 4-byte prefix holds. *)
Definition max_len : Z := 2 ^ 32 - 1.

(** A packet id is one byte on the wire. *)
Definition id_ok (id : Z) : bool := (0 <=? id) && (id <? 256).

(** Frame a payload: LEN = 1 + payload length, then the id byte. *)
Definition write_frame (id : Z) (payload : list byte) : result (list byte) :=
  let len := 1 + Z.of_nat (length payload) in
  if max_len <? len then Err Overflow
  else Ok (be_bytes 4 len ++ byte_of id :: payload).

(** Read one frame: 4 bytes of length ([Truncated] if the stream ends
    first), then exactly LEN bytes ([Truncated] likewise), whose first is
    the id.  A zero length is [EmptyFrame].  The result is the id, the
    payload and the rest of the stream. *)
Definition read_frame (bs : list byte) : result (Z * list byte * list byte) :=
  let* '(hdr, r) := take_bytes 4 bs in
  let len := be_val hdr in
  if len =? 0 then Err EmptyFrame
  else
    let* '(body, r') := take_bytes len r in
    match body with
    | [] => Err EmptyFrame
    | idb :: payload => Ok (byte_val idb, payload, r')
    end.

(** Frame an encoded payload without the length check: on the coder's
    domain the check passes (lemma [write_frame_Ok]). *)
Definition frame_bytes (id : Z) (payload : list byte) : list byte :=
  be_bytes 4 (1 + Z.of_nat (length payload)) ++ byte_of id :: payload.

(** ** Properties *)

Lemma write_frame_Ok (id : Z) (payload : list byte) :
  1 + Z.of_nat (length payload) <= max_len ->
  write_frame id payload = Ok (be_bytes 4 (1 + Z.of_nat (length payload)) ++ byte_of id :: payload).
Proof. intros H. unfold write_frame. destruct (Z.ltb_spec max_len (1 + Z.of_nat (length payload))); [lia|done]. Qed.

Lemma write_frame_inv (id : Z) (payload bs : list byte) :
  write_frame id payload = Ok bs ->
  bs = be_bytes 4 (1 + Z.of_nat (length payload)) ++ byte_of id :: payload
  /\ 1 + Z.of_nat (length payload) <= max_len.
Proof.
  unfold write_frame. destruct (Z.ltb_spec max_len (1 + Z.of_nat (length payload))); [done|].
  intros [= <-]. split; [done|lia].
Qed.

Lemma be_val_len (len : Z) : 0 <= len <= max_len -> be_val (be_bytes 4 len) = len.
Proof. unfold max_len. intros H. apply be_val_bytes_small. cbn. lia. Qed.

Lemma take_bytes_4 (len : Z) (bs : list byte) :
  take_bytes 4 (be_bytes 4 len ++ bs) = Ok (be_bytes 4 len, bs).
Proof. apply take_bytes_app. by rewrite length_be_bytes. Qed.

(** Frame integrity: a written frame is 5 bytes longer than its payload
    and its length prefix reads 1 + the payload length. *)
Lemma write_frame_length (id : Z) (payload bs : list byte) :
  write_frame id payload = Ok bs ->
  length bs = (5 + length payload)%nat /\ be_val (take 4 bs) = 1 + Z.of_nat (length payload).
Proof.
  intros [-> Hlen]%write_frame_inv. split.
  - rewrite length_app, length_be_bytes. cbn [length]. lia.
  - rewrite take_app_length' by (rewrite length_be_bytes; lia). apply be_val_len. lia.
Qed.

Lemma write_frame_bytes (id : Z) (payload bs : list byte) :
  write_frame id payload = Ok bs -> bs = frame_bytes id payload /\ 1 + Z.of_nat (length payload) <= max_len.
Proof. apply write_frame_inv. Qed.

(** Reading a frame of an id byte and a payload that fits, followed by
    anything. *)
Lemma read_frame_app (id : Z) (payload rest : list byte) :
  id_ok id = true -> 1 + Z.of_nat (length payload) <= max_len ->
  read_frame (frame_bytes id payload ++ rest) = Ok (id, payload, rest).
Proof.
  intros Hid Hlen. unfold id_ok in Hid. apply andb_prop in Hid as [?%Z.leb_le ?%Z.ltb_lt].
  unfold read_frame, frame_bytes. rewrite <- app_assoc, take_bytes_4. cbn [rbind].
  rewrite be_val_len by lia. destruct (Z.eqb_spec (1 + Z.of_nat (length payload)) 0); [lia|].
  rewrite (take_bytes_app _ (byte_of id :: payload)) by (cbn [length]; lia). cbn [rbind].
  by rewrite byte_val_of_small by lia.
Qed.

(** Every proper prefix of a frame reads as [Truncated]. *)
Lemma read_frame_prefix (id : Z) (payload : list byte) (k : nat) :
  1 + Z.of_nat (length payload) <= max_len -> (k < length (frame_bytes id payload))%nat ->
  read_frame (take k (frame_bytes id payload)) = Err Truncated.
Proof.
  intros Hlen Hk. unfold frame_bytes in *. rewrite length_app, length_be_bytes in Hk.
  unfold read_frame. destruct (Nat.lt_ge_cases k 4) as [Hk4 | Hk4].
  - rewrite take_bytes_short; [done|]. rewrite length_take, length_app, length_be_bytes. lia.
  - rewrite take_app_ge by (rewrite length_be_bytes; lia). rewrite length_be_bytes.
    rewrite take_bytes_4. cbn [rbind]. rewrite be_val_len by lia.
    destruct (Z.eqb_spec (1 + Z.of_nat (length payload)) 0); [lia|].
    rewrite take_bytes_short; [done|]. rewrite length_take. cbn [length] in *. lia.
Qed.

(** Reading a written frame, followed by anything, gives back its id and
    payload and stops at the frame's end. *)
Lemma read_write_frame (id : Z) (payload bs rest : list byte) :
  id_ok id = true -> write_frame id payload = Ok bs ->
  read_frame (bs ++ rest) = Ok (id, payload, rest).
Proof. intros Hid [-> Hlen]%write_frame_bytes. by apply read_frame_app. Qed.

(** A stream that ends inside a frame yields [Truncated], never a
    frame: the length is read first, and the body only when all of it is
    there. *)
Lemma read_frame_truncated (id : Z) (payload bs : list byte) (k : nat) :
  write_frame id payload = Ok bs -> (k < length bs)%nat ->
  read_frame (take k bs) = Err Truncated.
Proof. intros [-> Hlen]%write_frame_bytes Hk. by apply read_frame_prefix. Qed.

(** A zero length prefix is a protocol error. *)
Lemma read_frame_empty (rest : list byte) :
  read_frame (be_bytes 4 0 ++ rest) = Err EmptyFrame.
Proof. unfold read_frame. rewrite take_bytes_4. cbn [rbind]. by rewrite be_val_len by (unfold max_len; lia). Qed.

(** A frame read off a stream takes at least its 5 header bytes. *)
Lemma read_frame_consumes (bs rest payload : list byte) (id : Z) :
  read_frame bs = Ok (id, payload, rest) -> (length rest + 5 + length payload = length bs)%nat.
Proof.
  unfold read_frame. destruct (take_bytes 4 bs) as [[hdr r]|] eqn:H4; [|discriminate]. cbn [rbind].
  apply take_bytes_Ok in H4 as (-> & Hh & _). destruct (Z.eqb _ 0); [discriminate|].
  destruct (take_bytes (be_val hdr) r) as [[body r']|] eqn:Hb; [|discriminate]. cbn [rbind].
  apply take_bytes_Ok in Hb as (-> & _ & _). destruct body as [|idb pl]; [discriminate|].
  intros [= _ <- <-]. rewrite !length_app, Hh. cbn [length]. lia.
Qed.

(** ** The frame coder *)

Section FrameCoder.
Context {T : Type} (C : coder T).

(** Decode a frame, then its payload with [C]; bytes of the payload after
    the value are ignored. *)
Definition decode_framed (bs : list byte) : result ((Z * T) * list byte) :=
  let* '(id, payload, rest) := read_frame bs in
  let* '(t, _) := c_decode C payload in
  Ok ((id, t), rest).

Definition framed_valid (p : Z * T) : Prop :=
  id_ok p.1 = true /\ c_valid C p.2 /\ 1 + Z.of_nat (length (c_encode C p.2)) <= max_len.

Lemma framed_roundtrip (p : Z * T) (rest : list byte) :
  framed_valid p -> decode_framed (frame_bytes p.1 (c_encode C p.2) ++ rest) = Ok (p, rest).
Proof.
  destruct p as [id t]. intros (Hid & Hv & Hlen). cbn [fst snd] in *. unfold decode_framed.
  rewrite read_frame_app by done. cbn [rbind].
  rewrite <- (app_nil_r (c_encode C t)), (c_roundtrip C t [] Hv). done.
Qed.

(** Framing preserves the coder interface. *)
Definition frame_coder : coder (Z * T) := {|
  c_encode := fun p => frame_bytes p.1 (c_encode C p.2);
  c_decode := decode_framed;
  c_valid := framed_valid;
  c_roundtrip := framed_roundtrip
|}.
End FrameCoder.

(** ** Witnesses *)

Lemma read_write_frame_witness :
  id_ok 2 = true /\ write_frame 2 [byte_of 8] = Ok (map byte_of [0; 0; 0; 2; 2; 8]) /\
  read_frame (map byte_of [0; 0; 0; 2; 2; 8] ++ [byte_of 9]) = Ok (2, [byte_of 8], [byte_of 9]).
Proof.
  assert (H1 : id_ok 2 = true) by reflexivity.
  assert (H2 : write_frame 2 [byte_of 8] = Ok (map byte_of [0; 0; 0; 2; 2; 8])) by (vm_compute; reflexivity).
  split; [exact H1|]. split; [exact H2|]. exact (read_write_frame _ _ _ _ H1 H2).
Defined.

Lemma write_frame_length_witness :
  write_frame 2 [byte_of 8] = Ok (map byte_of [0; 0; 0; 2; 2; 8]) /\
  (length (map byte_of [0; 0; 0; 2; 2; 8]%Z) = 5 + length [byte_of 8])%nat /\
  be_val (take 4 (map byte_of [0; 0; 0; 2; 2; 8])) = 1 + Z.of_nat (length [byte_of 8]).
Proof.
  assert (H : write_frame 2 [byte_of 8] = Ok (map byte_of [0; 0; 0; 2; 2; 8])) by (vm_compute; reflexivity).
  split; [exact H|]. exact (write_frame_length _ _ _ H).
Defined.

Lemma read_frame_truncated_witness :
  write_frame 2 [byte_of 8] = Ok (map byte_of [0; 0; 0; 2; 2; 8]) /\
  (5 < length (map byte_of [0; 0; 0; 2; 2; 8]%Z))%nat /\
  read_frame (take 5 (map byte_of [0; 0; 0; 2; 2; 8])) = Err Truncated.
Proof.
  assert (H : write_frame 2 [byte_of 8] = Ok (map byte_of [0; 0; 0; 2; 2; 8])) by (vm_compute; reflexivity).
  assert (Hk : (5 < length (map byte_of [0; 0; 0; 2; 2; 8]%Z))%nat) by (cbn; lia).
  split; [exact H|]. split; [exact Hk|]. exact (read_frame_truncated _ _ _ _ H Hk).
Defined.

End Frame.
