(* ===== verification/Registry.v ===== *)
(** * Type registry (spec section 4.2)

    The process-wide table from packet ids to the types registered for
    them ([PacketMap] in the Go package, which the test assigns to
    directly) and to their names ([PacketNameById]).  Registering an id
    twice overwrites (last write wins); lookup of an unregistered id is
    [None]; [all] lists the entries except the sentinel [PMax].  The ids'
    numeric values and the startup registrations are not in the sources:
    they are chosen here in the order the test names them. *)

From stdpp Require Import base list gmap strings.
From Stdlib Require Import ZArith Lia.
From S2P Require Import Prelude Msgpack Types Frame.

Local Open Scope Z_scope.
Import Types Frame.

Module Registry.

(** ** Packet ids *)

Definition PLogin : Z := 0.
Definition PPlayerInfo : Z := 1.
Definition PTest : Z := 2.
(** The sentinel that bounds the valid ids. *)
Definition PMax : Z := 3.

(** ** The registry *)

Record registry := mk_registry {
  PacketMap : gmap Z gtype;
  PacketNames : gmap Z string
}.

Definition empty_registry : registry := mk_registry ∅ ∅.

(** Register [id] with its name and type; an earlier entry is replaced. *)
Definition register (id : Z) (name : string) (ty : gtype) (reg : registry) : registry :=
  mk_registry (<[id := ty]> (PacketMap reg)) (<[id := name]> (PacketNames reg)).

(** [PacketMap[id] = ty]: replace the type only. *)
Definition set_type (id : Z) (ty : gtype) (reg : registry) : registry :=
  mk_registry (<[id := ty]> (PacketMap reg)) (PacketNames reg).

Definition lookup (reg : registry) (id : Z) : option gtype := PacketMap reg !! id.

Definition PacketNameById (reg : registry) (id : Z) : option string := PacketNames reg !! id.

(** Every entry but the sentinel's. *)
Definition all (reg : registry) : list (Z * gtype) :=
  filter (fun kv => kv.1 <> PMax) (map_to_list (PacketMap reg)).

(** ** The application's packet types *)

Definition LoginPacket : gtype :=
  TNamed "LoginPacket" (TStruct [("Username", TString); ("Password", TString)]).

Definition PlayerInfoPacket : gtype := TNamed "PlayerInfoPacket" (TMap TIface).

(** The registrations made at startup. *)
Definition startup : registry :=
  register PTest "PTest" (TInt KInt)
    (register PPlayerInfo "PPlayerInfo" PlayerInfoPacket
       (register PLogin "PLogin" LoginPacket empty_registry)).

(** ** Invariant: every entry is a one-byte id with a well-formed type *)

Definition wf_registry (reg : registry) : Prop :=
  forall id ty, lookup reg id = Some ty -> id_ok id = true /\ wf_type ty = true.

(** ** Properties *)

(** Registering an id makes lookup return the new type (last write
    wins) and leaves every other id as it was. *)
Lemma register_lookup (reg : registry) (id id' : Z) (name : string) (ty : gtype) :
  lookup (register id name ty reg) id' = if decide (id = id') then Some ty else lookup reg id'.
Proof. unfold lookup, register. cbn. by rewrite lookup_insert. Qed.

Lemma set_type_lookup (reg : registry) (id id' : Z) (ty : gtype) :
  lookup (set_type id ty reg) id' = if decide (id = id') then Some ty else lookup reg id'.
Proof. unfold lookup, set_type. cbn. by rewrite lookup_insert. Qed.

Lemma register_name (reg : registry) (id id' : Z) (name : string) (ty : gtype) :
  PacketNameById (register id name ty reg) id' = if decide (id = id') then Some name else PacketNameById reg id'.
Proof. unfold PacketNameById, register. cbn. by rewrite lookup_insert. Qed.

(** [all] lists exactly the registered entries other than the
    sentinel's. *)
Lemma all_spec (reg : registry) (id : Z) (ty : gtype) :
  (id, ty) ∈ all reg <-> lookup reg id = Some ty /\ id <> PMax.
Proof.
  unfold all, lookup. rewrite list_elem_of_filter, elem_of_map_to_list. cbn. naive_solver.
Qed.

(** The invariant holds of the empty registry and is kept by every
    registration of a one-byte id with a well-formed type. *)
Lemma wf_empty : wf_registry empty_registry.
Proof. intros id ty H. unfold lookup in H. cbn in H. by rewrite lookup_empty in H. Qed.

Lemma wf_register (reg : registry) (id : Z) (name : string) (ty : gtype) :
  wf_registry reg -> id_ok id = true -> wf_type ty = true -> wf_registry (register id name ty reg).
Proof.
  intros Hreg Hid Hty id' ty'. unfold lookup, register. cbn. rewrite lookup_insert. case_decide; [naive_solver|]. apply Hreg.
Qed.

Lemma wf_set_type (reg : registry) (id : Z) (ty : gtype) :
  wf_registry reg -> id_ok id = true -> wf_type ty = true -> wf_registry (set_type id ty reg).
Proof.
  intros Hreg Hid Hty id' ty'. rewrite set_type_lookup. case_decide; [naive_solver|]. apply Hreg.
Qed.

Lemma wf_startup : wf_registry startup.
Proof. repeat apply wf_register; try apply wf_empty; vm_compute; done. Qed.

End Registry.
