(* ===== verification/Codec.v ===== *)
(** * Encoder, Decoder and the one-shot Read/Write (spec sections 4.4, 4.5, 7)

    [Encode reg out id v] is [Encoder.Encode]: it checks [v] against the
    type registered for [id] ([ShapeMismatch] on disagreement; no check when
    nothing is registered), encodes it, frames it and appends the frame to
    the sink [out] in one step (nothing is written on error).
    [Decode reg input] is [Decoder.Decode]: it reads one frame, looks its
    id up ([UnknownPacketId] when unregistered) and decodes the payload at
    the registered type; it returns the packet or the error together with
    the stream left: after a complete frame the stream is positioned after
    it, whatever the payload held; a stream that ends inside a frame is
    consumed to its end.  [Write] and [Read] are the one-shot wrappers,
    [Read] returning the decoded object.  Modelled from the spec. *)

From stdpp Require Import base list gmap strings.
From Stdlib Require Import ZArith Lia Strings.Byte.
From S2P Require Import Prelude Msgpack Types Frame Registry.

Local Open Scope Z_scope.
Local Open Scope codec_scope.
Import Msgpack Types Frame Registry.

Module Codec.

(** The decoded unit: [Packet{Id, Obj}]. *)
Record packet := mk_packet { Id : Z; Obj : gval }.

(** The shape check of [Encode]: the registry is advisory for encoding. *)
Definition check_shape (reg : registry) (id : Z) (v : gval) : result unit :=
  match lookup reg id with
  | Some ty => if conforms v ty then Ok tt else Err ShapeMismatch
  | None => Ok tt
  end.

(** [Encoder.Encode(id, v)] on a sink holding [out]. *)
Definition Encode (reg : registry) (out : list byte) (id : Z) (v : gval) : result (list byte) :=
  let* _ := check_shape reg id v in
  let* fr := write_frame id (encode (to_obj v)) in
  Ok (out ++ fr).

(** Decode a payload at the type registered for the frame's id. *)
Definition decode_payload (reg : registry) (id : Z) (payload : list byte) : result packet :=
  match lookup reg id with
  | None => Err (UnknownPacketId id)
  | Some ty =>
      let* '(o, _) := decode_value payload in
      let* v := of_obj ty o in
      Ok (mk_packet id v)
  end.

(** [Decoder.Decode(&pkt)] on a source holding [input]: the packet or the
    error, and the source left. *)
Definition Decode (reg : registry) (input : list byte) : result packet * list byte :=
  match read_frame input with
  | Err Truncated => (Err Truncated, [])
  | Err e => (Err e, drop 4 input)
  | Ok (id, payload, rest) => (decode_payload reg id payload, rest)
  end.

(** [Write(w, id, obj)]: one frame through a transient encoder. *)
Definition Write (reg : registry) (w : list byte) (id : Z) (v : gval) : result (list byte) :=
  Encode reg w id v.

(** [Read(r)]: one frame through a transient decoder; the object. *)
Definition Read (reg : registry) (r : list byte) : result gval * list byte :=
  let '(res, rest) := Decode reg r in (rmap Obj res, rest).

(** ** Sequences of packets on one stream *)

(** Encode packets one after the other on the same sink. *)
Fixpoint Encode_all (reg : registry) (out : list byte) (pkts : list packet) : result (list byte) :=
  match pkts with
  | [] => Ok out
  | p :: ps => let* out' := Encode reg out (Id p) (Obj p) in Encode_all reg out' ps
  end.

(** Call [Decode] [n] times on the same source. *)
Fixpoint Decode_n (reg : registry) (n : nat) (input : list byte) : list (result packet) * list byte :=
  match n with
  | O => ([], input)
  | S n' =>
      let '(r, rest) := Decode reg input in
      let '(rs, rest') := Decode_n reg n' rest in
      (r :: rs, rest')
  end.

(** What a packet must satisfy to be sent and received intact. *)
Definition sendable (reg : registry) (id : Z) (v : gval) : Prop :=
  id_ok id = true /\ 1 + Z.of_nat (length (encode (to_obj v))) <= max_len /\
  exists ty, lookup reg id = Some ty /\ conforms v ty = true.

(** Its decision procedure. *)
Definition sendableb (reg : registry) (id : Z) (v : gval) : bool :=
  id_ok id && (1 + Z.of_nat (length (encode (to_obj v))) <=? max_len) &&
  match lookup reg id with Some ty => conforms v ty | None => false end.

(** The frame of a packet. *)
Definition packet_frame (p : packet) : list byte := frame_bytes (Id p) (encode (to_obj (Obj p))).

(** ** Properties *)

(** [Decode] never makes the stream longer, and a decoded packet took at
    least a frame header. *)
Lemma Decode_consumes (reg : registry) (bs rest : list byte) (r : result packet) :
  Decode reg bs = (r, rest) ->
  (length rest <= length bs)%nat /\ (is_ok r = true -> (length rest + 5 <= length bs)%nat).
Proof.
  unfold Decode. destruct (read_frame bs) as [[[id pl] r']|e] eqn:Hf.
  - intros [= <- <-]. apply read_frame_consumes in Hf. lia.
  - destruct e; intros [= <- <-]; rewrite ?length_drop; cbn; split; lia || done.
Qed.

Lemma sendableb_sendable (reg : registry) (id : Z) (v : gval) :
  sendableb reg id v = true -> sendable reg id v.
Proof.
  unfold sendableb. intros [[Hid Hl%Z.leb_le]%andb_prop Hc]%andb_prop.
  split; [done|]. split; [done|]. destruct (lookup reg id) as [ty|]; [by exists ty|done].
Qed.

Lemma Encode_Ok (reg : registry) (out : list byte) (id : Z) (v : gval) :
  check_shape reg id v = Ok tt -> 1 + Z.of_nat (length (encode (to_obj v))) <= max_len ->
  Encode reg out id v = Ok (out ++ frame_bytes id (encode (to_obj v))).
Proof. intros Hc Hl. unfold Encode. rewrite Hc. cbn [rbind]. by rewrite write_frame_Ok. Qed.

(** The payload decoder reads one value and ignores what follows it in
    the frame. *)
Lemma decode_payload_app (reg : registry) (id : Z) (ty : gtype) (v : gval) (junk : list byte) :
  lookup reg id = Some ty -> conforms v ty = true ->
  decode_payload reg id (encode (to_obj v) ++ junk) = Ok (mk_packet id v).
Proof.
  intros Hl Hc. unfold decode_payload. rewrite Hl.
  rewrite decode_encode_value by by eapply conforms_wf.
  cbn [rbind]. by rewrite of_obj_roundtrip.
Qed.

Lemma decode_payload_Ok (reg : registry) (id : Z) (ty : gtype) (v : gval) :
  lookup reg id = Some ty -> conforms v ty = true ->
  decode_payload reg id (encode (to_obj v)) = Ok (mk_packet id v).
Proof. intros Hl Hc. rewrite <- (app_nil_r (encode _)). by eapply decode_payload_app. Qed.

Lemma Decode_frame (reg : registry) (id : Z) (payload rest : list byte) :
  id_ok id = true -> 1 + Z.of_nat (length payload) <= max_len ->
  Decode reg (frame_bytes id payload ++ rest) = (decode_payload reg id payload, rest).
Proof.
  intros Hid Hl. unfold Decode. by rewrite read_frame_app.
Qed.
(** A sendable packet comes back from its frame. *)
Lemma Decode_packet_frame (reg : registry) (p : packet) (rest : list byte) :
  sendable reg (Id p) (Obj p) -> Decode reg (packet_frame p ++ rest) = (Ok p, rest).
Proof.
  destruct p as [id v]. intros (Hid & Hl & ty & Hty & Hc). unfold packet_frame. cbn [Id Obj].
  rewrite Decode_frame by done. by erewrite decode_payload_Ok.
Qed.

Lemma sendable_Encode (reg : registry) (out : list byte) (id : Z) (v : gval) :
  sendable reg id v -> Encode reg out id v = Ok (out ++ frame_bytes id (encode (to_obj v))).
Proof.
  intros (Hid & Hl & ty & Hty & Hc). apply Encode_Ok; [|done]. unfold check_shape. by rewrite Hty, Hc.
Qed.

(** End-to-end round trip: a value that conforms to the type registered
    for its id is written as one frame appended to the sink, and decoding
    that frame, whatever follows it, gives back the packet with the same id
    and a deeply equal object, with the stream positioned after the frame. *)
Lemma Encode_Decode (reg : registry) (out rest : list byte) (id : Z) (v : gval) :
  sendable reg id v ->
  Encode reg out id v = Ok (out ++ frame_bytes id (encode (to_obj v)))
  /\ Decode reg (frame_bytes id (encode (to_obj v)) ++ rest) = (Ok (mk_packet id v), rest).
Proof. intros H. split; [by apply sendable_Encode|]. by apply (Decode_packet_frame reg (mk_packet id v)). Qed.

(** A decoded packet carries a value of exactly the type registered
    for its id (for every registered type that is not the empty
    interface): the packet id alone determines the shape. *)
Lemma Decode_type (reg : registry) (bs rest : list byte) (pkt : packet) :
  wf_registry reg -> Decode reg bs = (Ok pkt, rest) ->
  exists ty, lookup reg (Id pkt) = Some ty /\ (is_iface ty = false -> type_of (Obj pkt) = Some ty).
Proof.
  intros Hwf. unfold Decode. destruct (read_frame bs) as [[[id pl] r]|[]]; try discriminate.
  intros [= Hd _]. unfold decode_payload in Hd. destruct (lookup reg id) as [ty|] eqn:Hl; [|discriminate].
  apply rbind_inv_Ok in Hd as ([o r'] & _ & Hd). apply rbind_inv_Ok in Hd as (v & Hv & [= <-]).
  exists ty. split; [done|]. intros Hi. eapply of_obj_type; [apply (Hwf _ _ Hl)|done|done].
Qed.

(** A well-framed packet whose id has no registry entry is
    [UnknownPacketId], never a default decode, and the stream is left at the
    next frame, so the connection can go on. *)
Lemma Decode_unknown_id (reg : registry) (id : Z) (payload rest : list byte) :
  lookup reg id = None -> id_ok id = true -> 1 + Z.of_nat (length payload) <= max_len ->
  Decode reg (frame_bytes id payload ++ rest) = (Err (UnknownPacketId id), rest).
Proof. intros Hn Hid Hl. rewrite Decode_frame by done. unfold decode_payload. by rewrite Hn. Qed.

(** The encoder rejects a value whose shape disagrees with the type
    registered for its id, and writes nothing. *)
Lemma Encode_shape_mismatch (reg : registry) (out : list byte) (id : Z) (ty : gtype) (v : gval) :
  lookup reg id = Some ty -> conforms v ty = false -> Encode reg out id v = Err ShapeMismatch.
Proof. intros Hty Hc. unfold Encode, check_shape. by rewrite Hty, Hc. Qed.

(** Without a registry entry the value is encoded as it is. *)
Lemma Encode_unregistered (reg : registry) (out : list byte) (id : Z) (v : gval) :
  lookup reg id = None -> 1 + Z.of_nat (length (encode (to_obj v))) <= max_len ->
  Encode reg out id v = Ok (out ++ frame_bytes id (encode (to_obj v))).
Proof. intros Hn Hl. apply Encode_Ok; [|done]. unfold check_shape. by rewrite Hn. Qed.

(** Decoding a stream that ends anywhere inside an encoded frame gives
    [Truncated] and no value. *)
Lemma Decode_truncated (reg : registry) (id : Z) (v : gval) (fr : list byte) (k : nat) :
  Encode reg [] id v = Ok fr -> (k < length fr)%nat -> Decode reg (take k fr) = (Err Truncated, []).
Proof.
  unfold Encode. intros H Hk. destruct (check_shape reg id v); [|discriminate]. cbn [rbind] in H.
  destruct (write_frame id (encode (to_obj v))) as [fr'|] eqn:Hw; [|discriminate].
  cbn [rbind app] in H. injection H as <-. apply write_frame_bytes in Hw as [-> Hl].
  unfold Decode. by rewrite read_frame_prefix.
Qed.


(** Ordering: packets encoded one after the other on a stream are
    decoded by successive [Decode] calls in the same order, each intact. *)
Lemma Encode_all_Decode_n (reg : registry) (out rest : list byte) (pkts : list packet) :
  Forall (fun p => sendable reg (Id p) (Obj p)) pkts ->
  Encode_all reg out pkts = Ok (out ++ concat (map packet_frame pkts))
  /\ Decode_n reg (length pkts) (concat (map packet_frame pkts) ++ rest) = (map Ok pkts, rest).
Proof.
  intros H. revert out. induction H as [|[id v] pkts Hp _ IH]; intros out.
  - by rewrite app_nil_r.
  - cbn [Encode_all Decode_n length map concat Id Obj packet_frame] in *.
    pose proof (sendable_Encode reg out id v Hp) as He.
    pose proof (Decode_packet_frame reg (mk_packet id v) (concat (map packet_frame pkts) ++ rest) Hp) as Hd.
    destruct (IH (out ++ frame_bytes id (encode (to_obj v)))) as [He' Hd']. split.
    + change (packet_frame (mk_packet id v)) with (frame_bytes id (encode (to_obj v))).
      rewrite He, rbind_Ok, He'. by rewrite <- app_assoc.
    + rewrite <- (app_assoc (packet_frame _)), Hd, Hd'. done.
Qed.

(** ** Witnesses *)

Lemma Encode_Decode_witness :
  sendable startup PLogin (GStruct LoginPacket [GString "genius"; GString "0101001"]) /\
  Encode startup [] PLogin (GStruct LoginPacket [GString "genius"; GString "0101001"])
  = Ok ([] ++ frame_bytes PLogin (encode (to_obj (GStruct LoginPacket [GString "genius"; GString "0101001"])))) /\
  Decode startup (frame_bytes PLogin (encode (to_obj (GStruct LoginPacket [GString "genius"; GString "0101001"]))) ++ [])
  = (Ok (mk_packet PLogin (GStruct LoginPacket [GString "genius"; GString "0101001"])), []).
Proof.
  assert (H : sendable startup PLogin (GStruct LoginPacket [GString "genius"; GString "0101001"]))
    by (apply sendableb_sendable; vm_compute; reflexivity).
  split; [exact H|]. exact (Encode_Decode _ [] [] _ _ H).
Defined.

Lemma Decode_type_witness :
  wf_registry startup /\
  Decode startup (map byte_of [0; 0; 0; 2; PTest; 8]) = (Ok (mk_packet PTest (GInt KInt 8)), []) /\
  exists ty, lookup startup (Id (mk_packet PTest (GInt KInt 8))) = Some ty /\
    (is_iface ty = false -> type_of (Obj (mk_packet PTest (GInt KInt 8))) = Some ty).
Proof.
  assert (H : Decode startup (map byte_of [0; 0; 0; 2; PTest; 8]) = (Ok (mk_packet PTest (GInt KInt 8)), []))
    by (vm_compute; reflexivity).
  split; [exact wf_startup|]. split; [exact H|]. exact (Decode_type _ _ _ _ wf_startup H).
Defined.

Lemma Decode_unknown_id_witness :
  lookup startup 7 = None /\ id_ok 7 = true /\ 1 + Z.of_nat (length [byte_of 8]) <= max_len /\
  Decode startup (frame_bytes 7 [byte_of 8] ++ [byte_of 1]) = (Err (UnknownPacketId 7), [byte_of 1]).
Proof.
  assert (H1 : lookup startup 7 = None) by reflexivity.
  assert (H2 : id_ok 7 = true) by reflexivity.
  assert (H3 : 1 + Z.of_nat (length [byte_of 8]) <= max_len) by (cbn; unfold max_len; lia).
  split; [exact H1|]. split; [exact H2|]. split; [exact H3|]. exact (Decode_unknown_id _ _ _ _ H1 H2 H3).
Defined.

Lemma Encode_shape_mismatch_witness :
  lookup startup PTest = Some (TInt KInt) /\ conforms (GString "8") (TInt KInt) = false /\
  Encode startup [] PTest (GString "8") = Err ShapeMismatch.
Proof.
  assert (H1 : lookup startup PTest = Some (TInt KInt)) by reflexivity.
  assert (H2 : conforms (GString "8") (TInt KInt) = false) by reflexivity.
  split; [exact H1|]. split; [exact H2|]. exact (Encode_shape_mismatch _ _ _ _ _ H1 H2).
Defined.

Lemma Decode_truncated_witness :
  Encode startup [] PTest (GInt KInt 8) = Ok (map byte_of [0; 0; 0; 2; PTest; 8]) /\
  (4 < length (map byte_of [0; 0; 0; 2; PTest; 8]%Z))%nat /\
  Decode startup (take 4 (map byte_of [0; 0; 0; 2; PTest; 8])) = (Err Truncated, []).
Proof.
  assert (H : Encode startup [] PTest (GInt KInt 8) = Ok (map byte_of [0; 0; 0; 2; PTest; 8]))
    by (vm_compute; reflexivity).
  assert (Hk : (4 < length (map byte_of [0; 0; 0; 2; PTest; 8]%Z))%nat) by (cbn; lia).
  split; [exact H|]. split; [exact Hk|]. exact (Decode_truncated _ _ _ _ _ H Hk).
Defined.

Lemma Encode_all_Decode_n_witness :
  Forall (fun p => sendable startup (Id p) (Obj p))
         [mk_packet PTest (GInt KInt 8); mk_packet PLogin (GStruct LoginPacket [GString "a"; GString "b"])] /\
  Decode_n startup 2
    (concat (map packet_frame [mk_packet PTest (GInt KInt 8);
                               mk_packet PLogin (GStruct LoginPacket [GString "a"; GString "b"])]) ++ [])
  = (map Ok [mk_packet PTest (GInt KInt 8); mk_packet PLogin (GStruct LoginPacket [GString "a"; GString "b"])], []).
Proof.
  assert (H : Forall (fun p => sendable startup (Id p) (Obj p))
                [mk_packet PTest (GInt KInt 8); mk_packet PLogin (GStruct LoginPacket [GString "a"; GString "b"])])
    by (repeat (apply List.Forall_cons; [apply sendableb_sendable; vm_compute; reflexivity|]); apply List.Forall_nil).
  split; [exact H|]. exact (proj2 (Encode_all_Decode_n _ [] [] _ H)).
Defined.

End Codec.
