(* ===== verification/PacketTest.v ===== *)
(** * The packet tests (src/packet/packet_test.go)

    The five tests of the packet package, run against the model of the
    codec: each test is a function of the registry returning whether it
    passes ([t.Fatal] is [false]); [TestPrimitive] also returns the registry
    it leaves, since it assigns [PacketMap[PTest]] for every case and
    [PacketMap] is global.  [go_test] runs them in file order. *)

From stdpp Require Import base list gmap strings.
From Stdlib Require Import ZArith Lia Strings.Byte.
From S2P Require Import Prelude Msgpack Types Frame Registry Codec.

Local Open Scope Z_scope.
Import Msgpack Types Frame Registry Codec.

Module PacketTest.

(** ** TestPrimitive *)

(** [m := map[string]int{"test": 234}], lines 11-12. *)
Definition TestPrimitive_m : gval := GMap (TMap (TInt KInt)) [("test", GInt KInt 234)].

(** [testCase], lines 13-15; [float32(32.342)] and [float64(-3321.34)] as
    their IEEE-754 bit patterns. *)
Definition TestPrimitive_cases : list gval :=
  [GInt KInt 8; GInt KInt (-1); GInt KUint8 3; GInt KInt32 43; GInt KInt64 1435435345;
   GFloat32 1107385909; GFloat64 13882894155828093256;
   GArray (TArray 3 (TInt KInt)) [GInt KInt 2; GInt KInt 3; GInt KInt 1];
   TestPrimitive_m].

(** One iteration of the loop, lines 18-41: register the case's type for
    [PTest], encode on a fresh buffer, decode from it, compare the id and
    the object with [reflect.DeepEqual]. *)
Definition TestPrimitive_iter (reg : registry) (v : gval) : registry * bool :=
  let reg' := match type_of v with Some t => set_type PTest t reg | None => reg end in
  match Encode reg' [] PTest v with
  | Err _ => (reg', false)
  | Ok buf =>
      match Decode reg' buf with
      | (Ok pkt, _) => (reg', Z.eqb (Id pkt) PTest && deep_equal v (Obj pkt))
      | (Err _, _) => (reg', false)
      end
  end.

(** Run the iterations in order, stopping at the first failure. *)
Fixpoint run_until_fail (step : registry -> gval -> registry * bool) (reg : registry)
  (l : list gval) : registry * bool :=
  match l with
  | [] => (reg, true)
  | v :: l' => let '(reg', ok) := step reg v in if ok then run_until_fail step reg' l' else (reg', false)
  end.

Definition TestPrimitive (reg : registry) : registry * bool :=
  run_until_fail TestPrimitive_iter reg TestPrimitive_cases.

(** ** TestStruct and TestExport *)

(** [LoginPacket{Username: "genius", Password: "0101001"}], lines 48-51. *)
Definition TestStruct_obj : gval := GStruct LoginPacket [GString "genius"; GString "0101001"].

(** The record field [f] of [v] holds [x]. *)
Definition field_is (v : gval) (f : string) (x : gval) : bool :=
  match field v f with Some y => deep_equal y x | None => false end.

(** Lines 53-72: encode, decode, assert the type [LoginPacket], compare
    the fields. *)
Definition TestStruct (reg : registry) : bool :=
  match Encode reg [] PLogin TestStruct_obj with
  | Err _ => false
  | Ok buf =>
      match Decode reg buf with
      | (Ok pkt, _) =>
          bool_decide (type_of (Obj pkt) = Some LoginPacket)
          && field_is (Obj pkt) "Username" (GString "genius")
          && field_is (Obj pkt) "Password" (GString "0101001")
      | (Err _, _) => false
      end
  end.

(** Lines 76-91: [Write] then [Read]; only errors fail. *)
Definition TestExport (reg : registry) : bool :=
  match Write reg [] PLogin TestStruct_obj with
  | Err _ => false
  | Ok buf => match Read reg buf with (Ok _, _) => true | (Err _, _) => false end
  end.

(** ** TestType *)

(** Lines 95-111: for every entry of [PacketMap] but [PMax], write the zero
    value of its type on the shared buffer, read it back and compare the
    type of what was read with the entry's. *)
Fixpoint TestType_loop (reg : registry) (entries : list (Z * gtype)) (buf : list byte) : bool :=
  match entries with
  | [] => true
  | (k, v) :: es =>
      if bool_decide (k = PMax) then TestType_loop reg es buf
      else match Write reg buf k (zero v) with
           | Err _ => false
           | Ok buf' =>
               match Read reg buf' with
               | (Ok pkt, buf'') => bool_decide (type_of pkt = Some v) && TestType_loop reg es buf''
               | (Err _, _) => false
               end
           end
  end.

Definition TestType (reg : registry) : bool := TestType_loop reg (map_to_list (PacketMap reg)) [].

(** ** TestMap *)

(** [pkt := PlayerInfoPacket{...}], lines 116-122. *)
Definition TestMap_pkt : gval :=
  GMap PlayerInfoPacket
    [("scene", GNil); ("mp", GNil); ("hp", GNil); ("name", GNil); ("speed", GNil); ("pos", GNil)].

(** The literal frame [in], line 131. *)
Definition TestMap_in : list byte :=
  map byte_of [0; 0; 0; 35; PPlayerInfo; 134; 162; 104; 112; 192; 164; 110; 97; 109; 101; 192;
               165; 115; 112; 101; 101; 100; 192; 163; 112; 111; 115; 192; 165; 115; 99; 101;
               110; 101; 192; 162; 109; 112; 192].

(** Lines 115-139: write [pkt], then read the literal frame and assert the
    type [PlayerInfoPacket]. *)
Definition TestMap (reg : registry) : bool :=
  match Write reg [] PPlayerInfo TestMap_pkt with
  | Err _ => false
  | Ok _ =>
      match Read reg TestMap_in with
      | (Ok val, _) => bool_decide (type_of val = Some PlayerInfoPacket)
      | (Err _, _) => false
      end
  end.

(** ** The test run *)

(** [go test] runs the tests in file order on the one global registry. *)
Definition go_test (reg : registry) : bool :=
  let '(reg1, ok1) := TestPrimitive reg in
  ok1 && TestStruct reg1 && TestExport reg1 && TestType reg1 && TestMap reg1.

(** ** Properties *)

(** One iteration of [TestPrimitive] on a conforming value: the value
    comes back as it was sent, so the iteration's verdict is whether
    [reflect.DeepEqual] finds the value equal to itself. *)
Lemma TestPrimitive_iter_result (reg : registry) (v : gval) (t : gtype) :
  type_of v = Some t -> conforms v t = true ->
  1 + Z.of_nat (length (encode (to_obj v))) <= max_len ->
  TestPrimitive_iter reg v = (set_type PTest t reg, deep_equal v v).
Proof.
  intros Ht Hc Hl. unfold TestPrimitive_iter. rewrite Ht.
  assert (Hs : sendable (set_type PTest t reg) PTest v).
  { split; [done|]. split; [done|]. exists t. by rewrite set_type_lookup, decide_True. }
  rewrite sendable_Encode by done. rewrite app_nil_l, <- (app_nil_r (frame_bytes _ _)).
  rewrite (Decode_packet_frame _ (mk_packet PTest v)) by done. cbn [Id Obj].
  by rewrite Z.eqb_refl.
Qed.

(** C2: Every iteration of [TestPrimitive]'s loop passes, not only on the
    nine cases of the file: any value that conforms to its own type, fits
    in a frame and holds no NaN is encoded under [PTest], decoded with id
    [PTest] and found [reflect.DeepEqual] to the original. *)
Theorem TestPrimitive_iter_passes (reg : registry) (v : gval) (t : gtype) :
  type_of v = Some t -> conforms v t = true ->
  1 + Z.of_nat (length (encode (to_obj v))) <= max_len -> nan_free v = true ->
  TestPrimitive_iter reg v = (set_type PTest t reg, true).
Proof. intros Ht Hc Hl Hn. rewrite (TestPrimitive_iter_result reg v t Ht Hc Hl). by rewrite (deep_equal_refl v t). Qed.

(** C3: An iteration fails on every conforming value that holds a NaN,
    although the codec gives back the same bits: [reflect.DeepEqual]
    compares floats with [==], and a NaN is not equal to itself. *)
Theorem TestPrimitive_iter_nan (reg : registry) (v : gval) (t : gtype) :
  type_of v = Some t -> conforms v t = true ->
  1 + Z.of_nat (length (encode (to_obj v))) <= max_len -> nan_free v = false ->
  TestPrimitive_iter reg v = (set_type PTest t reg, false).
Proof. intros Ht Hc Hl Hn. rewrite (TestPrimitive_iter_result reg v t Ht Hc Hl). by rewrite deep_equal_nan. Qed.

(** Writing then reading the zero value of a registered type gives a value
    of exactly that type and leaves the shared buffer empty. *)
Lemma Write_Read_zero (reg : registry) (k : Z) (t : gtype) :
  lookup reg k = Some t -> id_ok k = true -> wf_type t = true -> is_iface t = false ->
  1 + Z.of_nat (length (encode (to_obj (zero t)))) <= max_len ->
  exists buf, Write reg [] k (zero t) = Ok buf /\ Read reg buf = (Ok (zero t), [])
              /\ type_of (zero t) = Some t.
Proof.
  intros Hk Hid Hwf Hi Hl. pose proof (zero_conforms t Hwf) as Hc.
  assert (Hs : sendable reg k (zero t)) by (split; [done|]; split; [done|]; by exists t).
  eexists. split; [by apply sendable_Encode|]. split.
  - unfold Read. rewrite app_nil_l, <- (app_nil_r (frame_bytes _ _)).
    by rewrite (Decode_packet_frame _ (mk_packet k (zero t))).
  - eapply of_obj_type; [done|done|]. by apply of_obj_roundtrip.
Qed.

(** C17: Registry completeness: [TestType] passes on every well-formed
    registry whose entries other than [PMax] are not interfaces and whose
    zero values fit in a frame. *)
Theorem TestType_complete (reg : registry) :
  wf_registry reg ->
  (forall k t, lookup reg k = Some t -> k <> PMax ->
     is_iface t = false /\ 1 + Z.of_nat (length (encode (to_obj (zero t)))) <= max_len) ->
  TestType reg = true.
Proof.
  intros Hwf Hall. unfold TestType.
  assert (Hl : forall k t, (k, t) ∈ map_to_list (PacketMap reg) -> lookup reg k = Some t)
    by (intros k t; apply elem_of_map_to_list).
  induction (map_to_list (PacketMap reg)) as [|[k t] es IH]; [done|]. cbn [TestType_loop].
  assert (IH' : TestType_loop reg es [] = true) by (apply IH; intros; apply Hl; set_solver).
  case_bool_decide; [done|].
  assert (Hk : lookup reg k = Some t) by (apply Hl; set_solver).
  destruct (Hwf _ _ Hk) as [Hid Hwt]. destruct (Hall _ _ Hk ltac:(done)) as [Hi Hfit].
  destruct (Write_Read_zero reg k t Hk Hid Hwt Hi Hfit) as (buf & -> & -> & Ht).
  by rewrite Ht, bool_decide_eq_true_2.
Qed.

(** ** Witnesses *)

Lemma TestPrimitive_iter_passes_witness :
  type_of TestPrimitive_m = Some (TMap (TInt KInt)) /\ conforms TestPrimitive_m (TMap (TInt KInt)) = true /\
  1 + Z.of_nat (length (encode (to_obj TestPrimitive_m))) <= max_len /\
  nan_free TestPrimitive_m = true /\
  TestPrimitive_iter startup TestPrimitive_m = (set_type PTest (TMap (TInt KInt)) startup, true).
Proof.
  assert (H1 : type_of TestPrimitive_m = Some (TMap (TInt KInt))) by reflexivity.
  assert (H2 : conforms TestPrimitive_m (TMap (TInt KInt)) = true) by (vm_compute; reflexivity).
  assert (H3 : 1 + Z.of_nat (length (encode (to_obj TestPrimitive_m))) <= max_len)
    by (apply Z.leb_le; vm_compute; reflexivity).
  assert (H4 : nan_free TestPrimitive_m = true) by reflexivity.
  split; [exact H1|]. split; [exact H2|]. split; [exact H3|]. split; [exact H4|].
  exact (TestPrimitive_iter_passes _ _ _ H1 H2 H3 H4).
Defined.

(** The quiet NaN of float32, bits 0x7fc00000, under [PTest]. *)
Lemma TestPrimitive_iter_nan_witness :
  type_of (GFloat32 2143289344) = Some TFloat32 /\ conforms (GFloat32 2143289344) TFloat32 = true /\
  1 + Z.of_nat (length (encode (to_obj (GFloat32 2143289344)))) <= max_len /\
  nan_free (GFloat32 2143289344) = false /\
  TestPrimitive_iter startup (GFloat32 2143289344) = (set_type PTest TFloat32 startup, false).
Proof.
  assert (H1 : type_of (GFloat32 2143289344) = Some TFloat32) by reflexivity.
  assert (H2 : conforms (GFloat32 2143289344) TFloat32 = true) by (vm_compute; reflexivity).
  assert (H3 : 1 + Z.of_nat (length (encode (to_obj (GFloat32 2143289344)))) <= max_len)
    by (apply Z.leb_le; vm_compute; reflexivity).
  assert (H4 : nan_free (GFloat32 2143289344) = false) by (vm_compute; reflexivity).
  split; [exact H1|]. split; [exact H2|]. split; [exact H3|]. split; [exact H4|].
  exact (TestPrimitive_iter_nan _ _ _ H1 H2 H3 H4).
Defined.

Lemma startup_entries (k : Z) (t : gtype) :
  lookup startup k = Some t -> k <> PMax ->
  is_iface t = false /\ 1 + Z.of_nat (length (encode (to_obj (zero t)))) <= max_len.
Proof.
  intros H _. unfold lookup, startup, register, empty_registry in H. cbn [PacketMap] in H.
  rewrite !lookup_insert, lookup_empty in H.
  repeat case_decide; simplify_eq; (split; [reflexivity | apply Z.leb_le; vm_compute; reflexivity]).
Qed.

Lemma TestType_complete_witness :
  wf_registry startup /\
  (forall k t, lookup startup k = Some t -> k <> PMax ->
     is_iface t = false /\ 1 + Z.of_nat (length (encode (to_obj (zero t)))) <= max_len) /\
  TestType startup = true.
Proof.
  split; [exact wf_startup|]. split; [exact startup_entries|].
  exact (TestType_complete startup wf_startup startup_entries).
Defined.

End PacketTest.
