(* ===== verification/Float32.v ===== *)
(** * Go's float32 and float64 arithmetic

    [Float32] models Go's [float32] as IEEE-754 binary32 through the
    Standard Library's [SpecFloat] (precision 24, maximal exponent 128):
    every operation rounds to nearest-even, a comparison with NaN is false.
    [float64] values are binary64 ([SpecFloat] at 53, 1024); a float32
    widens to float64 exactly, and narrowing rounds.  Each operation is
    rounded on its own, as on amd64 (the Go spec also allows a fused
    multiply-add, which is not modelled).

    The lemmas are exact statements on the IEEE values, signed zeros, the
    infinities and NaN included: rounding commutes with the sign, so
    [b - a] is [-(a - b)] except when both are [+0]; a square is never
    negative, nor is a sum of non-negative values ([nonneg]). *)

From Stdlib Require Import ZArith Lia Floats.SpecFloat.

Local Open Scope Z_scope.

Module Float32.

Definition f32 : Type := spec_float.
Definition f64 : Type := spec_float.

Definition prec : Z := 24.
Definition emax : Z := 128.

Definition add (a b : f32) : f32 := SFadd prec emax a b.
Definition sub (a b : f32) : f32 := SFsub prec emax a b.
Definition mul (a b : f32) : f32 := SFmul prec emax a b.
(** [a < b]; false when either is NaN. *)
Definition lt (a b : f32) : bool := SFltb a b.

(** The float32 nearest to [m * 2^e]. *)
Definition of_frac (m e : Z) : f32 := binary_normalize prec emax m e false.

(** The float32 nearest to an integer. *)
Definition of_Z (z : Z) : f32 := of_frac z 0.

(** The float64 nearest to an integer. *)
Definition of_Z64 (z : Z) : f64 := binary_normalize 53 1024 z 0 false.

(** [float64(x)]: exact. *)
Definition to64 (x : f32) : f64 := x.

(** [float32(x)]: round a float64 to the nearest float32. *)
Definition of64 (x : f64) : f32 :=
  match x with
  | S754_finite s m e => binary_round prec emax s m e
  | _ => x
  end.

(** The sign bit is clear (or the value is NaN): the value is not below +0. *)
Definition nonneg (x : f32) : bool :=
  match x with
  | S754_nan => true
  | S754_zero s | S754_infinity s | S754_finite s _ _ => negb s
  end.

(** ** Rounding and the sign *)

Lemma binary_round_aux_opp (s : bool) (m e : Z) (l : location) :
  binary_round_aux prec emax (negb s) m e l = SFopp (binary_round_aux prec emax s m e l).
Proof.
  unfold binary_round_aux.
  destruct (shr_fexp prec emax m e l) as [r1 e1].
  destruct (shr_fexp prec emax _ e1 loc_Exact) as [r2 e2].
  destruct (shr_m r2); [reflexivity| |reflexivity]. destruct (e2 <=? emax - prec); reflexivity.
Qed.

Lemma binary_round_opp (s : bool) (m : positive) (e : Z) :
  binary_round prec emax (negb s) m e = SFopp (binary_round prec emax s m e).
Proof. unfold binary_round. destruct (shl_align _ _ _). apply binary_round_aux_opp. Qed.

Lemma binary_normalize_opp (m e : Z) :
  m <> 0 -> binary_normalize prec emax (- m) e false = SFopp (binary_normalize prec emax m e false).
Proof.
  destruct m as [|p|p]; intros Hm; [contradiction| |]; cbn [Z.opp binary_normalize].
  - exact (binary_round_opp false p e).
  - exact (binary_round_opp true p e).
Qed.

(** [b - a] is [-(a - b)], or both are the same value ([+0] or NaN). *)
Lemma sub_anti (a b : f32) : sub b a = SFopp (sub a b) \/ sub b a = sub a b.
Proof.
  destruct a as [sa|sa| |sa ma ea], b as [sb|sb| |sb mb eb]; try destruct sa; try destruct sb;
    try (left; reflexivity); try (right; reflexivity).
  all: unfold sub, SFsub; rewrite (Z.min_comm eb ea);
    set (A := cond_Zopp _ (Zpos (fst (shl_align ma ea (Z.min ea eb)))));
    set (B := cond_Zopp _ (Zpos (fst (shl_align mb eb (Z.min ea eb))))).
  all: destruct (Z.eq_dec (A - B) 0) as [E|E];
    [right; replace (B - A) with (A - B) by lia; reflexivity
    |left; replace (B - A) with (- (A - B)) by lia; apply binary_normalize_opp, E].
Qed.

Lemma mul_opp_opp (x : f32) : mul (SFopp x) (SFopp x) = mul x x.
Proof. destruct x as [[]|[]| |[] m e]; reflexivity. Qed.

(** ** Signs of squares and sums *)

Lemma nonneg_round_aux (m e : Z) (l : location) : nonneg (binary_round_aux prec emax false m e l) = true.
Proof.
  unfold binary_round_aux.
  destruct (shr_fexp prec emax m e l) as [r1 e1].
  destruct (shr_fexp prec emax _ e1 loc_Exact) as [r2 e2].
  destruct (shr_m r2); [reflexivity| |reflexivity]. destruct (e2 <=? emax - prec); reflexivity.
Qed.

Lemma nonneg_round (m : positive) (e : Z) : nonneg (binary_round prec emax false m e) = true.
Proof. unfold binary_round. destruct (shl_align _ _ _). apply nonneg_round_aux. Qed.

Lemma nonneg_mul_self (x : f32) : nonneg (mul x x) = true.
Proof. destruct x as [[]|[]| |[] m e]; try reflexivity; apply nonneg_round_aux. Qed.

Lemma nonneg_add (x y : f32) : nonneg x = true -> nonneg y = true -> nonneg (add x y) = true.
Proof.
  destruct x as [[]|[]| |[] mx ex], y as [[]|[]| |[] my ey]; cbn [nonneg negb]; intros Hx Hy;
    try discriminate; try reflexivity.
  apply nonneg_round.
Qed.

(** A non-negative value is not below a speed that is not above +0. *)
Lemma lt_nonneg (d v : f32) : nonneg d = true -> lt (of_Z 0) v = false -> lt d v = false.
Proof.
  destruct d as [[]|[]| |[] md ed], v as [[]|[]| |[] mv ev]; cbn [nonneg negb]; intros Hd Hv;
    try discriminate; try reflexivity; discriminate Hv.
Qed.

End Float32.
