(* ===== verification/Utils.v ===== *)
(** * Geometry and errors (src/utils.go), with Go's float32 arithmetic

    Go's float32 arithmetic is that of [Float32] (Float32.v).

    [Utils] holds the structs of utils.go, [Distance], the [Error] type with
    its [Error()] method and [NewError], whose call-site lookup
    ([runtime.Caller(1)]) is an input: [Some (file, line)] or [None] when
    the lookup fails.  [has_char] and the separator lemmas show that the
    string [Error()] prints determines the error when its message has no
    newline. *)

From Stdlib Require Import ZArith Lia Floats.SpecFloat DecimalString DecimalZ String Ascii.
From S2P Require Import Prelude Float32.

Local Open Scope Z_scope.
Local Open Scope string_scope.

Module Utils.
Import Float32.

(** ** The structs *)

Record Rect := mk_rect { RX : f32; RY : f32; RW : f32; RH : f32 }.

Record Point := mk_point { PX : Z; PY : Z }.

Record FPoint := mk_fpoint { FX : f32; FY : f32 }.

(** [Distance(p1, p2)]: the SQUARED euclidean distance, [dx*dx + dy*dy]. *)
Definition Distance (p1 p2 : FPoint) : f32 :=
  let dx := sub (FX p1) (FX p2) in
  let dy := sub (FY p1) (FY p2) in
  add (mul dx dx) (mul dy dy).

(** ** Errors *)

Record Error := mk_error { e : string; file : string; line : Z }.

(** [strconv.Itoa]: decimal digits, with a minus sign when negative. *)
Definition Itoa (n : Z) : string := NilEmpty.string_of_int (Z.to_int n).

(** [strconv.Atoi], the inverse reading. *)
Definition Atoi (s : string) : option Z := option_map Z.of_int (NilEmpty.int_of_string s).

Definition newline : string := String (ascii_of_nat 10) EmptyString.

(** The [Error()] method of [Error], lines 37-39. *)
Definition Error_Error (err : Error) : string :=
  e err ++ newline ++ "at " ++ file err ++ ":" ++ Itoa (line err).

(** [NewError(str)], lines 41-51: the file and line of the caller when the
    lookup succeeds, the zero values otherwise. *)
Definition NewError (str : string) (caller : option (string * Z)) : Error :=
  match caller with
  | Some (f, l) => mk_error str f l
  | None => mk_error str "" 0
  end.

(** Whether a string contains a character. *)
Fixpoint has_char (c : ascii) (s : string) : bool :=
  match s with
  | EmptyString => false
  | String c' s' => orb (Ascii.eqb c c') (has_char c s')
  end.

Definition newline_char : ascii := ascii_of_nat 10.
Definition colon_char : ascii := ":".

(** ** Lemmas on [Distance] *)

(** [dx * dx] is the same for [p1.X - p2.X] and [p2.X - p1.X]. *)
Lemma mul_sub_self_comm (a b : f32) : mul (sub a b) (sub a b) = mul (sub b a) (sub b a).
Proof. destruct (sub_anti a b) as [-> | ->]; [symmetry; apply mul_opp_opp | reflexivity]. Qed.

(** [Distance] is never below +0 (it may be NaN). *)
Lemma Distance_nonneg (p1 p2 : FPoint) : nonneg (Distance p1 p2) = true.
Proof. unfold Distance. apply nonneg_add; apply nonneg_mul_self. Qed.

(** ** Lemmas on separators *)

Lemma has_char_app (c : ascii) (a b : string) :
  has_char c (a ++ b) = orb (has_char c a) (has_char c b).
Proof. induction a as [|x a IH]; simpl; [reflexivity|]. rewrite IH. apply Bool.orb_assoc. Qed.

Lemma has_char_sep (c : ascii) (a b : string) : has_char c (a ++ String c b) = true.
Proof. rewrite has_char_app. cbn. rewrite Ascii.eqb_refl, Bool.orb_true_r. reflexivity. Qed.

(** Splitting at the first separator: the parts before it contain none. *)
Lemma sep_first (c : ascii) (l1 l2 k1 k2 : string) :
  has_char c l1 = false -> has_char c k1 = false ->
  l1 ++ String c l2 = k1 ++ String c k2 -> l1 = k1 /\ l2 = k2.
Proof.
  revert k1. induction l1 as [|x l1 IH]; intros [|y k1] Hl Hk H; simpl in *.
  - injection H as ->. split; reflexivity.
  - injection H as -> _. rewrite Ascii.eqb_refl in Hk. discriminate.
  - injection H as <- _. rewrite Ascii.eqb_refl in Hl. discriminate.
  - injection H as -> H. apply Bool.orb_false_elim in Hl as [_ Hl]. apply Bool.orb_false_elim in Hk as [_ Hk].
    destruct (IH k1 Hl Hk H) as [-> ->]. split; reflexivity.
Qed.

(** Splitting at the last separator: the parts after it contain none. *)
Lemma sep_last (c : ascii) (l1 l2 k1 k2 : string) :
  has_char c l2 = false -> has_char c k2 = false ->
  l1 ++ String c l2 = k1 ++ String c k2 -> l1 = k1 /\ l2 = k2.
Proof.
  revert k1. induction l1 as [|x l1 IH]; intros [|y k1] Hl Hk H; simpl in *.
  - injection H as ->. split; reflexivity.
  - injection H as _ ->. rewrite has_char_sep in Hl. discriminate.
  - injection H as _ <-. rewrite has_char_sep in Hk. discriminate.
  - injection H as -> H. destruct (IH k1 Hl Hk H) as [-> ->]. split; reflexivity.
Qed.

Lemma str_append_assoc (a b c : string) : (a ++ b) ++ c = a ++ (b ++ c).
Proof. induction a as [|x a IH]; [reflexivity|]. exact (f_equal (String x) IH). Qed.

Lemma str_append_neq (a b : string) (x : ascii) : a ++ String x b <> a.
Proof.
  induction a as [|y a IH]; intros H; [discriminate H|].
  change (String y (a ++ String x b) = String y a) in H. injection H as H. exact (IH H).
Qed.

(** [strconv.Itoa] prints every int so that it reads back. *)
Lemma Itoa_Atoi (n : Z) : Atoi (Itoa n) = Some n.
Proof. unfold Atoi, Itoa. rewrite NilEmpty.isi. cbn. rewrite DecimalZ.of_to. reflexivity. Qed.

Lemma Itoa_inj (a b : Z) : Itoa a = Itoa b -> a = b.
Proof. intros H. apply (f_equal Atoi) in H. rewrite !Itoa_Atoi in H. injection H as ->. reflexivity. Qed.

(** The digits and sign [strconv.Itoa] prints contain no colon. *)
Lemma Itoa_no_colon (n : Z) : has_char colon_char (Itoa n) = false.
Proof.
  unfold Itoa, NilEmpty.string_of_int. destruct (Z.to_int n) as [d|d]; cbn;
    induction d; cbn; assumption || reflexivity.
Qed.

(** ** Properties *)

(** C19: [Error()] is injective on errors whose message has no newline:
    the string it prints determines the message, the file and the line,
    since the message ends at the first newline and the line starts after
    the last colon ([strconv.Itoa] prints no colon and reads back). *)
Theorem Error_Error_inj (err1 err2 : Error) :
  has_char newline_char (e err1) = false -> has_char newline_char (e err2) = false ->
  Error_Error err1 = Error_Error err2 -> err1 = err2.
Proof.
  destruct err1 as [e1 f1 l1], err2 as [e2 f2 l2]. unfold Error_Error, newline. cbn [e file line].
  intros H1 H2 H. cbn [append] in H. apply sep_first in H as [-> H]; [|exact H1|exact H2].
  cbn in H. injection H as H. apply sep_last in H as [-> H]; [|apply Itoa_no_colon..].
  apply Itoa_inj in H. subst. reflexivity.
Qed.

(** C20: [Distance] is symmetric, exactly, on every float32 input (signed
    zeros, infinities and NaN included): IEEE rounding commutes with the
    sign, so [p2.X - p1.X] is [-(p1.X - p2.X)] or the same [+0], and the
    squares agree. *)
Theorem Distance_comm (p1 p2 : FPoint) : Distance p1 p2 = Distance p2 p1.
Proof. unfold Distance. rewrite (mul_sub_self_comm (FX p1)), (mul_sub_self_comm (FY p1)). reflexivity. Qed.

(** C28: [Error()] does not separate the message from the location
    unambiguously: for all strings [a], [b], [c] and every line, the error
    with message [a ++ "\nat " ++ b] in file [c] prints exactly as the
    error with message [a] in file [b ++ "\nat " ++ c], though the two
    errors differ. *)
Theorem Error_Error_ambiguous (a b c : string) (l : Z) :
  Error_Error (mk_error (a ++ newline ++ "at " ++ b) c l) = Error_Error (mk_error a (b ++ newline ++ "at " ++ c) l)
  /\ mk_error (a ++ newline ++ "at " ++ b) c l <> mk_error a (b ++ newline ++ "at " ++ c) l.
Proof.
  split.
  - unfold Error_Error. cbn [e file line]. rewrite !str_append_assoc. reflexivity.
  - intros H. injection H as H _. change (a ++ String (ascii_of_nat 10) ("at " ++ b) = a) in H.
    exact (str_append_neq _ _ _ H).
Qed.

(** ** Witnesses *)

Lemma Error_Error_inj_witness :
  has_char newline_char "boom" = false /\ has_char newline_char "boom" = false /\
  Error_Error (mk_error "boom" "map.go" 44) = Error_Error (mk_error "boom" "map.go" 44) /\
  mk_error "boom" "map.go" 44 = mk_error "boom" "map.go" 44.
Proof.
  assert (H : has_char newline_char "boom" = false) by reflexivity.
  split; [exact H|]. split; [exact H|]. split; [reflexivity|].
  exact (Error_Error_inj (mk_error "boom" "map.go" 44) (mk_error "boom" "map.go" 44) H H eq_refl).
Defined.

End Utils.
