(* ===== verification/Scene.v ===== *)
(** * The scene (src/scene/map.go)

    A [Map] holds the pointers of the players logged into it, in login
    order.  Players are shared objects ([*player.Player]): the scene
    mutates them in place, and the same player may be reachable from more
    than one slot.  So the state is a heap from pointers to player records
    ([gmap ptr Player]) beside the [Map], and [Login] and [HeartBeat] are
    state transformers on both; a dereference of a pointer outside the heap
    is Go's nil-pointer panic and gives [None].

    The player record holds the fields the scene reads and writes; the
    [player] package is not under src/, so its fields and [Speed()] are
    taken from their use here.  [math.Atan2], [math.Cos] and [math.Sin] are
    parameters of [HeartBeat] (a Section), since the float64 library is not
    part of the program; the theorems that need their values assume them at
    the points used.  The [aoi], [quit], [event] and [heartbeat] channels
    are created by [New] and never used by this file: they are not
    modelled.  [scene_step] is the life of a scene (allocations, logins of
    new players, heartbeats) and [scene_reachable] its runs from [New d];
    the Section [Preserve] lifts a property of player records that every
    event keeps to whole runs. *)

From stdpp Require Import base list gmap strings.
From Stdlib Require Import ZArith Lia.
From S2P Require Import Prelude Float32 Utils.

Local Open Scope Z_scope.
Import Float32 Utils.

Module Scene.

(** ** Players *)

Inductive PState := STAND | MOVE.

#[export] Instance PState_eq_dec : EqDecision PState.
Proof. solve_decision. Defined.

Record Player := mk_player {
  Id : Z;            (** uint32 *)
  Scene : string;
  State : PState;
  Pos : FPoint;
  To : FPoint;
  speed : f32
}.

(** [pc.Speed()]. *)
Definition Speed (p : Player) : f32 := speed p.

Definition set_Id (i : Z) (p : Player) : Player :=
  mk_player i (Scene p) (State p) (Pos p) (To p) (speed p).
Definition set_Scene (s : string) (p : Player) : Player :=
  mk_player (Id p) s (State p) (Pos p) (To p) (speed p).
Definition set_State (st : PState) (p : Player) : Player :=
  mk_player (Id p) (Scene p) st (Pos p) (To p) (speed p).
Definition set_Pos (q : FPoint) (p : Player) : Player :=
  mk_player (Id p) (Scene p) (State p) q (To p) (speed p).

(** Pointers and the heap they point into. *)
Abbreviation ptr := positive.
Abbreviation heap := (gmap ptr Player).

(** ** The map *)

(** [data.Map], embedded: its [Title]. *)
Record data_Map := mk_data_map { data_Title : string }.

Record Map := mk_map {
  Title : string;          (** from the embedded [data.Map] *)
  players : list ptr
}.

(** [New(m)], lines 22-31: the argument is not used, so the embedded
    [data.Map] is the zero value; the player slice starts empty. *)
Definition New (_ : data_Map) : Map := mk_map "" [].

Definition uint32 (z : Z) : Z := z mod 2 ^ 32.

(** [m.Player(playerId)], lines 33-38: [None] is the nil pointer. *)
Definition Map_Player (m : Map) (playerId : Z) : option ptr :=
  if uint32 (Z.of_nat (length (players m))) <=? playerId then None
  else players m !! Z.to_nat playerId.

Section HeartBeat.
Context (atan2 : f64 -> f64 -> f64) (cos sin : f64 -> f64).

(** One iteration of the loop of [HeartBeat], lines 42-57. *)
Definition heartbeat_one (pc : Player) : Player :=
  match State pc with
  | STAND => pc
  | MOVE =>
      let v := Speed pc in
      if lt (Distance (Pos pc) (To pc)) v then
        set_Pos (mk_fpoint (FX (To pc)) (FY (To pc))) (set_State STAND pc)
      else
        let dx := sub (FX (To pc)) (FX (Pos pc)) in
        let dy := sub (FY (To pc)) (FY (Pos pc)) in
        let angle := atan2 (to64 dy) (to64 dx) in
        let vx := mul v (of64 (cos angle)) in
        let vy := mul v (of64 (sin angle)) in
        set_Pos (mk_fpoint (add (FX (Pos pc)) vx) (add (FY (Pos pc)) vy)) pc
  end.

(** Update the player a pointer designates. *)
Definition heap_update (f : Player -> Player) (h : heap) (pc : ptr) : option heap :=
  match h !! pc with
  | Some p => Some (<[pc := f p]> h)
  | None => None
  end.

Fixpoint update_all (f : Player -> Player) (h : heap) (pcs : list ptr) : option heap :=
  match pcs with
  | [] => Some h
  | pc :: pcs' => match heap_update f h pc with Some h' => update_all f h' pcs' | None => None end
  end.

(** [m.HeartBeat()], lines 40-60: every slot in order, each through the
    heap, so a player in two slots moves twice. *)
Definition HeartBeat (h : heap) (m : Map) : option heap :=
  update_all heartbeat_one h (players m).

End HeartBeat.

(** [m.Login(player)], lines 62-69: append the pointer, then set the
    player's [Id] to its slot (as a uint32) and its [Scene] to the title;
    the error is always nil. *)
Definition Login (h : heap) (m : Map) (pc : ptr) : option (heap * Map) :=
  let idx := length (players m) in
  let m' := mk_map (Title m) (players m ++ [pc]) in
  match heap_update (fun p => set_Scene (Title m) (set_Id (uint32 (Z.of_nat idx)) p)) h pc with
  | Some h' => Some (h', m')
  | None => None
  end.

(** ** Sample players *)

(** A player moving from (0,0) towards (1.5,0) at speed 2. *)
Definition runner : Player :=
  mk_player 0 "" MOVE (mk_fpoint (of_Z 0) (of_Z 0)) (mk_fpoint (of_frac 3 (-1)) (of_Z 0)) (of_Z 2).

(** The runner alone in the heap, not logged in. *)
Definition solo_heap : heap := {[1%positive := runner]}.

(** A scene with the runner logged in at slot 0. *)
Definition sample_heap : heap := {[1%positive := set_Id 0 runner]}.
Definition sample_map : Map := mk_map "" [1%positive].

(** A player told to move to where it stands, with speed 0. *)
Definition parked : Player :=
  mk_player 0 "" MOVE (mk_fpoint (of_Z 0) (of_Z 0)) (mk_fpoint (of_Z 0) (of_Z 0)) (of_Z 0).

(** ** Invariant: distinct players, each knowing its slot and scene *)

Definition wf_scene (h : heap) (m : Map) : Prop :=
  NoDup (players m) /\ Z.of_nat (length (players m)) < 2 ^ 32 /\
  forall i pc, players m !! i = Some pc ->
    exists p, h !! pc = Some p /\ Id p = Z.of_nat i /\ Scene p = Title m.

(** ** The life of a scene

    The program around the scene creates players (the [player] package
    allocates them: a fresh pointer, arbitrary fields), logs them in and
    ticks the heartbeat.  [scene_step] is one of these events.  [Login]
    is taken only under the two conditions its callers must ensure, as
    [Login] checks neither: the player is not logged in yet
    ([Login_twice_alias] shows what happens otherwise) and the scene has
    room for its [Id] as a uint32 ([Login_Id_wrap]). *)
Section Run.
Context (atan2 : f64 -> f64 -> f64) (cos sin : f64 -> f64).

Inductive scene_step : heap * Map -> heap * Map -> Prop :=
  | scene_new_player (h : heap) (m : Map) (pc : ptr) (p : Player) :
      h !! pc = None -> scene_step (h, m) (<[pc := p]> h, m)
  | scene_login (h h' : heap) (m m' : Map) (pc : ptr) :
      pc ∉ players m -> Z.of_nat (length (players m)) + 1 < 2 ^ 32 ->
      Login h m pc = Some (h', m') -> scene_step (h, m) (h', m')
  | scene_heartbeat (h h' : heap) (m : Map) :
      HeartBeat atan2 cos sin h m = Some h' -> scene_step (h, m) (h', m).

(** The states of a scene made by [New d] beside a heap [h0]. *)
Definition scene_reachable (h0 : heap) (d : data_Map) (st : heap * Map) : Prop :=
  rtc scene_step (h0, New d) st.
End Run.

(** ** Lemmas on the heap *)

Lemma heap_update_Some (f : Player -> Player) (h : heap) (pc : ptr) (p : Player) :
  h !! pc = Some p -> heap_update f h pc = Some (<[pc := f p]> h).
Proof. unfold heap_update. by intros ->. Qed.

(** Updating a list of distinct pointers, all allocated, succeeds and
    applies [f] once to each of them. *)
Lemma update_all_spec (f : Player -> Player) (h : heap) (pcs : list ptr) :
  NoDup pcs -> (forall pc, pc ∈ pcs -> is_Some (h !! pc)) ->
  exists h', update_all f h pcs = Some h' /\
    forall q, h' !! q = if decide (q ∈ pcs) then f <$> h !! q else h !! q.
Proof.
  revert h. induction pcs as [|pc pcs IH]; intros h Hnd Hal; cbn [update_all].
  - exists h. split; [done|]. intros q. by rewrite decide_False by set_solver.
  - apply NoDup_cons in Hnd as [Hni Hnd].
    destruct (Hal pc ltac:(set_solver)) as [p Hp]. rewrite (heap_update_Some _ _ _ p Hp).
    destruct (IH (<[pc := f p]> h)) as (h' & -> & Hh'); [done| |].
    { intros q Hq. rewrite lookup_insert. case_decide; [done|]. apply Hal. set_solver. }
    exists h'. split; [done|]. intros q. rewrite Hh', lookup_insert.
    destruct (decide (pc = q)) as [<-|Hne].
    + rewrite decide_False, decide_True by set_solver. by rewrite Hp.
    + destruct (decide (q ∈ pcs)); [by rewrite decide_True by set_solver|].
      by rewrite decide_False by set_solver.
Qed.

Lemma heartbeat_one_To_speed atan2 cos sin (p : Player) :
  To (heartbeat_one atan2 cos sin p) = To p /\ speed (heartbeat_one atan2 cos sin p) = speed p.
Proof. unfold heartbeat_one. by repeat case_match. Qed.

(** With a speed that is not above +0, the squared distance, never below
    +0, is never below the speed: the player is never stopped. *)
Lemma heartbeat_one_stalled atan2 cos sin (p : Player) :
  State p = MOVE -> lt (of_Z 0) (Speed p) = false -> State (heartbeat_one atan2 cos sin p) = MOVE.
Proof.
  intros Hs Hv. unfold heartbeat_one. by rewrite Hs, (lt_nonneg _ _ (Distance_nonneg _ _) Hv).
Qed.

Lemma heartbeat_one_Id_Scene atan2 cos sin (p : Player) :
  Id (heartbeat_one atan2 cos sin p) = Id p /\ Scene (heartbeat_one atan2 cos sin p) = Scene p.
Proof. unfold heartbeat_one. by repeat case_match. Qed.

Lemma wf_scene_allocated (h : heap) (m : Map) (pc : ptr) :
  wf_scene h m -> pc ∈ players m -> is_Some (h !! pc).
Proof.
  intros (_ & _ & Hp) (i & Hi)%list_elem_of_lookup. destruct (Hp i pc Hi) as (p & ? & _). by exists p.
Qed.

Lemma uint32_small (z : Z) : 0 <= z < 2 ^ 32 -> uint32 z = z.
Proof. unfold uint32. intros. by apply Z.mod_small. Qed.

Lemma length_lt_lookup (l : list ptr) (i : Z) :
  0 <= i -> Z.of_nat (length l) <= i -> l !! Z.to_nat i = None.
Proof. intros. apply lookup_ge_None_2. lia. Qed.

Lemma Map_Player_lookup (m : Map) (i : Z) :
  Z.of_nat (length (players m)) < 2 ^ 32 -> 0 <= i -> Map_Player m i = players m !! Z.to_nat i.
Proof.
  intros Hl Hi. unfold Map_Player. rewrite uint32_small by lia.
  destruct (Z.leb_spec (Z.of_nat (length (players m))) i); [|done]. by rewrite length_lt_lookup.
Qed.

Lemma HeartBeat_lookup atan2 cos sin (h : heap) (m : Map) :
  wf_scene h m -> exists h', HeartBeat atan2 cos sin h m = Some h' /\
    forall q, h' !! q = if decide (q ∈ players m) then heartbeat_one atan2 cos sin <$> h !! q else h !! q.
Proof.
  intros Hwf. apply update_all_spec; [apply Hwf|]. intros pc. by apply wf_scene_allocated.
Qed.

Lemma HeartBeat_wf atan2 cos sin (h h' : heap) (m : Map) :
  wf_scene h m ->
  (forall q, h' !! q = if decide (q ∈ players m) then heartbeat_one atan2 cos sin <$> h !! q else h !! q) ->
  wf_scene h' m.
Proof.
  intros (Hnd & Hlen & Hp) Hq. split; [done|]. split; [done|]. intros i pc Hi.
  destruct (Hp i pc Hi) as (p & Hpc & HId & HSc). exists (heartbeat_one atan2 cos sin p).
  rewrite Hq, decide_True, Hpc by (eapply list_elem_of_lookup_2; eauto).
  destruct (heartbeat_one_Id_Scene atan2 cos sin p). split; [done|]. split; congruence.
Qed.

(** Logging a new allocated player into a well-formed scene with room for
    it keeps the scene well formed, and [m.Player] at the player's new
    [Id] returns it. *)
Lemma Login_wf (h : heap) (m : Map) (pc : ptr) :
  wf_scene h m -> pc ∉ players m -> is_Some (h !! pc) ->
  Z.of_nat (length (players m)) + 1 < 2 ^ 32 ->
  exists h' m', Login h m pc = Some (h', m') /\ wf_scene h' m' /\
    Map_Player m' (Z.of_nat (length (players m))) = Some pc.
Proof.
  intros (Hnd & Hlen & Hp) Hni [p Hpc] Hroom. unfold Login. rewrite (heap_update_Some _ _ _ p Hpc).
  do 2 eexists. split; [done|]. unfold wf_scene. cbn [players Title]. split; [split; [|split]|].
  - apply NoDup_app. split; [done|]. split; [|apply NoDup_singleton]. set_solver.
  - rewrite length_app. cbn [length]. lia.
  - intros i q Hi. apply lookup_app_Some in Hi as [Hi | [Hge Hi]].
    + destruct (Hp i q Hi) as (p' & Hq & HI & HS). exists p'.
      rewrite lookup_insert_ne by (intros ->; apply Hni; eapply list_elem_of_lookup_2; eauto). done.
    + apply list_lookup_singleton_Some in Hi as [Hi <-].
      rewrite lookup_insert_eq. eexists. split; [done|]. cbn. rewrite uint32_small by lia. split; [lia|done].
  - rewrite Map_Player_lookup by (cbn [players]; rewrite ?length_app; cbn [length]; lia).
    cbn [players]. rewrite Nat2Z.id, lookup_app_r, Nat.sub_diag by lia. done.
Qed.

Lemma wf_scene_New (h : heap) (d : data_Map) : wf_scene h (New d).
Proof. split; [constructor|]. split; [cbn; lia|]. intros i pc Hi. by destruct i. Qed.

(** A fresh allocation touches no player of the scene. *)
Lemma wf_scene_alloc (h : heap) (m : Map) (pc : ptr) (p : Player) :
  wf_scene h m -> h !! pc = None -> wf_scene (<[pc := p]> h) m.
Proof.
  intros (Hnd & Hlen & Hp) Hfresh. split; [done|]. split; [done|]. intros i q Hi.
  destruct (Hp i q Hi) as (p' & Hq & ?). exists p'. rewrite lookup_insert_ne; [done|]. congruence.
Qed.

(** In a well-formed scene, [m.Player] at the [Id] of a logged-in player
    returns that player's pointer. *)
Lemma wf_Map_Player (h : heap) (m : Map) (pc : ptr) :
  wf_scene h m -> pc ∈ players m -> exists p, h !! pc = Some p /\ Map_Player m (Id p) = Some pc.
Proof.
  intros (Hnd & Hlen & Hp) (i & Hi)%list_elem_of_lookup. destruct (Hp i pc Hi) as (p & Hpc & HId & _).
  exists p. split; [done|]. rewrite HId, Map_Player_lookup by lia. by rewrite Nat2Z.id.
Qed.

Lemma scene_step_wf atan2 cos sin (st st' : heap * Map) :
  scene_step atan2 cos sin st st' -> wf_scene st.1 st.2 -> wf_scene st'.1 st'.2.
Proof.
  destruct 1 as [h m pc p Hf | h h' m m' pc Hni Hroom HL | h h' m HB]; cbn; intros Hwf.
  - by apply wf_scene_alloc.
  - destruct (Login_wf h m pc Hwf Hni) as (h1 & m1 & HL' & Hwf' & _); [|done|].
    + unfold Login, heap_update in HL. by destruct (h !! pc).
    + congruence.
  - destruct (HeartBeat_lookup atan2 cos sin h m Hwf) as (h1 & HB' & Hq).
    rewrite HB in HB'. injection HB' as <-. by eapply HeartBeat_wf.
Qed.

(** A property of player records kept by [f] holds, after [update_all f],
    of the record at every pointer where it held before. *)
Lemma update_all_pres (P : Player -> Prop) (f : Player -> Player) (h h' : heap) (pcs : list ptr) :
  (forall x, P x -> P (f x)) -> update_all f h pcs = Some h' ->
  forall q x, h !! q = Some x -> P x -> exists y, h' !! q = Some y /\ P y.
Proof.
  intros Hf. revert h. induction pcs as [|pc pcs IH]; intros h Hu q x Hq Hx; cbn [update_all] in Hu.
  - injection Hu as <-. eauto.
  - unfold heap_update in Hu. destruct (h !! pc) as [p|] eqn:Hpc; [|discriminate].
    apply (IH _ Hu q (if decide (pc = q) then f p else x)); [|by case_decide; subst; simplify_eq; auto].
    rewrite lookup_insert. by case_decide.
Qed.

(** Properties of a player record that every event of a scene keeps. *)
Section Preserve.
Context (atan2 : f64 -> f64 -> f64) (cos sin : f64 -> f64) (P : Player -> Prop).
Hypothesis P_heartbeat : forall x, P x -> P (heartbeat_one atan2 cos sin x).
Hypothesis P_login : forall x t i, P x -> P (set_Scene t (set_Id i x)).

Lemma scene_step_pres (st st' : heap * Map) :
  scene_step atan2 cos sin st st' ->
  forall q x, st.1 !! q = Some x -> P x -> exists y, st'.1 !! q = Some y /\ P y.
Proof.
  destruct 1 as [h m pc p Hf | h h' m m' pc _ _ HL | h h' m HB]; cbn; intros q x Hq Hx.
  - exists x. rewrite lookup_insert_ne; [done|]. congruence.
  - unfold Login in HL. destruct (heap_update _ h pc) as [h1|] eqn:Hu; [|discriminate].
    injection HL as <- <-.
    refine (update_all_pres P (fun p => set_Scene (Title m) (set_Id (uint32 (Z.of_nat (length (players m)))) p))
              h h1 [pc] _ _ q x Hq Hx); [by intros; apply P_login|]. cbn. by rewrite Hu.
  - exact (update_all_pres P _ h h' (players m) P_heartbeat HB q x Hq Hx).
Qed.

Lemma scene_rtc_pres (st st' : heap * Map) :
  rtc (scene_step atan2 cos sin) st st' ->
  forall q x, st.1 !! q = Some x -> P x -> exists y, st'.1 !! q = Some y /\ P y.
Proof.
  induction 1 as [|st1 st2 st3 Hs _ IH]; [eauto|]. intros q x Hq Hx.
  destruct (scene_step_pres _ _ Hs q x Hq Hx) as (y & Hy & HPy). eauto.
Qed.
End Preserve.

Lemma scene_rtc_wf atan2 cos sin (st st' : heap * Map) :
  rtc (scene_step atan2 cos sin) st st' -> wf_scene st.1 st.2 -> wf_scene st'.1 st'.2.
Proof. induction 1; [done|]. eauto using scene_step_wf. Qed.

(** In a well-formed scene the [Id] of a logged-in player is its slot. *)
Lemma wf_scene_Id (h : heap) (m : Map) (pc : ptr) (p : Player) :
  wf_scene h m -> pc ∈ players m -> h !! pc = Some p ->
  exists i, players m !! i = Some pc /\ Id p = Z.of_nat i.
Proof.
  intros (_ & _ & Hp) (i & Hi)%list_elem_of_lookup Hpc. destruct (Hp i pc Hi) as (p' & Hpc' & HId & _).
  exists i. split; [done|]. congruence.
Qed.

(** ** Properties *)

(** C18: [HeartBeat] on a well-formed scene never dereferences nil, moves
    every logged-in player exactly one step ([heartbeat_one]), leaves every
    other object of the heap alone, and keeps the scene well formed. *)
Theorem HeartBeat_preserves atan2 cos sin (h : heap) (m : Map) :
  wf_scene h m -> exists h', HeartBeat atan2 cos sin h m = Some h' /\ wf_scene h' m /\
    forall q, h' !! q = if decide (q ∈ players m) then heartbeat_one atan2 cos sin <$> h !! q else h !! q.
Proof.
  intros Hwf. destruct (HeartBeat_lookup atan2 cos sin h m Hwf) as (h' & Hh & Hq).
  exists h'. split; [done|]. split; [|done]. by eapply HeartBeat_wf.
Qed.

(** C8: In every scene reached by creating players, logging new ones in
    while there is room and ticking the heartbeat, the scene is well
    formed (distinct players, each with its slot as [Id] and the scene's
    title), so [HeartBeat] never meets a nil pointer, and [m.Player] at a
    logged-in player's [Id] returns that very player. *)
Theorem scene_Player_Id atan2 cos sin (h0 : heap) (d : data_Map) (h : heap) (m : Map) :
  scene_reachable atan2 cos sin h0 d (h, m) ->
  wf_scene h m /\ is_Some (HeartBeat atan2 cos sin h m) /\
  forall pc, pc ∈ players m -> exists p, h !! pc = Some p /\ Map_Player m (Id p) = Some pc.
Proof.
  intros Hr. assert (Hwf : wf_scene h m)
    by exact (scene_rtc_wf _ _ _ _ _ Hr (wf_scene_New h0 d)).
  split; [done|]. split; [|by intros pc; apply wf_Map_Player].
  destruct (HeartBeat_lookup atan2 cos sin h m Hwf) as (h' & -> & _). by eexists.
Qed.

(** C24: A moving player whose speed is not above +0 is never stopped: in
    every run of the scene it stays [MOVE], with the same target and
    speed, even when it stands on its target, since [HeartBeat] stops a
    player only when the squared distance, never below +0, is below the
    speed. *)
Theorem scene_stalled_mover atan2 cos sin (st st' : heap * Map) (pc : ptr) (p : Player) :
  rtc (scene_step atan2 cos sin) st st' -> st.1 !! pc = Some p -> State p = MOVE ->
  lt (of_Z 0) (Speed p) = false ->
  exists p', st'.1 !! pc = Some p' /\ State p' = MOVE /\ To p' = To p /\ Speed p' = Speed p.
Proof.
  intros Hr Hp Hs Hv.
  refine (scene_rtc_pres atan2 cos sin (fun x => State x = MOVE /\ To x = To p /\ speed x = speed p)
            _ _ st st' Hr pc p Hp _); [| |done].
  - intros x (Hx & Ht & Hsp). destruct (heartbeat_one_To_speed atan2 cos sin x) as [-> ->].
    split; [|done]. apply heartbeat_one_stalled; [done|]. unfold Speed. by rewrite Hsp.
  - done.
Qed.

(** C23: In every reachable scene the [Id]s identify the players: two
    logged-in players with the same [Id] are the same pointer, and every
    [Id] lies below the number of players. *)
Theorem scene_Ids_unique atan2 cos sin (h0 : heap) (d : data_Map) (h : heap) (m : Map)
    (pc1 pc2 : ptr) (p1 p2 : Player) :
  scene_reachable atan2 cos sin h0 d (h, m) -> pc1 ∈ players m -> pc2 ∈ players m ->
  h !! pc1 = Some p1 -> h !! pc2 = Some p2 -> Id p1 = Id p2 ->
  pc1 = pc2 /\ 0 <= Id p1 < Z.of_nat (length (players m)).
Proof.
  intros Hr H1 H2 Hp1 Hp2 HId.
  pose proof (scene_rtc_wf _ _ _ _ _ Hr (wf_scene_New h0 d)) as Hwf. cbn in Hwf.
  destruct (wf_scene_Id h m pc1 p1 Hwf H1 Hp1) as (i & Hi & Hi').
  destruct (wf_scene_Id h m pc2 p2 Hwf H2 Hp2) as (j & Hj & Hj').
  assert (i = j) as <- by lia. split; [congruence|].
  apply lookup_lt_Some in Hi. lia.
Qed.

(** C22: [Login] stores [uint32(idx)] as the [Id]: when 2^32 players are
    logged in, the next one gets [Id] 0, and [m.Player(0)] keeps returning
    the first player, not the new one. *)
Theorem Login_Id_wrap (h : heap) (m : Map) (pc q : ptr) (p : Player) :
  Z.of_nat (length (players m)) = 2 ^ 32 -> h !! pc = Some p -> players m !! 0%nat = Some q ->
  exists h' m', Login h m pc = Some (h', m') /\ Id <$> h' !! pc = Some 0 /\ Map_Player m' 0 = Some q.
Proof.
  intros Hl Hp Hq. unfold Login. rewrite (heap_update_Some _ _ _ p Hp).
  do 2 eexists. split; [done|]. rewrite lookup_insert_eq. cbn. rewrite Hl. split; [done|].
  unfold Map_Player. cbn [players]. rewrite length_app, Nat2Z.inj_add, Hl.
  replace (uint32 (2 ^ 32 + Z.of_nat (length [pc]))) with 1 by reflexivity. cbn -[lookup].
  rewrite lookup_app_l by (apply lookup_lt_is_Some; by eexists). done.
Qed.

(** C21: [m.Player] truncates the slice length to a uint32: with 2^32
    players logged in, it returns nil for every id, although every slot is
    filled. *)
Theorem Map_Player_wrap (m : Map) (i : Z) :
  Z.of_nat (length (players m)) = 2 ^ 32 -> 0 <= i -> Map_Player m i = None.
Proof.
  intros Hl Hi. unfold Map_Player. rewrite Hl. replace (uint32 (2 ^ 32)) with 0 by reflexivity.
  destruct (Z.leb_spec 0 i); [done|lia].
Qed.

(** C25: [New] drops its argument, so every scene is untitled: the first
    login into [New d] sets the player's [Id] to 0 and its [Scene] to the
    empty string, whatever the title of [d]. *)
Theorem Login_New_untitled (d : data_Map) (h : heap) (pc : ptr) (p : Player) :
  h !! pc = Some p ->
  Login h (New d) pc = Some (<[pc := set_Scene "" (set_Id 0 p)]> h, mk_map "" [pc]).
Proof. intros Hp. unfold Login. by rewrite (heap_update_Some _ _ _ p Hp). Qed.

(** C26: [Login] does not check that the player is new: logging in again a
    player of a well-formed scene gives it a second slot and the [Id] of
    that slot, while its old slot, where its old [Id] pointed, still holds
    it; the scene is no longer well formed. *)
Theorem Login_twice_alias (h : heap) (m : Map) (pc : ptr) (p : Player) :
  wf_scene h m -> pc ∈ players m -> h !! pc = Some p ->
  exists h' m', Login h m pc = Some (h', m') /\ ~ wf_scene h' m' /\
    Id <$> h' !! pc = Some (uint32 (Z.of_nat (length (players m)))) /\
    players m' !! length (players m) = Some pc /\
    exists i, players m' !! i = Some pc /\ i <> length (players m) /\ Id p = Z.of_nat i.
Proof.
  intros Hwf Hin Hp. destruct (wf_scene_Id h m pc p Hwf Hin Hp) as (i & Hi & HId).
  pose proof (lookup_lt_Some _ _ _ Hi) as Hlt.
  unfold Login. rewrite (heap_update_Some _ _ _ p Hp). do 2 eexists. split; [done|]. split.
  { intros [Hnd _]. cbn [players] in Hnd. apply NoDup_app in Hnd as (_ & Hdis & _).
    apply (Hdis pc Hin). set_solver. }
  rewrite lookup_insert_eq. split; [done|]. cbn [players].
  rewrite lookup_app_r, Nat.sub_diag by lia. split; [done|].
  exists i. rewrite lookup_app_l by done. split; [done|]. split; [lia|done].
Qed.

(** C27: A player in two slots moves twice per heartbeat. *)
Theorem HeartBeat_alias atan2 cos sin (h : heap) (t : string) (pc : ptr) (p : Player) :
  h !! pc = Some p ->
  HeartBeat atan2 cos sin h (mk_map t [pc; pc])
  = Some (<[pc := heartbeat_one atan2 cos sin (heartbeat_one atan2 cos sin p)]> h).
Proof.
  intros Hp. unfold HeartBeat. cbn [players update_all]. rewrite (heap_update_Some _ _ _ p Hp).
  rewrite (heap_update_Some _ _ _ (heartbeat_one atan2 cos sin p)) by apply lookup_insert_eq.
  by rewrite insert_insert_eq.
Qed.

(** ** Witnesses *)

Lemma sample_wf : wf_scene sample_heap sample_map.
Proof.
  split; [apply NoDup_singleton|]. split; [cbn; lia|].
  intros [|i] pc Hi; [|by destruct i]. injection Hi as <-. eexists. split; [reflexivity|]. done.
Qed.

Lemma HeartBeat_preserves_witness :
  wf_scene sample_heap sample_map /\
  exists h', HeartBeat (fun _ _ => of_Z64 0) (fun _ => of_Z64 1) (fun _ => of_Z64 0) sample_heap sample_map = Some h'
    /\ wf_scene h' sample_map /\
    forall q, h' !! q = if decide (q ∈ players sample_map)
                        then heartbeat_one (fun _ _ => of_Z64 0) (fun _ => of_Z64 1) (fun _ => of_Z64 0) <$> sample_heap !! q
                        else sample_heap !! q.
Proof. split; [exact sample_wf|]. exact (HeartBeat_preserves _ _ _ _ _ sample_wf). Defined.

(** A player created, logged into a fresh scene and moved once. *)
Lemma scene_Player_Id_witness :
  exists h, scene_reachable (fun _ _ => of_Z64 0) (fun _ => of_Z64 1) (fun _ => of_Z64 0) ∅ (mk_data_map "town")
    (h, sample_map) /\ wf_scene h sample_map /\
    forall pc, pc ∈ players sample_map -> exists p, h !! pc = Some p /\ Map_Player sample_map (Id p) = Some pc.
Proof.
  assert (Hr : exists h, scene_reachable (fun _ _ => of_Z64 0) (fun _ => of_Z64 1) (fun _ => of_Z64 0) ∅
                           (mk_data_map "town") (h, sample_map)).
  { eexists. eapply rtc_l; [apply (scene_new_player _ _ _ _ _ 1 runner); reflexivity|].
    eapply rtc_l; [eapply (scene_login _ _ _ _ _ _ _ 1); [cbn; set_solver | cbn; lia | vm_compute; reflexivity]|].
    eapply rtc_l; [eapply scene_heartbeat; vm_compute; reflexivity|]. apply rtc_refl. }
  destruct Hr as [h Hr]. exists h. split; [exact Hr|].
  destruct (scene_Player_Id _ _ _ _ _ _ _ Hr) as (Hwf & _ & HP). split; [exact Hwf | exact HP].
Defined.

(** The runner, logged in at slot 0, logs in again. *)
Lemma Login_twice_alias_witness :
  wf_scene sample_heap sample_map /\ 1%positive ∈ players sample_map /\
  sample_heap !! 1%positive = Some (set_Id 0 runner) /\
  exists h' m', Login sample_heap sample_map 1 = Some (h', m') /\ ~ wf_scene h' m' /\
    Id <$> h' !! 1%positive = Some (uint32 (Z.of_nat (length (players sample_map)))) /\
    players m' !! length (players sample_map) = Some 1%positive /\
    exists i, players m' !! i = Some 1%positive /\ i <> length (players sample_map) /\ Id (set_Id 0 runner) = Z.of_nat i.
Proof.
  assert (H2 : 1%positive ∈ players sample_map) by (cbn; set_solver).
  assert (H3 : sample_heap !! 1%positive = Some (set_Id 0 runner)) by reflexivity.
  split; [exact sample_wf|]. split; [exact H2|]. split; [exact H3|].
  exact (Login_twice_alias _ _ _ _ sample_wf H2 H3).
Defined.

Lemma Map_Player_wrap_witness :
  Z.of_nat (length (players (mk_map "" (replicate (Z.to_nat (2 ^ 32)) 1%positive)))) = 2 ^ 32 /\
  Map_Player (mk_map "" (replicate (Z.to_nat (2 ^ 32)) 1%positive)) 0 = None.
Proof.
  assert (H : Z.of_nat (length (players (mk_map "" (replicate (Z.to_nat (2 ^ 32)) 1%positive)))) = 2 ^ 32)
    by (cbn [players]; rewrite length_replicate; lia).
  split; [exact H|]. exact (Map_Player_wrap _ 0 H ltac:(lia)).
Defined.

(** 2^32 copies of pointer 2 fill the scene; then pointer 1 logs in. *)
Lemma Login_Id_wrap_witness :
  Z.of_nat (length (players (mk_map "" (replicate (Z.to_nat (2 ^ 32)) 2%positive)))) = 2 ^ 32 /\
  exists h' m', Login solo_heap (mk_map "" (replicate (Z.to_nat (2 ^ 32)) 2%positive)) 1 = Some (h', m') /\
    Id <$> h' !! 1%positive = Some 0 /\ Map_Player m' 0 = Some 2%positive.
Proof.
  assert (H : Z.of_nat (length (players (mk_map "" (replicate (Z.to_nat (2 ^ 32)) 2%positive)))) = 2 ^ 32)
    by (cbn [players]; rewrite length_replicate; lia).
  assert (H0 : players (mk_map "" (replicate (Z.to_nat (2 ^ 32)) 2%positive)) !! 0%nat = Some 2%positive)
    by (apply lookup_replicate; split; [done | lia]).
  split; [exact H|]. exact (Login_Id_wrap solo_heap _ 1 2 runner H eq_refl H0).
Defined.

Lemma scene_Ids_unique_witness :
  scene_reachable (fun _ _ => of_Z64 0) (fun _ => of_Z64 1) (fun _ => of_Z64 0) ∅ (mk_data_map "town")
    (sample_heap, sample_map) /\
  1%positive = 1%positive /\ 0 <= Id (set_Id 0 runner) < Z.of_nat (length (players sample_map)).
Proof.
  assert (Hr : scene_reachable (fun _ _ => of_Z64 0) (fun _ => of_Z64 1) (fun _ => of_Z64 0) ∅ (mk_data_map "town")
    (sample_heap, sample_map)).
  { eapply rtc_l; [apply (scene_new_player _ _ _ _ _ 1 runner); reflexivity|].
    eapply rtc_l; [eapply (scene_login _ _ _ _ _ _ _ 1); [cbn; set_solver | cbn; lia | vm_compute; reflexivity]|].
    apply rtc_refl. }
  split; [exact Hr|].
  exact (scene_Ids_unique _ _ _ _ _ _ _ 1 1 (set_Id 0 runner) (set_Id 0 runner) Hr
           ltac:(cbn; set_solver) ltac:(cbn; set_solver) eq_refl eq_refl eq_refl).
Defined.

(** The parked player logs in and the heartbeat ticks: it is still moving. *)
Lemma scene_stalled_mover_witness :
  Pos parked = To parked /\
  exists p', (<[1%positive := parked]> (∅ : heap)) !! 1%positive = Some p' /\ State p' = MOVE /\
    To p' = To parked /\ Speed p' = Speed parked /\
  exists st', rtc (scene_step (fun _ _ => of_Z64 0) (fun _ => of_Z64 1) (fun _ => of_Z64 0))
                (<[1%positive := parked]> ∅, New (mk_data_map "town")) st' /\
    exists p'', st'.1 !! 1%positive = Some p'' /\ State p'' = MOVE /\ To p'' = To parked /\ Speed p'' = Speed parked.
Proof.
  split; [reflexivity|]. exists parked. split; [reflexivity|]. split; [reflexivity|].
  split; [reflexivity|]. split; [reflexivity|].
  assert (Hr : exists st', rtc (scene_step (fun _ _ => of_Z64 0) (fun _ => of_Z64 1) (fun _ => of_Z64 0))
                (<[1%positive := parked]> ∅, New (mk_data_map "town")) st').
  { eexists. eapply rtc_l; [eapply (scene_login _ _ _ _ _ _ _ 1); [cbn; set_solver | cbn; lia | vm_compute; reflexivity]|].
    eapply rtc_l; [eapply scene_heartbeat; vm_compute; reflexivity|]. apply rtc_refl. }
  destruct Hr as [st' Hr]. exists st'. split; [exact Hr|].
  exact (scene_stalled_mover _ _ _ _ _ 1 parked Hr eq_refl eq_refl eq_refl).
Defined.

Lemma Login_New_untitled_witness :
  solo_heap !! 1%positive = Some runner /\
  Login solo_heap (New (mk_data_map "town")) 1
  = Some (<[1%positive := set_Scene "" (set_Id 0 runner)]> solo_heap, mk_map "" [1%positive]).
Proof.
  assert (H : solo_heap !! 1%positive = Some runner) by reflexivity.
  split; [exact H|]. exact (Login_New_untitled _ _ _ _ H).
Defined.

Lemma HeartBeat_alias_witness :
  solo_heap !! 1%positive = Some runner /\
  HeartBeat (fun _ _ => of_Z64 0) (fun _ => of_Z64 1) (fun _ => of_Z64 0) solo_heap
            (mk_map "" [1%positive; 1%positive])
  = Some (<[1%positive := heartbeat_one (fun _ _ => of_Z64 0) (fun _ => of_Z64 1) (fun _ => of_Z64 0)
                            (heartbeat_one (fun _ _ => of_Z64 0) (fun _ => of_Z64 1) (fun _ => of_Z64 0) runner)]>
            solo_heap).
Proof.
  assert (H : solo_heap !! 1%positive = Some runner) by reflexivity.
  split; [exact H|]. exact (HeartBeat_alias _ _ _ _ _ _ _ H).
Defined.

End Scene.
