(* ===== verification/Agent.v ===== *)
(** * The connection agent (src/player/agent.go)

    [player.Go()] runs three tasks on one connection: a reader goroutine
    that calls [packet.Read] in a loop and forwards each value on the
    channel [read] (capacity 1), closing the connection and the channel on
    the first error; a writer goroutine that takes packets from the channel
    [write] (capacity 1) and calls [packet.Write] on each, logging and
    dropping it on error; and [player.loop()], which selects among the
    client channel, the scene channel, the aoi channel and the heartbeat
    ticker, and returns when the client channel is closed and drained.

    The state [agent] holds the connection (the bytes the peer still has
    to deliver, followed by end of stream; the bytes written; whether it is
    closed), the two channels as bounded queues, the program counter of
    each goroutine, whether [loop] has returned, and three logs: the events
    [loop] has handled, the [log.Println] lines and, as ghost state, the
    packets sent on [player.send], those the writer has taken and those it
    has written.  [step] is the interleaving semantics: each constructor is
    one atomic action of one goroutine, or a send by the rest of the
    program.  The handlers [handleClientMessage], [handleSceneMessage] and
    [heartBeat] are in a package not under src/: their calls are recorded
    as events. *)

From stdpp Require Import base list relations.
From Stdlib Require Import ZArith Lia Strings.Byte.
From S2P Require Import Prelude Msgpack Types Frame Registry Codec.

Local Open Scope Z_scope.
Import Msgpack Types Frame Registry Codec.

Module Agent.

(** ** State *)

(** The reader goroutine: about to call [packet.Read], about to send the
    value it read on [read], or returned. *)
Inductive rpc := RLoop | RSend (v : gval) | RDone.

(** The writer goroutine: about to receive from [write], or about to call
    [packet.Write] on the packet it received. *)
Inductive wpc := WLoop | WWrite (p : packet).

(** What [loop] handled, in order. *)
Inductive loop_event := EClient (v : gval) | EScene | EAoi | EHeartbeat.

(** The lines [log.Println] printed. *)
Inductive log_entry := LRead (e : codec_error) | LWrite (e : codec_error) | LClosedConn.

Record agent := mk_agent {
  conn_in : list byte;
  conn_out : list byte;
  conn_closed : bool;
  read_q : list gval;
  read_closed : bool;
  write_q : list packet;
  reader : rpc;
  writer : wpc;
  loop_done : bool;
  events : list loop_event;
  log : list log_entry;
  sent : list packet;
  processed : list packet;
  written : list packet
}.

(** The channel capacity of [make(chan ..., 1)]. *)
Definition cap : nat := 1.

(** The state [player.Go()] starts the goroutines in, on a connection
    whose peer delivers [bs] and closes. *)
Definition init (bs : list byte) : agent :=
  mk_agent bs [] false [] false [] RLoop WLoop false [] [] [] [] [].

Definition client_values (evs : list loop_event) : list gval :=
  omap (fun ev => match ev with EClient v => Some v | _ => None end) evs.

Definition reader_value (r : rpc) : list gval :=
  match r with RSend v => [v] | _ => [] end.

Definition writer_packet (w : wpc) : list packet :=
  match w with WWrite p => [p] | WLoop => [] end.

Section Step.
Context (reg : registry).

Inductive step : agent -> agent -> Prop :=
(** [data, err := packet.Read(player.conn)], no error. *)
| reader_read_ok ci co cc rq rc wq w ld ev lg st pr wt v rest :
    Read reg ci = (Ok v, rest) ->
    step (mk_agent ci co cc rq rc wq RLoop w ld ev lg st pr wt)
         (mk_agent rest co cc rq rc wq (RSend v) w ld ev lg st pr wt)
(** The error branch: log, [conn.Close()], [close(read)], return. *)
| reader_read_err ci co cc rq rc wq w ld ev lg st pr wt e rest :
    Read reg ci = (Err e, rest) ->
    step (mk_agent ci co cc rq rc wq RLoop w ld ev lg st pr wt)
         (mk_agent rest co true rq true wq RDone w ld ev (lg ++ [LRead e]) st pr wt)
(** [read <- data], when the channel has room. *)
| reader_send ci co cc rq rc wq w ld ev lg st pr wt v :
    (length rq < cap)%nat ->
    step (mk_agent ci co cc rq rc wq (RSend v) w ld ev lg st pr wt)
         (mk_agent ci co cc (rq ++ [v]) rc wq RLoop w ld ev lg st pr wt)
(** [case msg, ok := <-this.client] with a value: [handleClientMessage]. *)
| loop_client ci co cc v rq rc wq r w ev lg st pr wt :
    step (mk_agent ci co cc (v :: rq) rc wq r w false ev lg st pr wt)
         (mk_agent ci co cc rq rc wq r w false (ev ++ [EClient v]) lg st pr wt)
(** The same case on the closed, drained channel: [loop] returns. *)
| loop_closed ci co cc wq r w ev lg st pr wt :
    step (mk_agent ci co cc [] true wq r w false ev lg st pr wt)
         (mk_agent ci co cc [] true wq r w true ev lg st pr wt)
(** The scene, aoi and heartbeat cases. *)
| loop_other ci co cc rq rc wq r w ev lg st pr wt e :
    e = EScene \/ e = EAoi \/ e = EHeartbeat ->
    step (mk_agent ci co cc rq rc wq r w false ev lg st pr wt)
         (mk_agent ci co cc rq rc wq r w false (ev ++ [e]) lg st pr wt)
(** [player.send <- pkt] by the rest of the program, when there is room. *)
| app_send ci co cc rq rc wq r w ld ev lg st pr wt p :
    (length wq < cap)%nat ->
    step (mk_agent ci co cc rq rc wq r w ld ev lg st pr wt)
         (mk_agent ci co cc rq rc (wq ++ [p]) r w ld ev lg (st ++ [p]) pr wt)
(** [pkt := <-write]. *)
| writer_take ci co cc rq rc p wq r ld ev lg st pr wt :
    step (mk_agent ci co cc rq rc (p :: wq) r WLoop ld ev lg st pr wt)
         (mk_agent ci co cc rq rc wq r (WWrite p) ld ev lg st (pr ++ [p]) wt)
(** [packet.Write(player.conn, pkt.Id, pkt.Obj)] succeeds. *)
| writer_write_ok ci co rq rc wq r p ld ev lg st pr wt co' :
    Write reg co (Id p) (Obj p) = Ok co' ->
    step (mk_agent ci co false rq rc wq r (WWrite p) ld ev lg st pr wt)
         (mk_agent ci co' false rq rc wq r WLoop ld ev lg st pr (wt ++ [p]))
(** It fails in the codec: log and [continue]. *)
| writer_write_err ci co cc rq rc wq r p ld ev lg st pr wt e :
    Write reg co (Id p) (Obj p) = Err e ->
    step (mk_agent ci co cc rq rc wq r (WWrite p) ld ev lg st pr wt)
         (mk_agent ci co cc rq rc wq r WLoop ld ev (lg ++ [LWrite e]) st pr wt)
(** The packet encodes, but the connection is closed: log and
    [continue]. *)
| writer_write_closed ci co rq rc wq r p ld ev lg st pr wt co' :
    Write reg co (Id p) (Obj p) = Ok co' ->
    step (mk_agent ci co true rq rc wq r (WWrite p) ld ev lg st pr wt)
         (mk_agent ci co true rq rc wq r WLoop ld ev (lg ++ [LClosedConn]) st pr wt).

Definition reachable (bs : list byte) (s : agent) : Prop := rtc step (init bs) s.
End Step.

(** ** The values a connection delivers *)

(** Call [packet.Read] until the first error, at most [fuel] times. *)
Fixpoint read_stream (reg : registry) (fuel : nat) (bs : list byte) : list gval :=
  match fuel with
  | O => []
  | S f =>
      match Read reg bs with
      | (Ok v, rest) => v :: read_stream reg f rest
      | (Err _, _) => []
      end
  end.

(** Every successful read takes at least five bytes, so [length bs + 1]
    calls reach the error (lemma [read_stream_fuel]). *)
Definition stream_values (reg : registry) (bs : list byte) : list gval :=
  read_stream reg (S (length bs)) bs.

(** ** A sample session *)

(** The peer sends one frame, the integer 8 under [PTest], and closes. *)
Definition sample_packet : packet := mk_packet PTest (GInt KInt 8).
Definition sample_stream : list byte := packet_frame sample_packet.

(** The state after the reader has forwarded the value, [loop] has handled
    it, the reader has hit the end of stream and [loop] has returned. *)
Definition sample_done : agent :=
  mk_agent [] [] true [] true [] RDone WLoop true [EClient (GInt KInt 8)] [LRead Truncated] [] [] [].

(** The measure of the work left before [loop] can return. *)
Definition pending (s : agent) : nat :=
  length (conn_in s) + length (read_q s) +
  match reader s with RLoop => 1 | RSend _ => 3 | RDone => 0 end.

(** ** Invariant *)

Definition inv (reg : registry) (bs : list byte) (s : agent) : Prop :=
  (length (read_q s) <= cap)%nat /\ (length (write_q s) <= cap)%nat /\
  read_closed s = conn_closed s /\ (read_closed s = true <-> reader s = RDone) /\
  (loop_done s = true -> read_q s = [] /\ reader s = RDone) /\
  client_values (events s) ++ read_q s ++ reader_value (reader s)
    ++ (if reader s is RDone then [] else stream_values reg (conn_in s)) = stream_values reg bs /\
  sent s = processed s ++ write_q s /\
  conn_out s = concat (map packet_frame (written s)) /\
  sublist (written s ++ writer_packet (writer s)) (processed s).

(** ** Lemmas on reading *)

Lemma Read_consumes (reg : registry) (bs rest : list byte) (r : result gval) :
  Read reg bs = (r, rest) ->
  (length rest <= length bs)%nat /\ (is_ok r = true -> (length rest + 5 <= length bs)%nat).
Proof.
  unfold Read. destruct (Decode reg bs) as [r' rest'] eqn:H. intros [= <- <-].
  apply Decode_consumes in H as [H1 H2]. split; [done|]. intros Hok. apply H2. by destruct r'.
Qed.

Lemma read_stream_fuel (reg : registry) (n m : nat) (bs : list byte) :
  (length bs < n)%nat -> (length bs < m)%nat -> read_stream reg n bs = read_stream reg m bs.
Proof.
  revert m bs. induction n as [|n IH]; intros m bs Hn Hm; [lia|]. destruct m as [|m]; [lia|].
  cbn [read_stream]. destruct (Read reg bs) as [[v|e] rest] eqn:H; [|done].
  apply Read_consumes in H as [_ H]. specialize (H eq_refl). f_equal. apply IH; lia.
Qed.

Lemma stream_values_Ok (reg : registry) (bs rest : list byte) (v : gval) :
  Read reg bs = (Ok v, rest) -> stream_values reg bs = v :: stream_values reg rest.
Proof.
  intros H. unfold stream_values at 1. cbn [read_stream]. rewrite H. f_equal.
  apply Read_consumes in H as [_ H]. specialize (H eq_refl). apply read_stream_fuel; lia.
Qed.

Lemma stream_values_Err (reg : registry) (bs rest : list byte) (e : codec_error) :
  Read reg bs = (Err e, rest) -> stream_values reg bs = [].
Proof. intros H. unfold stream_values. cbn [read_stream]. by rewrite H. Qed.

Lemma client_values_app (evs evs' : list loop_event) :
  client_values (evs ++ evs') = client_values evs ++ client_values evs'.
Proof. apply omap_app. Qed.

Lemma Write_Ok_frame (reg : registry) (out out' : list byte) (p : packet) :
  Write reg out (Id p) (Obj p) = Ok out' -> out' = out ++ packet_frame p.
Proof.
  unfold Write, Encode. destruct (check_shape reg (Id p) (Obj p)); [|discriminate]. cbn [rbind].
  destruct (write_frame (Id p) (encode (to_obj (Obj p)))) as [fr|] eqn:Hw; [|discriminate].
  apply write_frame_inv in Hw as [-> _]. by intros [= <-].
Qed.

Lemma sublist_app_l_inv {A : Type} (l k m : list A) : sublist (l ++ k) m -> sublist l m.
Proof. intros H. etrans; [|exact H]. by apply sublist_inserts_r. Qed.

Lemma inv_init (reg : registry) (bs : list byte) : inv reg bs (init bs).
Proof. repeat split; cbn; try done; lia. Qed.

Ltac destruct_inv H :=
  destruct H as (Hrq & Hwq & Hcl & Hrd & Hld & Hv & Hs & Ho & Hsub).

(** When the reader has not returned, the read channel is open and [loop]
    is still running. *)
Lemma reader_running (r : rpc) (rc ld : bool) (rq : list gval) :
  r <> RDone -> (rc = true <-> r = RDone) -> (ld = true -> rq = [] /\ r = RDone) ->
  rc = false /\ ld = false.
Proof. intros Hr Hrd Hld. destruct rc, ld; naive_solver. Qed.

Ltac running :=
  match goal with
  | Hrd : ?rc = true <-> ?r = RDone, Hld : ?ld = true -> _ /\ ?r = RDone |- _ =>
      destruct (reader_running r rc ld _ ltac:(discriminate) Hrd Hld) as [-> ->]
  end.

Ltac finish_inv :=
  unfold cap in *; cbn [length] in *; repeat split; try done; try lia; try (intros; discriminate); try tauto.

(** Every transition keeps the invariant. *)
Lemma inv_step (reg : registry) (bs : list byte) (s s' : agent) :
  inv reg bs s -> step reg s s' -> inv reg bs s'.
Proof.
  intros Hinv Hst. destruct_inv Hinv. unfold inv.
  inversion Hst; subst; cbn [conn_in conn_out conn_closed read_q read_closed write_q reader writer
    loop_done events log sent processed written reader_value writer_packet] in *.
  - (* reader_read_ok *)
    running. rewrite (stream_values_Ok reg _ _ _ H) in Hv. finish_inv.
  - (* reader_read_err *)
    running. rewrite (stream_values_Err reg _ _ _ H), !app_nil_r in Hv. finish_inv.
    by rewrite !app_nil_r.
  - (* reader_send *)
    running. rewrite length_app. rewrite <- !app_assoc. finish_inv.
  - (* loop_client *)
    cbn [length] in Hrq. rewrite client_values_app, <- !app_assoc. finish_inv.
  - (* loop_closed *)
    finish_inv.
  - (* loop_other *)
    rewrite client_values_app. destruct H as [-> | [-> | ->]]; cbn; rewrite app_nil_r; finish_inv.
  - (* app_send *)
    rewrite length_app. finish_inv. by rewrite Hs, <- app_assoc.
  - (* writer_take *)
    cbn [length] in Hwq. rewrite Hs, <- app_assoc. rewrite app_nil_r in Hsub. finish_inv.
    by apply sublist_app.
  - (* writer_write_ok *)
    rewrite (Write_Ok_frame _ _ _ _ H), map_app, concat_app. cbn [map concat]. rewrite !app_nil_r, Ho. finish_inv.
  - (* writer_write_err *)
    rewrite app_nil_r. finish_inv. by eapply sublist_app_l_inv.
  - (* writer_write_closed *)
    rewrite app_nil_r. finish_inv. by eapply sublist_app_l_inv.
Qed.

Lemma inv_reachable (reg : registry) (bs : list byte) (s : agent) :
  reachable reg bs s -> inv reg bs s.
Proof.
  unfold reachable. intros H. remember (init bs) as s0 eqn:Hs0.
  assert (inv reg bs s0) by (subst; apply inv_init). clear Hs0.
  induction H as [|x y z Hxy _ IH]; [done|]. apply IH. by eapply inv_step.
Qed.

(** When [loop] has returned, everything the connection delivered has
    been handled. *)
Lemma inv_done_handled (reg : registry) (bs : list byte) (s : agent) :
  inv reg bs s -> loop_done s = true -> client_values (events s) = stream_values reg bs.
Proof.
  intros Hinv Hd. destruct_inv Hinv. destruct (Hld Hd) as [Hq Hr]. rewrite Hq, Hr in Hv.
  by rewrite !app_nil_r in Hv.
Qed.

Lemma Read_nil (reg : registry) : Read reg [] = (Err Truncated, []).
Proof. reflexivity. Qed.

(** The values of a stream of frames of sendable packets are their
    objects. *)
Lemma stream_values_frames_app (reg : registry) (pkts : list packet) (rest : list byte) :
  Forall (fun p => sendable reg (Id p) (Obj p)) pkts ->
  stream_values reg (concat (map packet_frame pkts) ++ rest) = map Obj pkts ++ stream_values reg rest.
Proof.
  induction 1 as [|p pkts Hp _ IH]; [done|]. cbn [map concat]. rewrite <- app_assoc.
  rewrite (stream_values_Ok reg _ (concat (map packet_frame pkts) ++ rest) (Obj p)); [by rewrite IH|].
  unfold Read. by rewrite Decode_packet_frame.
Qed.

Lemma stream_values_frames (reg : registry) (pkts : list packet) :
  Forall (fun p => sendable reg (Id p) (Obj p)) pkts ->
  stream_values reg (concat (map packet_frame pkts)) = map Obj pkts.
Proof.
  intros Hp. rewrite <- (app_nil_r (concat _)), stream_values_frames_app by done.
  by rewrite app_nil_r.
Qed.

(** From any state of the invariant, a schedule exists that drives [loop]
    to its return. *)
Lemma drain (reg : registry) (bs : list byte) (n : nat) (s : agent) :
  (pending s < n)%nat -> inv reg bs s -> exists s', rtc (step reg) s s' /\ loop_done s' = true.
Proof.
  revert s. induction n as [|n IH]; intros s Hn Hinv; [lia|].
  destruct (loop_done s) eqn:Hd; [by exists s|].
  assert (Hgo : forall s', step reg s s' -> (pending s' < n)%nat ->
            exists s'', rtc (step reg) s s'' /\ loop_done s'' = true).
  { intros s' Hst Hp. destruct (IH s' Hp (inv_step _ _ _ _ Hinv Hst)) as (s'' & ? & ?).
    exists s''. split; [|done]. by eapply rtc_l. }
  pose proof Hinv as Hinv'. destruct_inv Hinv'. unfold pending in Hn.
  destruct s as [ci co cc rq rc wq r w ld ev lg st pr wt]; cbn in *; subst ld.
  destruct rq as [|v rq].
  - destruct r as [|v|].
    + destruct (Read reg ci) as [[v|e] rest] eqn:HR; pose proof (Read_consumes _ _ _ _ HR) as [H1 H2].
      * eapply Hgo; [by apply reader_read_ok|]. unfold pending; cbn. specialize (H2 eq_refl). lia.
      * eapply Hgo; [by apply reader_read_err|]. unfold pending; cbn. lia.
    + eapply Hgo; [apply reader_send; cbn; unfold cap; lia|]. unfold pending; cbn. lia.
    + assert (rc = true) as -> by by apply Hrd.
      eexists. split; [apply rtc_once, loop_closed|done].
  - eapply Hgo; [apply loop_client|]. unfold pending; cbn in *. lia.
Qed.

Lemma sample_run : reachable startup sample_stream sample_done.
Proof.
  unfold reachable, init, sample_done.
  eapply rtc_l; [apply (reader_read_ok _ _ _ _ _ _ _ _ _ _ _ _ _ _ (GInt KInt 8) []); vm_compute; reflexivity|].
  eapply rtc_l; [apply reader_send; cbn; unfold cap; lia|]. cbn [app].
  eapply rtc_l; [apply loop_client|]. cbn [app].
  eapply rtc_l; [apply (reader_read_err _ _ _ _ _ _ _ _ _ _ _ _ _ _ Truncated []); reflexivity|].
  apply rtc_once, loop_closed.
Qed.

(** ** Properties *)

(** C7: [loop] handles the values the connection delivers in the order
    [packet.Read] returns them, none lost, none repeated: at every point
    what it has handled is a prefix of them. *)
Theorem handled_prefix (reg : registry) (bs : list byte) (s : agent) :
  reachable reg bs s -> client_values (events s) `prefix_of` stream_values reg bs.
Proof.
  intros H. destruct (inv_reachable _ _ _ H) as (_ & _ & _ & _ & _ & Hv & _).
  rewrite <- Hv. by apply prefix_app_r.
Qed.

(** C6: [loop] returns only once it has handled every value the
    connection delivered before its first read error. *)
Theorem loop_done_all_handled (reg : registry) (bs : list byte) (s : agent) :
  reachable reg bs s -> loop_done s = true -> client_values (events s) = stream_values reg bs.
Proof. intros H. apply inv_done_handled, inv_reachable, H. Qed.

(** C13: No deadlock on the receiving side: from every reachable state the
    goroutines can run to the return of [loop], which has then handled
    every value the connection delivered. *)
Theorem agent_can_finish (reg : registry) (bs : list byte) (s : agent) :
  reachable reg bs s -> exists s', rtc (step reg) s s' /\ loop_done s' = true
                                  /\ client_values (events s') = stream_values reg bs.
Proof.
  intros H. destruct (drain reg bs (S (pending s)) s ltac:(lia) (inv_reachable _ _ _ H)) as (s' & Hs' & Hd).
  assert (Hr : reachable reg bs s') by (unfold reachable in *; etrans; eauto).
  exists s'. split; [done|]. split; [done|]. apply (inv_done_handled _ _ _ (inv_reachable _ _ _ Hr) Hd).
Qed.

(** C1: End to end: when the peer sends the frames of sendable packets
    and closes, [loop] returns after handling exactly their objects, in
    order. *)
Theorem agent_end_to_end (reg : registry) (pkts : list packet) (s : agent) :
  Forall (fun p => sendable reg (Id p) (Obj p)) pkts ->
  reachable reg (concat (map packet_frame pkts)) s -> loop_done s = true ->
  client_values (events s) = map Obj pkts.
Proof.
  intros Hp Hr Hd. rewrite <- (stream_values_frames reg pkts Hp). apply (inv_done_handled _ _ _ (inv_reachable _ _ _ Hr) Hd).
Qed.

(** C14: What the writer puts on the connection is the frames of packets
    sent on [player.send], whole and in the order they were sent. *)
Theorem writer_output (reg : registry) (bs : list byte) (s : agent) :
  reachable reg bs s -> conn_out s = concat (map packet_frame (written s)) /\ sublist (written s) (sent s).
Proof.
  intros H. destruct (inv_reachable _ _ _ H) as (_ & _ & _ & _ & _ & _ & Hs & Ho & Hsub).
  split; [done|]. rewrite Hs. apply sublist_inserts_r. by eapply sublist_app_l_inv.
Qed.

(** C4: The reader goroutine delivers, from a stream of frames of
    sendable packets, exactly their objects, in order: the codec's round
    trip through [packet.Read] in a loop. *)
Theorem reader_delivers_frames (reg : registry) (pkts : list packet) :
  Forall (fun p => sendable reg (Id p) (Obj p)) pkts ->
  read_stream reg (S (length (concat (map packet_frame pkts)))) (concat (map packet_frame pkts)) = map Obj pkts.
Proof. apply stream_values_frames. Qed.

(** C5: A connection that closes in the middle of a frame: the reader
    delivers the packets of the complete frames before it, then stops on
    [Truncated] without inventing a value from the partial frame. *)
Theorem reader_truncated (reg : registry) (pkts : list packet) (p : packet) (k : nat) :
  Forall (fun q => sendable reg (Id q) (Obj q)) pkts -> sendable reg (Id p) (Obj p) ->
  (k < length (packet_frame p))%nat ->
  stream_values reg (concat (map packet_frame pkts) ++ take k (packet_frame p)) = map Obj pkts.
Proof.
  intros Hpkts Hp Hk. rewrite stream_values_frames_app by done.
  rewrite (stream_values_Err reg _ [] Truncated), app_nil_r; [done|].
  unfold Read. rewrite (Decode_truncated reg (Id p) (Obj p) (packet_frame p) k); [done| |done].
  by rewrite sendable_Encode.
Qed.

(** C15: The reader treats every read error as the end of the connection:
    after a well-framed packet with an unregistered id, nothing more is
    delivered, not even the intact packets that follow it. *)
Theorem unknown_id_drops_stream (reg : registry) (id : Z) (payload : list byte) (pkts : list packet) :
  lookup reg id = None -> id_ok id = true -> 1 + Z.of_nat (length payload) <= max_len ->
  stream_values reg (frame_bytes id payload ++ concat (map packet_frame pkts)) = [].
Proof.
  intros Hn Hid Hl. apply (stream_values_Err reg _ (concat (map packet_frame pkts)) (UnknownPacketId id)).
  unfold Read. rewrite Decode_frame by done. unfold decode_payload. by rewrite Hn.
Qed.

(** C16: After the connection is closed nothing more reaches it: no step
    writes a byte or completes a write, and every packet the writer holds
    is dropped with one log line, after which the writer goes back to
    [<-write] instead of returning: the goroutine lives on. *)
Theorem writer_drops_after_close (reg : registry) (s s' : agent) :
  conn_closed s = true -> step reg s s' ->
  conn_out s' = conn_out s /\ written s' = written s /\
  forall p, writer s = WWrite p -> writer s' <> writer s ->
    writer s' = WLoop /\ exists e, log s' = log s ++ [e] /\ (e = LClosedConn \/ exists c, e = LWrite c).
Proof.
  intros Hc Hst. inversion Hst; subst; cbn in *; try discriminate;
    (split; [done|]); (split; [done|]); intros q Hq Hne; simplify_eq; try done;
    (split; [done|]); eauto.
Qed.

(** ** Witnesses *)

Lemma reader_delivers_frames_witness :
  Forall (fun p => sendable startup (Id p) (Obj p)) [sample_packet; sample_packet] /\
  read_stream startup (S (length (concat (map packet_frame [sample_packet; sample_packet]))))
    (concat (map packet_frame [sample_packet; sample_packet])) = map Obj [sample_packet; sample_packet].
Proof.
  assert (Hp : Forall (fun p => sendable startup (Id p) (Obj p)) [sample_packet; sample_packet])
    by (repeat (apply List.Forall_cons; [apply sendableb_sendable; vm_compute; reflexivity|]); apply List.Forall_nil).
  split; [exact Hp|]. exact (reader_delivers_frames _ _ Hp).
Defined.

Lemma reader_truncated_witness :
  Forall (fun q => sendable startup (Id q) (Obj q)) [sample_packet] /\
  sendable startup (Id sample_packet) (Obj sample_packet) /\
  (5 < length (packet_frame sample_packet))%nat /\
  stream_values startup (concat (map packet_frame [sample_packet]) ++ take 5 (packet_frame sample_packet))
  = map Obj [sample_packet].
Proof.
  assert (Hs : sendable startup (Id sample_packet) (Obj sample_packet))
    by (apply sendableb_sendable; vm_compute; reflexivity).
  assert (Hp : Forall (fun q => sendable startup (Id q) (Obj q)) [sample_packet])
    by (apply List.Forall_cons; [exact Hs | apply List.Forall_nil]).
  assert (Hk : (5 < length (packet_frame sample_packet))%nat) by (apply Nat.ltb_lt; vm_compute; reflexivity).
  split; [exact Hp|]. split; [exact Hs|]. split; [exact Hk|]. exact (reader_truncated _ _ _ _ Hp Hs Hk).
Defined.

Lemma handled_prefix_witness :
  reachable startup sample_stream sample_done /\
  client_values (events sample_done) `prefix_of` stream_values startup sample_stream.
Proof. split; [exact sample_run|]. exact (handled_prefix _ _ _ sample_run). Defined.

Lemma loop_done_all_handled_witness :
  reachable startup sample_stream sample_done /\ loop_done sample_done = true /\
  client_values (events sample_done) = stream_values startup sample_stream.
Proof.
  split; [exact sample_run|]. split; [reflexivity|]. exact (loop_done_all_handled _ _ _ sample_run eq_refl).
Defined.

Lemma agent_can_finish_witness :
  reachable startup sample_stream (init sample_stream) /\
  exists s', rtc (step startup) (init sample_stream) s' /\ loop_done s' = true
             /\ client_values (events s') = stream_values startup sample_stream.
Proof.
  assert (H : reachable startup sample_stream (init sample_stream)) by apply rtc_refl.
  split; [exact H|]. exact (agent_can_finish _ _ _ H).
Defined.

Lemma agent_end_to_end_witness :
  Forall (fun p => sendable startup (Id p) (Obj p)) [sample_packet] /\
  reachable startup (concat (map packet_frame [sample_packet])) sample_done /\ loop_done sample_done = true /\
  client_values (events sample_done) = map Obj [sample_packet].
Proof.
  assert (Hp : Forall (fun p => sendable startup (Id p) (Obj p)) [sample_packet])
    by (apply List.Forall_cons; [apply sendableb_sendable; vm_compute; reflexivity | apply List.Forall_nil]).
  assert (Hr : reachable startup (concat (map packet_frame [sample_packet])) sample_done)
    by (cbn [map concat]; rewrite app_nil_r; exact sample_run).
  split; [exact Hp|]. split; [exact Hr|]. split; [reflexivity|]. exact (agent_end_to_end _ _ _ Hp Hr eq_refl).
Defined.

Lemma writer_output_witness :
  reachable startup sample_stream sample_done /\
  conn_out sample_done = concat (map packet_frame (written sample_done)) /\
  sublist (written sample_done) (sent sample_done).
Proof. split; [exact sample_run|]. exact (writer_output _ _ _ sample_run). Defined.

Lemma unknown_id_drops_stream_witness :
  lookup startup 7 = None /\ id_ok 7 = true /\ 1 + Z.of_nat (length [byte_of 8]) <= max_len /\
  stream_values startup (frame_bytes 7 [byte_of 8] ++ concat (map packet_frame [sample_packet])) = [].
Proof.
  assert (H1 : lookup startup 7 = None) by reflexivity.
  assert (H2 : id_ok 7 = true) by reflexivity.
  assert (H3 : 1 + Z.of_nat (length [byte_of 8]) <= max_len) by (cbn; unfold max_len; lia).
  split; [exact H1|]. split; [exact H2|]. split; [exact H3|].
  exact (unknown_id_drops_stream _ _ _ _ H1 H2 H3).
Defined.

(** The reader has hit the end of stream and closed the connection while
    the writer holds [sample_packet]. *)
Lemma writer_drops_after_close_witness :
  conn_closed (mk_agent [] [] true [] true [] RDone (WWrite sample_packet) false [] [] [sample_packet] [sample_packet] []) = true /\
  step startup (mk_agent [] [] true [] true [] RDone (WWrite sample_packet) false [] [] [sample_packet] [sample_packet] [])
               (mk_agent [] [] true [] true [] RDone WLoop false [] [LClosedConn] [sample_packet] [sample_packet] []) /\
  conn_out (mk_agent [] [] true [] true [] RDone WLoop false [] [LClosedConn] [sample_packet] [sample_packet] []) = [].
Proof.
  assert (Hs : step startup (mk_agent [] [] true [] true [] RDone (WWrite sample_packet) false [] [] [sample_packet] [sample_packet] [])
               (mk_agent [] [] true [] true [] RDone WLoop false [] [LClosedConn] [sample_packet] [sample_packet] []))
    by (apply (writer_write_closed startup [] [] [] true [] RDone sample_packet false [] [] [sample_packet] [sample_packet] [] sample_stream);
        vm_compute; reflexivity).
  split; [reflexivity|]. split; [exact Hs|].
  exact (proj1 (writer_drops_after_close startup
    (mk_agent [] [] true [] true [] RDone (WWrite sample_packet) false [] [] [sample_packet] [sample_packet] []) _ eq_refl Hs)).
Defined.

End Agent.
