(* ===== verification/AgentSpec.v ===== *)
(** * What the receiving side of the agent promises, and that it keeps it

    The reader goroutine, the channel [read] and [player.loop()] of
    src/player/agent.go together implement an order-preserving delivery
    service: the values the connection carries are handled one by one, in
    order, and the loop returns only after the end of the stream, with
    nothing left over.  [fifo] is that service as an abstract machine: the
    values not yet handled, those handled, whether the end of the stream
    has been seen and whether the loop has returned.  [abs] reads the
    abstract state off a concrete [Agent.agent]: the pending values are
    those buffered in the channel, the one the reader holds and those
    still on the connection.  [step_refines] is the simulation diagram
    (each concrete step is one abstract step or none), from which every
    run of the agent is a run of the service ([agent_refines_fifo]).  The
    service's own laws ([fifo_conserve], [fifo_done]) then hold of the
    agent, and with the codec's typing lemma they give that every handled
    value has the type registered for the id of its own frame
    ([stream_packets] pairs each value with that id). *)

From stdpp Require Import base list relations.
From Stdlib Require Import ZArith Lia Strings.Byte.
From S2P Require Import Prelude Msgpack Types Frame Registry Codec Agent.

Local Open Scope Z_scope.
Import Types Registry Codec Agent.

Module AgentSpec.

(** ** The service *)

Record fifo := mk_fifo {
  f_pending : list gval;
  f_handled : list gval;
  f_eof : bool;
  f_done : bool
}.

Inductive fifo_step : fifo -> fifo -> Prop :=
(** Handle the next value. *)
| fifo_handle v p h e : fifo_step (mk_fifo (v :: p) h e false) (mk_fifo p (h ++ [v]) e false)
(** The end of the stream is reached. *)
| fifo_eof p h : fifo_step (mk_fifo p h false false) (mk_fifo p h true false)
(** Return, once the stream has ended and everything is handled. *)
| fifo_finish h : fifo_step (mk_fifo [] h true false) (mk_fifo [] h true true).

Definition fifo_init (vs : list gval) : fifo := mk_fifo vs [] false false.

(** ** The abstraction of the agent *)

Definition abs (reg : registry) (s : agent) : fifo :=
  mk_fifo (read_q s ++ reader_value (reader s)
             ++ (if reader s is RDone then [] else stream_values reg (conn_in s)))
          (client_values (events s)) (read_closed s) (loop_done s).

(** The packets [packet.Decode] reads off a stream, at most [fuel] of them,
    until the first error: the id byte of each frame with its value. *)
Fixpoint stream_packets (reg : registry) (fuel : nat) (bs : list byte) : list packet :=
  match fuel with
  | O => []
  | S f =>
      match Decode reg bs with
      | (Ok p, rest) => p :: stream_packets reg f rest
      | (Err _, _) => []
      end
  end.

Definition packets_of (reg : registry) (bs : list byte) : list packet :=
  stream_packets reg (S (length bs)) bs.

(** The value of a packet has the type registered for the packet's id
    (any type, when that id is registered as [interface{}]). *)
Definition typed_packet (reg : registry) (p : packet) : Prop :=
  exists ty, lookup reg (Id p) = Some ty /\ (is_iface ty = false -> type_of (Obj p) = Some ty).

(** ** The service's laws *)

Lemma fifo_step_conserve (f f' : fifo) :
  fifo_step f f' -> f_handled f' ++ f_pending f' = f_handled f ++ f_pending f.
Proof. destruct 1; cbn; by rewrite ?app_nil_r, <- ?app_assoc. Qed.

(** Handled and pending values together are always the delivered ones. *)
Lemma fifo_conserve (vs : list gval) (f : fifo) :
  rtc fifo_step (fifo_init vs) f -> f_handled f ++ f_pending f = vs.
Proof.
  intros H. remember (fifo_init vs) as f0 eqn:Hf0.
  assert (Hc : f_handled f0 ++ f_pending f0 = vs) by (by subst).
  clear Hf0. induction H as [|x y z Hxy _ IH]; [done|].
  apply IH. by rewrite (fifo_step_conserve _ _ Hxy).
Qed.

Lemma fifo_step_done (f f' : fifo) :
  fifo_step f f' -> f_done f' = true -> f_pending f' = [].
Proof. by destruct 1. Qed.

Lemma fifo_done_pending (f0 f : fifo) :
  rtc fifo_step f0 f -> (f_done f0 = true -> f_pending f0 = []) -> f_done f = true -> f_pending f = [].
Proof.
  induction 1 as [|x y z Hxy _ IH]; intros H0; [done|]. apply IH. intros Hd. by apply (fifo_step_done x y).
Qed.

(** The service returns only with nothing left to handle. *)
Lemma fifo_done (vs : list gval) (f : fifo) :
  rtc fifo_step (fifo_init vs) f -> f_done f = true -> f_handled f = vs.
Proof.
  intros H Hd. rewrite <- (fifo_conserve vs f H), (fifo_done_pending _ _ H); [|done|done].
  by rewrite app_nil_r.
Qed.

(** ** The simulation *)

Lemma abs_init (reg : registry) (bs : list byte) : abs reg (init bs) = fifo_init (stream_values reg bs).
Proof. reflexivity. Qed.

(** Each step of the agent is a step of the service or leaves its
    abstraction unchanged. *)
Lemma step_refines (reg : registry) (bs : list byte) (s s' : agent) :
  inv reg bs s -> step reg s s' -> fifo_step (abs reg s) (abs reg s') \/ abs reg s' = abs reg s.
Proof.
  intros Hinv Hst. destruct_inv Hinv. unfold abs.
  inversion Hst; subst; cbn [conn_in read_q read_closed reader loop_done events reader_value] in *;
    try (right; reflexivity).
  - (* reader_read_ok *)
    right. by rewrite (stream_values_Ok reg _ _ _ H).
  - (* reader_read_err *)
    running. left. rewrite (stream_values_Err reg _ _ _ H). apply fifo_eof.
  - (* reader_send *)
    right. by rewrite <- app_assoc.
  - (* loop_client *)
    left. rewrite client_values_app. apply fifo_handle.
  - (* loop_closed *)
    left. rewrite (proj1 Hrd eq_refl). apply fifo_finish.
  - (* loop_other *)
    right. rewrite client_values_app. by destruct H as [-> | [-> | ->]]; cbn; rewrite app_nil_r.
Qed.

Lemma reachable_abs (reg : registry) (bs : list byte) (s : agent) :
  reachable reg bs s -> rtc fifo_step (fifo_init (stream_values reg bs)) (abs reg s).
Proof.
  unfold reachable. intros H. rewrite <- abs_init.
  assert (Hinv : inv reg bs (init bs)) by apply inv_init.
  remember (init bs) as s0 eqn:Hs0. clear Hs0.
  induction H as [|x y z Hxy _ IH]; [done|].
  destruct (step_refines reg bs x y Hinv Hxy) as [Hf | Heq].
  - eapply rtc_l; [exact Hf|]. apply IH. by eapply inv_step.
  - rewrite <- Heq. apply IH. by eapply inv_step.
Qed.

(** [packet.Read] is [packet.Decode] keeping the value: the values the
    reader forwards are the objects of the decoded packets. *)
Lemma stream_packets_values (reg : registry) (n : nat) (bs : list byte) :
  map Obj (stream_packets reg n bs) = read_stream reg n bs.
Proof.
  revert bs. induction n as [|n IH]; intros bs; [done|]. cbn [stream_packets read_stream]. unfold Read.
  destruct (Decode reg bs) as [[p|e] rest]; cbn; [by rewrite IH | done].
Qed.

(** Every packet read off a stream has the type registered for its id. *)
Lemma stream_packets_typed (reg : registry) (n : nat) (bs : list byte) :
  wf_registry reg -> Forall (typed_packet reg) (stream_packets reg n bs).
Proof.
  intros Hwf. revert bs. induction n as [|n IH]; intros bs; cbn [stream_packets]; [constructor|].
  destruct (Decode reg bs) as [[p|e] rest] eqn:HD; [|constructor].
  constructor; [|apply IH]. exact (Decode_type reg bs rest p Hwf HD).
Qed.

(** ** Properties *)

(** C9: refinement: every run of the agent, seen through [abs], is a run
    of the order-preserving delivery service started on the values the
    connection carries. *)
Theorem agent_refines_fifo (reg : registry) (bs : list byte) (s : agent) :
  reachable reg bs s -> rtc fifo_step (fifo_init (stream_values reg bs)) (abs reg s).
Proof. apply reachable_abs. Qed.

(** C10: on every well-formed registry, the values [loop] has handed to
    [handleClientMessage] are, in order, the objects of the first packets
    [packet.Decode] reads off the connection, and each has the type
    registered for the id byte of its own frame (any type when that id is
    registered as [interface{}]). *)
Theorem handled_values_typed (reg : registry) (bs : list byte) (s : agent) :
  wf_registry reg -> reachable reg bs s ->
  exists ps, prefix ps (packets_of reg bs) /\ map Obj ps = client_values (events s) /\
    Forall (typed_packet reg) ps.
Proof.
  intros Hwf Hr. pose proof (fifo_conserve _ _ (reachable_abs reg bs s Hr)) as Hc.
  cbn [abs f_handled f_pending] in Hc.
  assert (Hv : stream_values reg bs = map Obj (packets_of reg bs))
    by (unfold packets_of, stream_values; by rewrite stream_packets_values).
  rewrite Hv in Hc. symmetry in Hc.
  apply map_eq_app in Hc as (ps & qs & Hpq & Hps & _).
  exists ps. split; [by exists qs|]. split; [done|].
  pose proof (stream_packets_typed reg (S (length bs)) bs Hwf) as Ht.
  fold (packets_of reg bs) in Ht. rewrite Hpq in Ht. by apply Forall_app in Ht as [? _].
Qed.

(** ** Witnesses *)

Lemma agent_refines_fifo_witness :
  reachable startup sample_stream sample_done /\
  rtc fifo_step (fifo_init (stream_values startup sample_stream)) (abs startup sample_done).
Proof. split; [exact sample_run|]. exact (agent_refines_fifo _ _ _ sample_run). Defined.

Lemma handled_values_typed_witness :
  wf_registry startup /\ reachable startup sample_stream sample_done /\
  exists ps, prefix ps (packets_of startup sample_stream) /\
    map Obj ps = client_values (events sample_done) /\ Forall (typed_packet startup) ps.
Proof.
  split; [exact wf_startup|]. split; [exact sample_run|].
  exact (handled_values_typed _ _ _ wf_startup sample_run).
Defined.

End AgentSpec.
