(* ===== verification/AgentWriter.v ===== *)
(** * The sending side of the agent: nothing is lost while the connection is open

    The writer goroutine of [player.Go()] (src/player/agent.go, lines
    51-61) drops a packet only when [packet.Write] fails.  For packets
    that can be encoded ([sendable]) on a connection that is still open,
    it never fails, so every packet sent on [player.send] is on the wire,
    held by the writer, or queued ([writer_no_loss]).  And the writer can
    always empty the queue: some schedule of the writer alone puts every
    sent packet on the wire, in order ([writer_can_flush]).  Both facts
    are proved on [Agent.step], so they hold under every interleaving with
    the reader, the loop and the rest of the program. *)

From stdpp Require Import base list relations.
From Stdlib Require Import ZArith Lia Strings.Byte.
From S2P Require Import Prelude Msgpack Types Frame Registry Codec Agent.

Local Open Scope Z_scope.
Import Msgpack Types Frame Registry Codec Agent.

Module AgentWriter.

(** The packets of a list can all be encoded and framed. *)
Definition all_sendable (reg : registry) (ps : list packet) : Prop :=
  Forall (fun p => sendable reg (Id p) (Obj p)) ps.

(** Nothing the writer took has been dropped. *)
Definition no_loss (reg : registry) (s : agent) : Prop :=
  all_sendable reg (sent s) -> conn_closed s = false -> written s ++ writer_packet (writer s) = processed s.

(** ** Lemmas *)

Lemma Write_sendable (reg : registry) (out : list byte) (p : packet) :
  sendable reg (Id p) (Obj p) -> Write reg out (Id p) (Obj p) = Ok (out ++ packet_frame p).
Proof. intros H. unfold Write. by apply sendable_Encode. Qed.

Lemma step_sent (reg : registry) (s s' : agent) :
  step reg s s' -> exists ps, sent s' = sent s ++ ps.
Proof. destruct 1; cbn; eauto using app_nil_r. Qed.

Lemma step_closed (reg : registry) (s s' : agent) :
  step reg s s' -> conn_closed s = true -> conn_closed s' = true.
Proof. by destruct 1. Qed.

Lemma no_loss_init (reg : registry) (bs : list byte) : no_loss reg (init bs).
Proof. done. Qed.

(** The writer's step keeps [no_loss]: a sendable packet on an open
    connection is always written. *)
Lemma no_loss_step (reg : registry) (bs : list byte) (s s' : agent) :
  inv reg bs s -> step reg s s' -> no_loss reg s -> no_loss reg s'.
Proof.
  intros Hinv Hst Hnl Hall Hopen.
  destruct (step_sent _ _ _ Hst) as [ps Hps].
  assert (Hall0 : all_sendable reg (sent s)) by (unfold all_sendable in *; rewrite Hps in Hall; by apply Forall_app in Hall as [? _]).
  assert (Hopen0 : conn_closed s = false) by (destruct (conn_closed s) eqn:E; [|done]; by rewrite (step_closed _ _ _ Hst E) in Hopen).
  specialize (Hnl Hall0 Hopen0). destruct_inv Hinv.
  inversion Hst; subst; cbn [written writer processed writer_packet sent conn_closed] in *; try done.
  - (* writer_take *) rewrite app_nil_r in Hnl. by rewrite Hnl.
  - (* writer_write_ok *) by rewrite app_nil_r.
  - (* writer_write_err: impossible, the packet is sendable *)
    exfalso. assert (Hp : sendable reg (Id p) (Obj p)).
    { unfold all_sendable in Hall0. rewrite Hs, Forall_app in Hall0. destruct Hall0 as [Hpr _].
      rewrite <- Hnl, Forall_app in Hpr. destruct Hpr as [_ Hpr]. by inversion Hpr. }
    by rewrite (Write_sendable reg co p Hp) in H.
Qed.

Lemma no_loss_reachable (reg : registry) (bs : list byte) (s : agent) :
  reachable reg bs s -> no_loss reg s.
Proof.
  intros H. pose proof H as Hr. unfold reachable in Hr. remember (init bs) as s0 eqn:Hs0.
  assert (Hinv : inv reg bs s0) by (subst; apply inv_init).
  assert (Hnl : no_loss reg s0) by (subst; apply no_loss_init). clear Hs0 H.
  induction Hr as [|x y z Hxy _ IH]; [done|]. apply IH; [by eapply inv_step | by eapply no_loss_step].
Qed.

(** The writer alone empties the queue when it is idle. *)
Lemma flush_queue (reg : registry) (qs : list packet) (s : agent) :
  writer s = WLoop -> write_q s = qs -> conn_closed s = false -> all_sendable reg qs ->
  exists s', rtc (step reg) s s' /\ written s' = written s ++ qs /\
    conn_out s' = conn_out s ++ concat (map packet_frame qs) /\ write_q s' = [] /\ writer s' = WLoop.
Proof.
  revert s. induction qs as [|q qs IH]; intros s Hw Hq Hc Hall.
  { exists s. by rewrite !app_nil_r. }
  inversion Hall as [|? ? Hq1 Hqs]; subst.
  destruct s as [ci co cc rq rc wq r w ld ev lg st pr wt]; cbn in Hw, Hq, Hc; subst.
  set (s1 := mk_agent ci (co ++ packet_frame q) false rq rc qs r WLoop ld ev lg st (pr ++ [q]) (wt ++ [q])).
  destruct (IH s1) as (s' & Hr & Hwt & Ho & Hq' & Hw'); [done|done|done|done|].
  exists s'. split; [|cbn in *; rewrite Hwt, Ho, <- !app_assoc; done].
  eapply rtc_l; [apply writer_take|]. eapply rtc_l; [apply writer_write_ok, Write_sendable, Hq1|]. exact Hr.
Qed.

(** ** Properties *)

(** C11: no packet is lost while the connection is open: if everything sent
    on [player.send] can be encoded, every sent packet, in order, has been
    written, is held by the writer, or waits in the channel. *)
Theorem writer_no_loss (reg : registry) (bs : list byte) (s : agent) :
  reachable reg bs s -> all_sendable reg (sent s) -> conn_closed s = false ->
  sent s = written s ++ writer_packet (writer s) ++ write_q s.
Proof.
  intros Hr Hall Hc. destruct (inv_reachable _ _ _ Hr) as (_ & _ & _ & _ & _ & _ & Hs & _).
  by rewrite Hs, <- (no_loss_reachable _ _ _ Hr Hall Hc), app_assoc.
Qed.

(** C12: the writer never gets stuck while the connection is open: from
    every reachable state, a schedule exists after which every packet
    sent so far has been written, and the connection carries exactly
    their frames, in order. *)
Theorem writer_can_flush (reg : registry) (bs : list byte) (s : agent) :
  reachable reg bs s -> all_sendable reg (sent s) -> conn_closed s = false ->
  exists s', rtc (step reg) s s' /\ written s' = sent s /\
    conn_out s' = concat (map packet_frame (sent s)) /\ write_q s' = [] /\ writer s' = WLoop.
Proof.
  intros Hr Hall Hc. pose proof (no_loss_reachable _ _ _ Hr Hall Hc) as Hnl.
  destruct (inv_reachable _ _ _ Hr) as (_ & _ & _ & _ & _ & _ & Hs & Ho & _).
  assert (Hq : all_sendable reg (write_q s)) by (unfold all_sendable in *; rewrite Hs in Hall; by apply Forall_app in Hall as [_ ?]).
  assert (Hpr : all_sendable reg (processed s)) by (unfold all_sendable in *; rewrite Hs in Hall; by apply Forall_app in Hall as [? _]).
  (* First put the packet the writer holds on the wire. *)
  assert (Hidle : exists s1, rtc (step reg) s s1 /\ writer s1 = WLoop /\ write_q s1 = write_q s /\
            written s1 = processed s /\ conn_closed s1 = false /\ conn_out s1 = concat (map packet_frame (processed s))).
  { destruct s as [ci co cc rq rc wq r [|p] ld ev lg st pr wt]; cbn in *; subst.
    - eexists. split; [apply rtc_refl|]. cbn. by rewrite ?app_nil_r.
    - assert (Hp : sendable reg (Id p) (Obj p)) by (unfold all_sendable in Hpr; by apply Forall_app in Hpr as [_ Hp%Forall_inv]).
      eexists. split; [apply rtc_once, writer_write_ok, Write_sendable, Hp|]. cbn.
      rewrite ?map_app, ?concat_app. cbn. by rewrite ?app_nil_r. }
  destruct Hidle as (s1 & Hs1 & Hw1 & Hq1 & Hwt1 & Hc1 & Ho1).
  destruct (flush_queue reg (write_q s) s1 Hw1 Hq1 Hc1 Hq) as (s' & Hs' & Hwt & Ho' & Hq' & Hw').
  exists s'. split; [by etrans|]. rewrite Hwt, Ho', Hwt1, Ho1, Hs, map_app, concat_app. done.
Qed.

(** ** Witnesses *)

Lemma writer_no_loss_witness :
  reachable startup [] (init []) /\ all_sendable startup (sent (init [])) /\ conn_closed (init []) = false /\
  sent (init []) = written (init []) ++ writer_packet (writer (init [])) ++ write_q (init []).
Proof.
  assert (Hr : reachable startup [] (init [])) by apply rtc_refl.
  assert (Ha : all_sendable startup (sent (init []))) by constructor.
  split; [exact Hr|]. split; [exact Ha|]. split; [reflexivity|]. exact (writer_no_loss _ _ _ Hr Ha eq_refl).
Defined.

(** A state where the program has sent [sample_packet] and it waits in
    the channel. *)
Lemma writer_can_flush_witness :
  reachable startup [] (mk_agent [] [] false [] false [sample_packet] RLoop WLoop false [] [] [sample_packet] [] []) /\
  all_sendable startup [sample_packet] /\
  exists s', rtc (step startup) (mk_agent [] [] false [] false [sample_packet] RLoop WLoop false [] [] [sample_packet] [] []) s'
    /\ written s' = [sample_packet] /\ conn_out s' = concat (map packet_frame [sample_packet])
    /\ write_q s' = [] /\ writer s' = WLoop.
Proof.
  assert (Hr : reachable startup [] (mk_agent [] [] false [] false [sample_packet] RLoop WLoop false [] [] [sample_packet] [] []))
    by (apply rtc_once, (app_send startup [] [] false [] false [] RLoop WLoop false [] [] [] [] [] sample_packet); cbn; unfold cap; lia).
  assert (Ha : all_sendable startup [sample_packet])
    by (apply List.Forall_cons; [apply sendableb_sendable; vm_compute; reflexivity | apply List.Forall_nil]).
  split; [exact Hr|]. split; [exact Ha|]. exact (writer_can_flush _ _ _ Hr Ha eq_refl).
Defined.

End AgentWriter.
